(** * AI-storyteller: segment alignment and mixed JSON/text extraction

    A shallow embedding of two functions of the repository's scripts:

    - [align_transcription_with_speakers]
      (scripts/transcribeWithSpeakers.py), which labels every transcription
      segment with the speaker whose diarization segment overlaps it most;
    - [parse_mixed_json_and_text] (scripts/format_output.py), which splits
      a text into plain-text parts and parsed JSON parts.

    Around them, the functions that feed them and that use their results:
    [extract_text_from_json] and [format_text_with_line_breaks]
    (scripts/format_output.py), [get_mime_type], [get_file_extension],
    [format_as_text] and [format_as_srt]
    (scripts/transcribeWithSpeakers.py).

    The times of the segments are Python numbers: an [int] is an
    integer, a [float] a binary64 number with the arithmetic of the
    machine, and the two are compared by what they are worth.
    [json.loads] is the decoder of the standard library, with the two
    limits of the interpreter that it meets: the digits that [int]
    converts and the depth of the recursion. What else the standard
    library computes ([json.dumps], which returns a text or raises
    [RecursionError]; [mimetypes.guess_type]; the suffix of a path; the
    digits of a [float]) and [format_timestamp] are variables of the
    sections that need them.

    Python dictionaries are finite maps with string keys, Python exceptions
    are explicit failure results, and the two [for] loops of each function
    are structural recursions over the list they traverse. *)

From Stdlib Require Import Ascii String DecimalString QArith Lqa Floats.
From stdpp Require Import gmap strings list fin_maps.

#[local] Set Warnings "-register-all".
#[local] Set Warnings "-inexact-float".
Local Open Scope Q_scope.

(** ** Segment alignment *)

Module Aligner.

(** The values a segment dictionary holds ([Dict[str, Any]]): the
    services yield numbers, strings and lists, a missing label is [None].
    Times are seconds, Python [float]s: binary64 numbers, with the
    arithmetic of the machine. An [int] is any integer. *)
Inductive value : Type :=
  | VNone
  | VBool (b : bool)
  | VInt (z : Z)
  | VFloat (f : float)
  | VStr (s : string)
  | VList (l : list value).

Abbreviation dict := (gmap string value).

(** *** Python numbers *)

Inductive number : Type :=
  | Int (z : Z)
  | Float (f : float).

(** What a number is worth: a rational, an infinity, or nothing that
    can be compared (a NaN). A finite float is its mantissa times a
    power of two. *)
Inductive exact_value : Type :=
  | Finite (q : Q)
  | Infinite (negative : bool)
  | NotANumber.

Definition exact (n : number) : exact_value :=
  match n with
  | Int z => Finite (inject_Z z)
  | Float f =>
      match Prim2SF f with
      | S754_zero _ => Finite 0
      | S754_infinity negative => Infinite negative
      | S754_nan => NotANumber
      | S754_finite negative m e =>
          Finite ((if negative then - inject_Z (Z.pos m) else inject_Z (Z.pos m))
                  * 2 ^ e)
      end
  end.

(** [x > y] on rationals. *)
Definition Qgtb (x y : Q) : bool := negb (Qle_bool x y).

(** [a > b]: Python compares two numbers by what they are worth, also
    an [int] with a [float]; a NaN is neither greater nor smaller than
    anything. *)
Definition exact_gt (x y : exact_value) : bool :=
  match x, y with
  | Finite p, Finite q => Qgtb p q
  | Infinite false, (Finite _ | Infinite true) => true
  | Finite _, Infinite true => true
  | _, _ => false
  end.

Definition gt (a b : number) : bool := exact_gt (exact a) (exact b).

(** Python's [max(a, b)] keeps its first argument unless the second is
    strictly greater; [min(a, b)] keeps it unless the second is strictly
    smaller. *)
Definition py_max (a b : number) : number := if gt b a then b else a.
Definition py_min (a b : number) : number := if gt a b then b else a.

(** [float(z)]: the nearest binary64 number, ties to the even mantissa;
    [None] is the [OverflowError] of an integer too large for one. *)
Definition float_of_int (z : Z) : option float :=
  match binary_normalize prec emax z 0 false with
  | S754_infinity _ => None
  | nearest => Some (SF2Prim nearest)
  end.

Definition to_float (n : number) : option float :=
  match n with
  | Int z => float_of_int z
  | Float f => Some f
  end.

(** [a - b]: exact on two [int]s; otherwise both become [float]s and
    the difference is the binary64 one, rounded. *)
Definition py_sub (a b : number) : option number :=
  match a, b with
  | Int x, Int y => Some (Int (x - y))
  | _, _ => x ← to_float a; y ← to_float b; Some (Float (x - y))
  end.

(** The numeric reading of a value. [bool] is a subtype of [int] in
    Python; every other non-number makes the overlap computation raise
    [TypeError] (for two strings [max] and [min] succeed, the
    subtraction then raises). *)
Definition as_num (v : value) : option number :=
  match v with
  | VInt z => Some (Int z)
  | VFloat f => Some (Float f)
  | VBool b => Some (Int (if b then 1 else 0))
  | _ => None
  end.

(** Lines 219-221:
<<
    overlap_start = max(trans_start, speaker_start)
    overlap_end = min(trans_end, speaker_end)
    overlap = max(0, overlap_end - overlap_start)
>>
*)
Definition overlap_num (trans_start trans_end speaker_start speaker_end : number)
  : option number :=
  let overlap_start := py_max trans_start speaker_start in
  let overlap_end := py_min trans_end speaker_end in
  difference ← py_sub overlap_end overlap_start;
  Some (py_max (Int 0) difference).

Definition overlap (trans_start trans_end speaker_start speaker_end : value)
  : option number :=
  ts ← as_num trans_start;
  te ← as_num trans_end;
  ss ← as_num speaker_start;
  se ← as_num speaker_end;
  overlap_num ts te ss se.

(** Truth value of an object, as tested by [x if x else y]. *)
Definition truthy (v : value) : bool :=
  match v with
  | VNone => false
  | VBool b => b
  | VInt z => negb (z =? 0)%Z
  | VFloat f => negb (f =? 0)%float
  | VStr s => negb (String.eqb s "")
  | VList l => match l with [] => false | _ => true end
  end.

(** The inner loop (lines 214-225), from the state
    [(best_speaker, best_overlap)] on. [None] is a raised [KeyError],
    [TypeError] or [OverflowError]. The label is read only when the
    segment wins. *)
Fixpoint best_loop (trans_start trans_end : value) (speaker_segments : list dict)
    (best_speaker : value) (best_overlap : number) : option (value * number) :=
  match speaker_segments with
  | [] => Some (best_speaker, best_overlap)
  | speaker_seg :: rest =>
      speaker_start ← speaker_seg !! "start";
      speaker_end ← speaker_seg !! "end";
      ov ← overlap trans_start trans_end speaker_start speaker_end;
      if gt ov best_overlap then
        label ← speaker_seg !! "speaker";
        best_loop trans_start trans_end rest label ov
      else
        best_loop trans_start trans_end rest best_speaker best_overlap
  end.

(** [best_speaker if best_speaker else "UNKNOWN"] *)
Definition speaker_or_unknown (best_speaker : value) : value :=
  if truthy best_speaker then best_speaker else VStr "UNKNOWN".

(** One iteration of the outer loop (lines 206-232): the aligned segment
    is [{**trans_seg, "speaker": ...}]. *)
Definition align_segment (speaker_segments : list dict) (trans_seg : dict)
  : option dict :=
  trans_start ← trans_seg !! "start";
  trans_end ← trans_seg !! "end";
  best ← best_loop trans_start trans_end speaker_segments VNone (Int 0);
  Some (<["speaker" := speaker_or_unknown best.1]> trans_seg).

(** The outer loop appends one aligned segment per transcription segment,
    in order; an exception aborts the whole call. *)
Fixpoint align_transcription_with_speakers
    (transcription_segments speaker_segments : list dict) : option (list dict) :=
  match transcription_segments with
  | [] => Some []
  | trans_seg :: rest =>
      aligned_seg ← align_segment speaker_segments trans_seg;
      aligned_segments ← align_transcription_with_speakers rest speaker_segments;
      Some (aligned_seg :: aligned_segments)
  end.

(** *** Notions the statements below use *)

(** The overlap of a transcription segment with a speaker segment, as
    the program computes it from the two dictionaries. *)
Definition seg_overlap (trans_seg speaker_seg : dict) : option number :=
  trans_start ← trans_seg !! "start";
  trans_end ← trans_seg !! "end";
  speaker_start ← speaker_seg !! "start";
  speaker_end ← speaker_seg !! "end";
  overlap trans_start trans_end speaker_start speaker_end.

(** A number that is not a NaN. *)
Definition comparable (n : number) : Prop := exact n ≠ NotANumber.

(** A time: a number that the subtraction accepts, a [float] or an
    [int] that [float] converts. *)
Definition seconds (v : value) : Prop :=
  ∃ n, as_num v = Some n ∧ is_Some (to_float n).

(** A segment with its two times. Nothing below needs [start <= end]. *)
Definition timed (d : dict) : Prop :=
  ∃ a b, d !! "start" = Some a ∧ d !! "end" = Some b ∧ seconds a ∧ seconds b.

(** A speaker segment is a timed segment that carries a label. *)
Definition speaker_segment (d : dict) : Prop :=
  timed d ∧ is_Some (d !! "speaker").

(** Speaker segment number [i], [s], is the first of [ss] whose computed
    overlap [o] with [t] is the greatest, and that overlap is positive:
    [o > 0], no overlap is greater than [o], and [o] is greater than the
    overlaps of the segments before [s]. The comparisons are the
    program's, on the overlaps it computes. *)
Definition first_greatest (t : dict) (ss : list dict) (i : nat) (s : dict)
    (o : number) : Prop :=
  ss !! i = Some s ∧ seg_overlap t s = Some o ∧ gt o (Int 0) = true ∧
  (∀ j s' o', ss !! j = Some s' → seg_overlap t s' = Some o' →
     gt o' o = false) ∧
  (∀ j s' o', (j < i)%nat → ss !! j = Some s' → seg_overlap t s' = Some o' →
     gt o o' = true).

(** No speaker segment of [ss] has a computed overlap with [t] that is
    greater than 0. *)
Definition no_overlap (t : dict) (ss : list dict) : Prop :=
  ∀ j s o, ss !! j = Some s → seg_overlap t s = Some o → gt o (Int 0) = false.

(** The label of an aligned segment. *)
Definition label_of (aligned_seg : dict) : option value :=
  aligned_seg !! "speaker".

(** Segment builders for the examples. *)
Definition transcript (a b : float) (text : string) : dict :=
  <["start" := VFloat a]> (<["end" := VFloat b]> (<["text" := VStr text]> ∅)).

Definition speaker (label : string) (a b : float) : dict :=
  <["speaker" := VStr label]> (<["start" := VFloat a]> (<["end" := VFloat b]>
    (<["duration" := VFloat (b - a)]> ∅))).

End Aligner.

(** ** Mixed JSON and text *)

Module Extractor.

Local Open Scope N_scope.

(** A Python [str] is a sequence of Unicode code points. *)
Abbreviation str := (list N).

Definition chr (a : ascii) : N := N_of_ascii a.
Arguments chr : simpl never.

(** A string literal, as a [str]. *)
Definition py (s : string) : str := chr <$> list_ascii_of_string s.

Definition dquote : N := 34.
Definition backslash : N := 92.

(** [str.isspace] for one character; [str.strip] and the regular
    expression class [\s] both use it. *)
Definition is_space (c : N) : bool :=
  ((9 <=? c) && (c <=? 13)) || ((28 <=? c) && (c <=? 32))
  || (c =? 133) || (c =? 160) || (c =? 5760)
  || ((8192 <=? c) && (c <=? 8202))
  || (c =? 8232) || (c =? 8233) || (c =? 8239) || (c =? 8287) || (c =? 12288).

Fixpoint lstrip (s : str) : str :=
  match s with
  | c :: r => if is_space c then lstrip r else s
  | [] => []
  end.

Definition rstrip (s : str) : str := reverse (lstrip (reverse s)).

(** [s.strip()] *)
Definition strip (s : str) : str := rstrip (lstrip s).

(** [s[a:b]] for [0 <= a], [0 <= b]. *)
Definition slice (s : str) (a b : nat) : str := take (b - a) (drop a s).

Fixpoint startswith (s p : str) : bool :=
  match p, s with
  | [], _ => true
  | c :: p', d :: s' => (c =? d) && startswith s' p'
  | _ :: _, [] => false
  end.

(** *** [json.loads]

    The decoder of the standard library ([json.decoder], [json.scanner]),
    on the rest of the input instead of an index into it. *)

(** A decoded JSON document. An object is the list of its members in
    insertion order, without duplicate keys; a float is kept as the
    literal handed to [float()]. *)
Inductive json : Type :=
  | JNull
  | JBool (b : bool)
  | JInt (z : Z)
  | JFloat (literal : str)
  | JStr (s : str)
  | JArr (items : list json)
  | JObj (members : list (str * json)).

(** The exceptions that [json.loads] raises: [JSONDecodeError] for a text
    that is not a JSON document, [ValueError] for an integer literal of
    more digits than [int] converts, [RecursionError] for arrays and
    objects nested deeper than the interpreter lets calls nest, or when
    a [JSONDecodeError] cannot be built that deep. *)
Inductive exn : Type :=
  | JSONDecodeError
  | ValueError
  | RecursionError.

(** The outcome of a call: a value, a raised exception, or [OutOfFuel]
    for a recursion of the model that was cut short by its bound. *)
Inductive result (A : Type) : Type :=
  | Ok (a : A)
  | Raise (e : exn)
  | OutOfFuel.
Arguments Ok {A} a.
Arguments Raise {A} e.
Arguments OutOfFuel {A}.

#[global] Instance result_ret : MRet result := @Ok.
#[global] Instance result_bind : MBind result := λ A B f m,
  match m with
  | Ok a => f a
  | Raise e => Raise e
  | OutOfFuel => OutOfFuel
  end.

(** [d[key] = val] on the member list of an object. *)
Fixpoint dict_set (key : str) (val : json) (members : list (str * json))
  : list (str * json) :=
  match members with
  | [] => [(key, val)]
  | (k, v) :: rest =>
      if bool_decide (k = key) then (k, val) :: rest
      else (k, v) :: dict_set key val rest
  end.

(** [WHITESPACE = re.compile(r'[ \t\n\r]*')] *)
Definition is_json_ws (c : N) : bool :=
  (c =? 32) || (c =? 9) || (c =? 10) || (c =? 13).

Fixpoint skip_ws (s : str) : str :=
  match s with
  | c :: r => if is_json_ws c then skip_ws r else s
  | [] => []
  end.

Definition is_digit (c : N) : bool := (48 <=? c) && (c <=? 57).

Definition hex_digit (c : N) : option N :=
  if is_digit c then Some (c - 48)
  else if (97 <=? c) && (c <=? 102) then Some (c - 87)
  else if (65 <=? c) && (c <=? 70) then Some (c - 55)
  else None.

Definition hex4 (h1 h2 h3 h4 : N) : option N :=
  a ← hex_digit h1; b ← hex_digit h2; c ← hex_digit h3; d ← hex_digit h4;
  Some (((a * 16 + b) * 16 + c) * 16 + d).

Definition is_high_surrogate (u : N) : bool := (55296 <=? u) && (u <=? 56319).
Definition is_low_surrogate (u : N) : bool := (56320 <=? u) && (u <=? 57343).
Definition join_surrogates (hi lo : N) : N :=
  65536 + (((hi - 55296) * 1024) + (lo - 56320)).

(** The character a one-letter escape stands for. *)
Definition simple_escape (e : N) : option N :=
  if e =? dquote then Some dquote
  else if e =? backslash then Some backslash
  else if e =? chr "/" then Some (chr "/")
  else if e =? chr "b" then Some 8
  else if e =? chr "f" then Some 12
  else if e =? chr "n" then Some 10
  else if e =? chr "r" then Some 13
  else if e =? chr "t" then Some 9
  else None.

Definition push (c : N) (r : result (str * str)) : result (str * str) :=
  '(t, rest) ← r; Ok (c :: t, rest).

(** [scanstring] in strict mode, from the character after the opening
    quote: the decoded string and the input after the closing quote. *)
Fixpoint scanstring (s : str) : result (str * str) :=
  match s with
  | [] => Raise JSONDecodeError
  | c :: r =>
      if c =? dquote then Ok ([], r)
      else if c =? backslash then
        match r with
        | [] => Raise JSONDecodeError
        | e :: r1 =>
            if e =? chr "u" then
              match r1 with
              | h1 :: h2 :: h3 :: h4 :: r2 =>
                  match hex4 h1 h2 h3 h4 with
                  | None => Raise JSONDecodeError
                  | Some u =>
                      match r2 with
                      | b :: e2 :: k1 :: k2 :: k3 :: k4 :: r3 =>
                          if is_high_surrogate u && (b =? backslash)
                             && (e2 =? chr "u") then
                            match hex4 k1 k2 k3 k4 with
                            | None => Raise JSONDecodeError
                            | Some u2 =>
                                if is_low_surrogate u2
                                then push (join_surrogates u u2) (scanstring r3)
                                else push u (scanstring r2)
                            end
                          else push u (scanstring r2)
                      | _ => push u (scanstring r2)
                      end
                  end
              | _ => Raise JSONDecodeError
              end
            else
              match simple_escape e with
              | Some c' => push c' (scanstring r1)
              | None => Raise JSONDecodeError
              end
        end
      else if c <=? 31 then Raise JSONDecodeError
      else push c (scanstring r)
  end.

Fixpoint span_digits (s : str) : str * str :=
  match s with
  | c :: r =>
      if is_digit c then let '(ds, rest) := span_digits r in (c :: ds, rest)
      else ([], s)
  | [] => ([], [])
  end.

(** [sys.int_info.default_max_str_digits]: [int] raises [ValueError] for
    a decimal literal of more digits. *)
Definition int_max_str_digits : nat := 4300.

(** [int(digits)] for a run of decimal digits. *)
Definition int_of_digits (ds : str) : Z :=
  foldl (λ acc c, acc * 10 + Z.of_N (c - 48))%Z 0%Z ds.

(** [NUMBER_RE]: an optional minus sign, then [0] or a run of digits
    that does not start with [0], then optionally a dot and digits, then
    optionally [e] or [E], an optional sign and digits. With a fraction or
    an exponent the value is [float] of the literal, otherwise [int] of
    it, which raises [ValueError] when it has too many digits. *)
Definition match_number (s : str) : result (json * str) :=
  let '(neg, s1) :=
    match s with
    | c :: r => if c =? chr "-" then (true, r) else (false, s)
    | [] => (false, s)
    end in
  match s1 with
  | [] => Raise JSONDecodeError
  | d :: r1 =>
      if is_digit d then
        let '(ds, r2) :=
          if d =? chr "0" then ([], r1) else span_digits r1 in
        let integer := d :: ds in
        let '(frac, r3) :=
          match r2 with
          | dot :: f :: r =>
              if (dot =? chr ".") && is_digit f
              then let '(fs, rest) := span_digits r in (dot :: f :: fs, rest)
              else ([], r2)
          | _ => ([], r2)
          end in
        let '(exp, r4) :=
          match r3 with
          | e :: r =>
              if (e =? chr "e") || (e =? chr "E") then
                let '(sign, r') :=
                  match r with
                  | sg :: r' =>
                      if (sg =? chr "-") || (sg =? chr "+")
                      then ([sg], r') else ([], r)
                  | [] => ([], r)
                  end in
                match span_digits r' with
                | ([], _) => ([], r3)
                | (es, rest) => (e :: sign ++ es, rest)
                end
              else ([], r3)
          | [] => ([], r3)
          end in
        let minus := if neg then [chr "-"] else [] in
        match frac, exp with
        | [], [] =>
            if (int_max_str_digits <? length integer)%nat
            then Raise ValueError
            else Ok (JInt (if neg then - int_of_digits integer
                           else int_of_digits integer)%Z, r4)
        | _, _ => Ok (JFloat (minus ++ integer ++ frac ++ exp), r4)
        end
      else Raise JSONDecodeError
  end.

(** What the recursion limit of the interpreter leaves to the decoder
    when it is called: [nesting], the number of arrays and objects that
    may be entered one inside the other before [RecursionError];
    [error_frames], the number of calls it takes to build a
    [JSONDecodeError] where the scanner finds the error. On CPython 3.11
    the scanner is C code that counts its nesting against the recursion
    limit and calls the constructor of the exception from where it is, so
    that [error_frames] is 3; where the two are counted apart it is 0. *)
Record limits : Type := Limits {
  nesting : nat;
  error_frames : nat;
}.

(** An error that the scanner reports where it is (a missing delimiter
    or property name, a string that does not end, a bad escape or
    control character), with [depth] levels left: the exception is
    [JSONDecodeError] if it can be built, [RecursionError] if not. The
    errors that stay [JSONDecodeError] below are those that the scanner
    signals by [StopIteration] and that [raw_decode] turns into
    [JSONDecodeError] once the scanner has returned (no value where one
    is expected), and those of [decode] itself. *)
Definition errmsg {A : Type} (frames depth : nat) : result A :=
  if (depth <? frames)%nat then Raise RecursionError else Raise JSONDecodeError.

(** A call of [scanstring] with [depth] levels left. *)
Definition at_depth {A : Type} (frames depth : nat) (r : result A) : result A :=
  match r with
  | Raise JSONDecodeError => errmsg frames depth
  | _ => r
  end.

(** [scan_once], with the loops of [JSONObject] and [JSONArray].
    [depth] is the number of arrays and objects that may still be
    entered, one inside the other, before the interpreter raises
    [RecursionError]. The three recursions descend on [fuel]: a value and
    the loop of its members or elements take one unit each, and
    [json_loads] gives them more than twice the length of the input. *)
Fixpoint scan_once (frames fuel depth : nat) (s : str) {struct fuel}
  : result (json * str) :=
  match fuel with
  | O => OutOfFuel
  | S fuel' =>
      match s with
      | [] => Raise JSONDecodeError
      | c :: r =>
          if c =? dquote then
            '(t, rest) ← at_depth frames depth (scanstring r); Ok (JStr t, rest)
          else if c =? chr "{" then
            match depth with
            | O => Raise RecursionError
            | S depth' =>
                match skip_ws r with
                | c' :: r' =>
                    if c' =? chr "}" then Ok (JObj [], r')
                    else parse_members frames fuel' depth' [] (c' :: r')
                | [] => errmsg frames depth'
                end
            end
          else if c =? chr "[" then
            match depth with
            | O => Raise RecursionError
            | S depth' =>
                match skip_ws r with
                | c' :: r' =>
                    if c' =? chr "]" then Ok (JArr [], r')
                    else parse_elements frames fuel' depth' [] (c' :: r')
                | [] => Raise JSONDecodeError
                end
            end
          else if startswith s (py "null") then Ok (JNull, drop 4 s)
          else if startswith s (py "true") then Ok (JBool true, drop 4 s)
          else if startswith s (py "false") then Ok (JBool false, drop 5 s)
          else if startswith s (py "NaN") then Ok (JFloat (py "NaN"), drop 3 s)
          else if startswith s (py "Infinity")
            then Ok (JFloat (py "Infinity"), drop 8 s)
          else if startswith s (py "-Infinity")
            then Ok (JFloat (py "-Infinity"), drop 9 s)
          else match_number s
      end
  end
with parse_members (frames fuel depth : nat) (members : list (str * json))
    (s : str) {struct fuel} : result (json * str) :=
  match fuel with
  | O => OutOfFuel
  | S fuel' =>
      match s with
      | q :: r =>
          if q =? dquote then
            '(key, r1) ← at_depth frames depth (scanstring r);
            match skip_ws r1 with
            | colon :: r2 =>
                if colon =? chr ":" then
                  '(val, r3) ← scan_once frames fuel' depth (skip_ws r2);
                  let members' := dict_set key val members in
                  match skip_ws r3 with
                  | d :: r4 =>
                      if d =? chr "}" then Ok (JObj members', r4)
                      else if d =? chr "," then
                        parse_members frames fuel' depth members' (skip_ws r4)
                      else errmsg frames depth
                  | [] => errmsg frames depth
                  end
                else errmsg frames depth
            | [] => errmsg frames depth
            end
          else errmsg frames depth
      | [] => errmsg frames depth
      end
  end
with parse_elements (frames fuel depth : nat) (items : list json) (s : str)
    {struct fuel} : result (json * str) :=
  match fuel with
  | O => OutOfFuel
  | S fuel' =>
      '(val, r1) ← scan_once frames fuel' depth s;
      let items' := items ++ [val] in
      match skip_ws r1 with
      | d :: r2 =>
          if d =? chr "]" then Ok (JArr items', r2)
          else if d =? chr "," then
            parse_elements frames fuel' depth items' (skip_ws r2)
          else errmsg frames depth
      | [] => errmsg frames depth
      end
  end.

(** [json.loads(s)]: no byte order mark, one value, and nothing but
    white space around it. [limit] is what the recursion limit of the
    interpreter leaves to the decoder when it is called. *)
Definition json_loads (limit : limits) (s : str) : result json :=
  if startswith s [65279] then Raise JSONDecodeError
  else
    '(obj, rest) ← scan_once (error_frames limit) (S (2 * length s))
                     (nesting limit) (skip_ws s);
    match skip_ws rest with
    | [] => Ok obj
    | _ :: _ => Raise JSONDecodeError
    end.

(** *** The markdown pattern

    [markdown_pattern] is three backquotes, an optional [json], white
    space, a group that is an opening brace followed by as few characters
    as possible up to a closing brace (or the same with square brackets),
    white space, and three backquotes; with [re.DOTALL] the characters of
    the group may be line breaks. The white space runs are delimited by
    characters that are not white space and [json] by a character that is
    neither white space nor a bracket, so backtracking has one choice
    only: where the group ends. *)

Definition fence : str := py "```".

(** A match object: [m.start()], [m.end()], [m.group(0)], [m.group(1)]. *)
Record rmatch : Type := RMatch {
  m_start : nat;
  m_end : nat;
  group0 : str;
  group1 : str;
}.

(** The lazy group body: the least [k] such that [s] has the closing
    bracket at index [k], followed by white space and the fence. The
    result is [k] and the length of that white space. *)
Fixpoint find_close (close : N) (s : str) (k : nat) : option (nat * nat) :=
  match s with
  | [] => None
  | c :: r =>
      if (c =? close) && startswith (lstrip r) fence
      then Some (k, (length r - length (lstrip r))%nat)
      else find_close close r (S k)
  end.

(** The pattern matched at the start of [s]: the offsets of the group
    and the length of the match. *)
Definition match_here (s : str) : option (nat * nat * nat) :=
  if startswith s fence then
    let s1 := drop 3 s in
    let tag := if startswith s1 (py "json") then 4%nat else 0%nat in
    let s2 := drop tag s1 in
    let s3 := lstrip s2 in
    let ws1 := (length s2 - length s3)%nat in
    match s3 with
    | open :: s4 =>
        let close :=
          if open =? chr "{" then Some (chr "}")
          else if open =? chr "[" then Some (chr "]")
          else None in
        match close with
        | Some cl =>
            match find_close cl s4 0 with
            | Some (k, ws2) =>
                let g_start := (3 + tag + ws1)%nat in
                let g_end := (g_start + 1 + k + 1)%nat in
                Some (g_start, g_end, (g_end + ws2 + 3)%nat)
            | None => None
            end
        | None => None
        end
    | [] => None
    end
  else None.

(** [re.finditer]: the matches from left to right, the search resuming
    where the previous match ended. [s] is the text from index [pos] on
    and [skip] counts the characters of it that the previous match still
    covers. *)
Fixpoint finditer_from (s : str) (pos skip : nat) : list rmatch :=
  match s with
  | [] => []
  | _ :: r =>
      match skip with
      | S skip' => finditer_from r (S pos) skip'
      | O =>
          match match_here s with
          | Some (g_start, g_end, len) =>
              RMatch pos (pos + len) (take len s) (slice s g_start g_end)
              :: finditer_from r (S pos) (len - 1)
          | None => finditer_from r (S pos) 0
          end
      end
  end.

Definition finditer (text : str) : list rmatch := finditer_from text 0 0.

(** *** The parts of the result *)

(** An element of [result_parts]: a piece of the text, or a parsed
    document that the result shows as
    [json.dumps(parsed, indent=2, ensure_ascii=False)]. *)
Inductive chunk : Type :=
  | Text (t : str)
  | Json (parsed : json).

Definition nonempty (s : str) : bool :=
  match s with [] => false | _ :: _ => true end.

(** [filter(None, result_parts)] keeps the parts that are not the empty
    string; [json.dumps] never returns it. *)
Definition kept (c : chunk) : bool :=
  match c with
  | Text t => nonempty t
  | Json _ => true
  end.

(** Lines 72-91: the loop over the markdown matches, from [last_end]
    on, and the remaining text after the last one. *)
Fixpoint markdown_parts (limit : limits) (text : str) (last_end : nat)
    (matches : list rmatch) : result (list chunk) :=
  match matches with
  | [] =>
      Ok (if (last_end <? length text)%nat
          then [Text (strip (drop last_end text))] else [])
  | m :: rest =>
      let before :=
        if (last_end <? m_start m)%nat
        then [Text (strip (slice text last_end (m_start m)))] else [] in
      let json_str := group1 m in
      part ←
        match json_loads limit json_str with
        | Ok parsed => Ok (Json parsed)
        | Raise JSONDecodeError => Ok (Text (group0 m))
        | Raise e => Raise e
        | OutOfFuel => OutOfFuel
        end;
      parts ← markdown_parts limit text (m_end m) rest;
      Ok (before ++ part :: parts)
  end.

(** Lines 96-114: the scan for standalone objects. [rest] is the text
    from index [i] on; [start_idx] is [None] where the source has the
    sentinel [-1]. The result is [json_objects]. *)
Fixpoint brace_scan (limit : limits) (text rest : str) (i : nat)
    (brace_count : Z) (start_idx : option nat)
  : result (list (nat * nat * json)) :=
  match rest with
  | [] => Ok []
  | char :: rest' =>
      if char =? chr "{" then
        brace_scan limit text rest' (S i) (brace_count + 1)
          (if (brace_count =? 0)%Z then Some i else start_idx)
      else if char =? chr "}" then
        let brace_count := (brace_count - 1)%Z in
        match start_idx with
        | Some start =>
            if (brace_count =? 0)%Z then
              let json_candidate := slice text start (i + 1) in
              match json_loads limit json_candidate with
              | Ok parsed_obj =>
                  json_objects ← brace_scan limit text rest' (S i) brace_count None;
                  Ok ((start, (i + 1)%nat, parsed_obj) :: json_objects)
              | Raise JSONDecodeError =>
                  brace_scan limit text rest' (S i) brace_count None
              | Raise e => Raise e
              | OutOfFuel => OutOfFuel
              end
            else brace_scan limit text rest' (S i) brace_count start_idx
        | None => brace_scan limit text rest' (S i) brace_count start_idx
        end
      else brace_scan limit text rest' (S i) brace_count start_idx
  end.

Definition text_part (t : str) : list chunk :=
  if nonempty t then [Text t] else [].

(** Lines 118-136: the formatted objects with the text between them. *)
Fixpoint object_parts (text : str) (last_end : nat)
    (json_objects : list (nat * nat * json)) : list chunk :=
  match json_objects with
  | [] =>
      if (last_end <? length text)%nat
      then text_part (strip (drop last_end text)) else []
  | (start, end_, parsed_obj) :: rest =>
      (if (last_end <? start)%nat
       then text_part (strip (slice text last_end start)) else [])
      ++ Json parsed_obj :: object_parts text end_ rest
  end.

(** The parts that [parse_mixed_json_and_text] joins: the whole text as
    one document; else the markdown blocks and the text around them;
    else the standalone objects and the text around them; else the
    text. *)
Definition result_parts (limit : limits) (text : str)
  : result (list chunk) :=
  let text := strip text in
  match json_loads limit text with
  | Ok parsed => Ok [Json parsed]
  | OutOfFuel => OutOfFuel
  | Raise ValueError => Raise ValueError
  | Raise RecursionError => Raise RecursionError
  | Raise JSONDecodeError =>
      let markdown_matches := finditer text in
      match markdown_matches with
      | _ :: _ =>
          parts ← markdown_parts limit text 0 markdown_matches;
          Ok (List.filter kept parts)
      | [] =>
          json_objects ← brace_scan limit text text 0 0%Z None;
          match json_objects with
          | _ :: _ => Ok (object_parts text 0 json_objects)
          | [] => Ok [Text text]
          end
      end
  end.

(** [sep.join(parts)] *)
Fixpoint join (sep : str) (parts : list str) : str :=
  match parts with
  | [] => []
  | [p] => p
  | p :: rest => p ++ sep ++ join sep rest
  end.

(** *** The function, with its calls of [json.dumps] *)

Section Rendering.

(** [json.dumps(_, indent=2, ensure_ascii=False)] on a decoded document:
    the text it returns, or [None] where it raises [RecursionError], as
    its encoder does on a document that is nested too deep for it. *)
Variable json_dumps : json → option str.

(** A call of [json.dumps]. *)
Definition dumps (parsed : json) : result str :=
  match json_dumps parsed with
  | Some formatted => Ok formatted
  | None => Raise RecursionError
  end.

(** What the result shows for a part. *)
Definition render (c : chunk) : result str :=
  match c with
  | Text t => Ok t
  | Json parsed => dumps parsed
  end.

(** Lines 72-91, with the call of [json.dumps] of line 82, which is
    inside the [try]: a document is formatted as soon as it is parsed,
    before the next block is looked at. *)
Fixpoint markdown_strings (limit : limits) (text : str) (last_end : nat)
    (matches : list rmatch) : result (list str) :=
  match matches with
  | [] =>
      Ok (if (last_end <? length text)%nat
          then [strip (drop last_end text)] else [])
  | m :: rest =>
      let before :=
        if (last_end <? m_start m)%nat
        then [strip (slice text last_end (m_start m))] else [] in
      let json_str := group1 m in
      part ←
        match json_loads limit json_str with
        | Ok parsed => dumps parsed
        | Raise JSONDecodeError => Ok (group0 m)
        | Raise e => Raise e
        | OutOfFuel => OutOfFuel
        end;
      parts ← markdown_strings limit text (m_end m) rest;
      Ok (before ++ part :: parts)
  end.

(** Lines 118-136, with the call of [json.dumps] of line 129. *)
Fixpoint object_strings (text : str) (last_end : nat)
    (json_objects : list (nat * nat * json)) : result (list str) :=
  match json_objects with
  | [] =>
      Ok (if (last_end <? length text)%nat
          then
            let remaining := strip (drop last_end text) in
            if nonempty remaining then [remaining] else []
          else [])
  | (start, end_, parsed_obj) :: rest =>
      let before :=
        if (last_end <? start)%nat
        then
          let before_text := strip (slice text last_end start) in
          if nonempty before_text then [before_text] else []
        else [] in
      formatted ← dumps parsed_obj;
      parts ← object_strings text end_ rest;
      Ok (before ++ formatted :: parts)
  end.

(** Lines 55-141. *)
Definition parse_mixed_json_and_text (limit : limits) (text : str)
  : result str :=
  let text := strip text in
  match json_loads limit text with
  | Ok parsed => dumps parsed
  | OutOfFuel => OutOfFuel
  | Raise ValueError => Raise ValueError
  | Raise RecursionError => Raise RecursionError
  | Raise JSONDecodeError =>
      let markdown_matches := finditer text in
      match markdown_matches with
      | _ :: _ =>
          result_parts ← markdown_strings limit text 0 markdown_matches;
          Ok (join [10; 10] (List.filter nonempty result_parts))
      | [] =>
          json_objects ← brace_scan limit text text 0 0%Z None;
          match json_objects with
          | _ :: _ =>
              result_parts ← object_strings text 0 json_objects;
              Ok (join [10; 10] result_parts)
          | [] => Ok text
          end
      end
  end.

End Rendering.

(** *** Notions the statements below use *)

(** The limits measured on CPython 3.11 for a call from a script, with
    the recursion limit it starts with. *)
Definition cpython311 : limits := Limits 993 3.

(** [n] arrays one inside the other, around [v], and the text of 993
    of them around [1.5]. *)
Fixpoint nested (n : nat) (v : json) : json :=
  match n with
  | O => v
  | S n' => JArr [nested n' v]
  end.

Definition deep_text : str :=
  replicate 993 (chr "[") ++ py "1.5" ++ replicate 993 (chr "]").

(** A literal in which the apostrophe stands for the double quote. *)
Definition quoted (s : string) : str :=
  (λ c, if c =? chr "'" then dquote else c) <$> py s.

Definition all_space (s : str) : Prop := Forall (λ c, is_space c = true) s.

(** A call that returns, or raises [JSONDecodeError]. *)
Definition decodes {A : Type} (r : result A) : Prop :=
  match r with
  | Ok _ | Raise JSONDecodeError => True
  | _ => False
  end.

(** [m] occurs in [x]. *)
Definition occurs_in (m x : str) : Prop := ∃ u w, x = u ++ m ++ w.

(** What an exception of the decoder says of its input of [n]
    characters, [depth] being the nesting it was allowed and [frames]
    what an error takes: an integer literal over the limit needs that
    many characters, and so does nesting up to where the limit is
    felt. *)
Definition explained (frames depth n : nat) (e : exn) : Prop :=
  match e with
  | JSONDecodeError => True
  | ValueError => (int_max_str_digits < n)%nat
  | RecursionError => (depth < n + frames)%nat
  end.

(** [json.loads] raises nothing but [JSONDecodeError] on the pieces of
    [text]. *)
Definition tame (limit : limits) (text : str) : Prop :=
  ∀ s, occurs_in s text → decodes (json_loads limit s).

(** [src] is a fenced block around [inner]: the fence, an optional
    [json], white space, [inner], white space, the fence. *)
Definition fenced (src inner : str) : Prop :=
  ∃ tag ws1 ws2,
    src = fence ++ tag ++ ws1 ++ inner ++ ws2 ++ fence ∧
    (tag = [] ∨ tag = py "json") ∧ all_space ws1 ∧ all_space ws2.

(** The spans that the scan for standalone objects captures, whether
    they parse or not: [brace_scan] without the calls of [json.loads]. *)
Fixpoint brace_spans (rest : str) (i : nat) (brace_count : Z)
    (start_idx : option nat) : list (nat * nat) :=
  match rest with
  | [] => []
  | char :: rest' =>
      if char =? chr "{" then
        brace_spans rest' (S i) (brace_count + 1)
          (if (brace_count =? 0)%Z then Some i else start_idx)
      else if char =? chr "}" then
        let brace_count := (brace_count - 1)%Z in
        match start_idx with
        | Some start =>
            if (brace_count =? 0)%Z
            then (start, (i + 1)%nat) :: brace_spans rest' (S i) brace_count None
            else brace_spans rest' (S i) brace_count start_idx
        | None => brace_spans rest' (S i) brace_count start_idx
        end
      else brace_spans rest' (S i) brace_count start_idx
  end.

(** The strings that the function hands to [json.loads]: the stripped
    text and, when that is no document, the groups of the markdown
    matches or, without a match, the spans of the brace scan. *)
Definition candidates (text : str) : list str :=
  match finditer text with
  | [] => (λ span, slice text span.1 span.2) <$> brace_spans text 0 0%Z None
  | markdown_matches => group1 <$> markdown_matches
  end.

Definition calls (limit : limits) (text : str) : list str :=
  text ::
  match json_loads limit text with
  | Raise JSONDecodeError => candidates text
  | _ => []
  end.

(** A call of [json.loads] that the function survives: it raises
    [JSONDecodeError], or it returns a document on which [json.dumps]
    returns. *)
Definition call_returns (json_dumps : json → option str) (limit : limits)
    (s : str) : Prop :=
  match json_loads limit s with
  | Ok parsed => is_Some (json_dumps parsed)
  | Raise JSONDecodeError => True
  | _ => False
  end.

(** A call that raises [e], in [json.loads] or in [json.dumps]. *)
Definition call_raises (json_dumps : json → option str) (limit : limits)
    (s : str) (e : exn) : Prop :=
  json_loads limit s = Raise e ∨
  e = RecursionError ∧
  ∃ parsed, json_loads limit s = Ok parsed ∧ json_dumps parsed = None.

(** A captured span with its document, when it parses. *)
Definition parsed_span (limit : limits) (text : str) (span : nat * nat)
  : option (nat * nat * json) :=
  match json_loads limit (slice text span.1 span.2) with
  | Ok parsed_obj => Some (span.1, span.2, parsed_obj)
  | _ => None
  end.

(** The documents among the parts. *)
Definition json_values (parts : list chunk) : list json :=
  omap (λ c, match c with Json parsed => Some parsed | Text _ => None end) parts.

(** A piece of the text, as the result accounts for it: plain text,
    which the result shows without the white space around it and not at
    all when nothing else is in it; a span [src] whose JSON text [inner]
    was parsed; a span shown as it is. *)
Inductive piece : Type :=
  | Plain (g : str)
  | Parsed (src inner : str) (parsed : json)
  | Raw (src : str).

Definition piece_source (p : piece) : str :=
  match p with
  | Plain g => g
  | Parsed src _ _ => src
  | Raw src => src
  end.

Definition piece_parts (p : piece) : list chunk :=
  match p with
  | Plain g => text_part (strip g)
  | Parsed _ _ parsed => [Json parsed]
  | Raw src => [Text src]
  end.

(** The document of a parsed piece is what [json.loads] makes of its
    JSON text, and that text is the whole span or what its fence
    encloses. *)
Definition piece_ok (limit : limits) (p : piece) : Prop :=
  match p with
  | Parsed src inner parsed =>
      json_loads limit inner = Ok parsed ∧
      (src = inner ∨ fenced src inner)
  | _ => True
  end.

End Extractor.

(** ** The rest of format_output.py *)

Module Formatter.

Import Extractor.
Local Open Scope N_scope.

(** Line 147, [text.replace('{}', '\n')]: the occurrences of the two
    characters from left to right, none overlapping another. *)
Fixpoint replace_braces (s : str) : str :=
  match s with
  | a :: t =>
      match t with
      | b :: r =>
          if (a =? chr "{") && (b =? chr "}") then 10 :: replace_braces r
          else a :: replace_braces t
      | [] => [a]
      end
  | [] => []
  end.

(** Line 153, [re.sub(r'\n{3,}', '\n\n', s)]: the pattern is greedy, so a
    match is a whole run of three line breaks or more, and what replaces
    it is two of them; a shorter run is not matched. Every run thus keeps
    its first two line breaks and loses the others. [run] counts the line
    breaks of the current run that were read. *)
Fixpoint collapse_from (run : nat) (s : str) : str :=
  match s with
  | c :: r =>
      if c =? 10 then
        if (run <? 2)%nat then 10 :: collapse_from (S run) r
        else collapse_from (S run) r
      else c :: collapse_from 0 r
  | [] => []
  end.

Definition collapse_newlines (s : str) : str := collapse_from 0 s.

(** *** [extract_text_from_json] *)

(** The exceptions that indexing, [len], [in], [.get], iteration and
    [str.join] raise on a value of the wrong type, and the
    [RecursionError] of [json.dumps]. *)
Inductive error : Type :=
  | AttributeError
  | TypeError
  | KeyError
  | IndexError
  | EncoderRecursionError.

Inductive outcome (A : Type) : Type :=
  | Returns (a : A)
  | Raises (e : error).
Arguments Returns {A} a.
Arguments Raises {A} e.

#[global] Instance outcome_ret : MRet outcome := @Returns.
#[global] Instance outcome_bind : MBind outcome := λ A B f m,
  match m with
  | Returns a => f a
  | Raises e => Raises e
  end.

(** [d.get(key)] on the member list of an object. *)
Fixpoint member (key : str) (members : list (str * json)) : option json :=
  match members with
  | [] => None
  | (k, v) :: rest => if bool_decide (k = key) then Some v else member key rest
  end.

(** Whether [float(literal)] is zero, for a literal of the decoder: its
    digits are all zero, or its value is at most half the least positive
    float, two to the power -1075, and is rounded to zero. *)
Definition float_is_zero (literal : str) : bool :=
  let s :=
    match literal with
    | c :: r => if c =? chr "-" then r else literal
    | [] => []
    end in
  let '(integer, r1) := span_digits s in
  match integer with
  | [] => false
  | _ :: _ =>
      let '(frac, r2) :=
        match r1 with
        | dot :: r => if dot =? chr "." then span_digits r else ([], r1)
        | [] => ([], r1)
        end in
      let exponent :=
        match r2 with
        | _ :: sg :: r =>
            if sg =? chr "-" then (- int_of_digits r)%Z
            else if sg =? chr "+" then int_of_digits r
            else int_of_digits (sg :: r)
        | _ => 0%Z
        end in
      let mantissa := int_of_digits (integer ++ frac) in
      let e10 := (exponent - Z.of_nat (length frac))%Z in
      (mantissa =? 0)%Z
      || ((e10 <? 0)%Z && (mantissa * 2 ^ 1075 <=? 10 ^ (- e10))%Z)
  end.

(** Truth value of a decoded document, as [if x] and [x and y] test it. *)
Definition json_truthy (v : json) : bool :=
  match v with
  | JNull => false
  | JBool b => b
  | JInt z => negb (z =? 0)%Z
  | JFloat literal => negb (float_is_zero literal)
  | JStr s => nonempty s
  | JArr items => match items with [] => false | _ :: _ => true end
  | JObj members => match members with [] => false | _ :: _ => true end
  end.

(** [len(x)] *)
Definition len (v : json) : outcome nat :=
  match v with
  | JStr s => Returns (length s)
  | JArr items => Returns (length items)
  | JObj members => Returns (length members)
  | _ => Raises TypeError
  end.

(** [x[0]]; the keys of a decoded object are strings, never [0]. *)
Definition item0 (v : json) : outcome json :=
  match v with
  | JArr (x :: _) => Returns x
  | JStr (c :: _) => Returns (JStr [c])
  | JArr [] | JStr [] => Raises IndexError
  | JObj _ => Raises KeyError
  | _ => Raises TypeError
  end.

(** [x.get(key)]: only a [dict] has the method; a missing key gives
    [None], which [JNull] stands for. *)
Definition dict_get (v : json) (key : str) : outcome json :=
  match v with
  | JObj members => Returns (default JNull (member key members))
  | _ => Raises AttributeError
  end.

(** What [for part in x] goes through: the items of a list, the
    characters of a string, the keys of a [dict]. *)
Definition iterate (v : json) : outcome (list json) :=
  match v with
  | JArr items => Returns items
  | JStr s => Returns ((λ c, JStr [c]) <$> s)
  | JObj members => Returns (JStr <$> members.*1)
  | _ => Raises TypeError
  end.

(** [sub in s] on strings. *)
Fixpoint contains (s sub : str) : bool :=
  startswith s sub
  || match s with
     | _ :: r => contains r sub
     | [] => false
     end.

(** ["text" in part]: a key of a [dict], a substring of a string, an
    item of a list. *)
Definition has_text (part : json) : outcome bool :=
  match part with
  | JObj members => Returns (bool_decide (is_Some (member (py "text") members)))
  | JStr s => Returns (contains s (py "text"))
  | JArr items =>
      Returns (existsb (λ x, match x with
                              | JStr s => bool_decide (s = py "text")
                              | _ => false
                              end) items)
  | _ => Raises TypeError
  end.

(** [part["text"]] *)
Definition text_of (part : json) : outcome json :=
  match part with
  | JObj members =>
      match member (py "text") members with
      | Some v => Returns v
      | None => Raises KeyError
      end
  | _ => Raises TypeError
  end.

(** Lines 41-44: the loop that fills [text_parts]. *)
Fixpoint collect_text (parts : list json) : outcome (list json) :=
  match parts with
  | [] => Returns []
  | part :: rest =>
      found ← has_text part;
      if found : bool then
        t ← text_of part;
        text_parts ← collect_text rest;
        Returns (t :: text_parts)
      else collect_text rest
  end.

(** The items that [str.join] accepts: strings only. *)
Fixpoint strings (items : list json) : outcome (list str) :=
  match items with
  | [] => Returns []
  | JStr s :: rest => ss ← strings rest; Returns (s :: ss)
  | _ :: _ => Raises TypeError
  end.

Section Formatting.

(** [json.dumps(_, indent=2, ensure_ascii=False)], [None] where it
    raises [RecursionError]. *)
Variable json_dumps : json → option str.

(** Lines 47-52: a string as it is, anything else formatted. *)
Definition fallback (data : json) : outcome json :=
  match data with
  | JStr s => Returns (JStr s)
  | _ =>
      match json_dumps data with
      | Some formatted => Returns (JStr formatted)
      | None => Raises EncoderRecursionError
      end
  end.

(** Lines 29-52. The result is a decoded value: the [text] member is
    returned whatever it is. *)
Definition extract_text_from_json (data : json) : outcome json :=
  let fallback := fallback data in
  match data with
  | JObj members =>
      match member (py "text") members with
      | Some t => Returns t
      | None =>
          match member (py "candidates") members with
          | Some candidates =>
              if json_truthy candidates then
                n ← len candidates;
                if (0 <? n)%nat then
                  candidate ← item0 candidates;
                  content ← dict_get candidate (py "content");
                  if json_truthy content then
                    parts ← dict_get content (py "parts");
                    if json_truthy parts then
                      items ← iterate parts;
                      text_parts ← collect_text items;
                      texts ← strings text_parts;
                      Returns (JStr (join [10] texts))
                    else fallback
                  else fallback
                else fallback
              else fallback
          | None => fallback
          end
      end
  | _ => fallback
  end.

(** Lines 144-158. *)
Definition format_text_with_line_breaks (limit : limits) (text : str)
  : result str :=
  let formatted := replace_braces text in
  formatted ← parse_mixed_json_and_text json_dumps limit formatted;
  let formatted := collapse_newlines formatted in
  Ok (strip formatted).

End Formatting.

(** *** Notions the statements below use *)

(** The text of a part of a candidate: the string under [text] of an
    object that has one. *)
Definition part_text (part : json) : option str :=
  match part with
  | JObj members =>
      match member (py "text") members with
      | Some (JStr s) => Some s
      | _ => None
      end
  | _ => None
  end.

(** A part as the service sends it: an object with a string under
    [text], or with no [text] at all. *)
Definition text_or_other (part : json) : Prop :=
  ∃ members, part = JObj members ∧
    (member (py "text") members = None ∨
     ∃ s, member (py "text") members = Some (JStr s)).

(** A response of the service, for the examples. *)
Definition gemini_parts : list json :=
  [ JObj [(py "text", JStr (py "a"))];
    JObj [(py "other", JInt 1)];
    JObj [(py "text", JStr (py "b"))] ].

Definition gemini_response (parts : json) : list (str * json) :=
  [(py "candidates",
    JArr [JObj [(py "content", JObj [(py "parts", parts)])]])].

End Formatter.

(** ** The output formats of transcribeWithSpeakers.py *)

Module Output.

Import Aligner Extractor.

(** [table.get(key, default)] for a dictionary literal. *)
Fixpoint table_get (key : string) (table : list (string * string))
    (default : string) : string :=
  match table with
  | [] => default
  | (k, v) :: rest => if String.eqb k key then v else table_get key rest default
  end.

(** Lines 58-67 *)
Definition mime_types : list (string * string) :=
  [ (".mp3", "audio/mpeg"); (".wav", "audio/wav"); (".ogg", "audio/ogg");
    (".m4a", "audio/mp4"); (".flac", "audio/flac"); (".webm", "audio/webm");
    (".aac", "audio/aac"); (".mp4", "audio/mp4") ]%string.

(** Lines 285-296 *)
Definition mime_to_ext : list (string * string) :=
  [ ("audio/webm", "webm"); ("audio/mp3", "mp3"); ("audio/mpeg", "mp3");
    ("audio/wav", "wav"); ("audio/wave", "wav"); ("audio/ogg", "ogg");
    ("audio/m4a", "m4a"); ("audio/mp4", "m4a"); ("audio/flac", "flac");
    ("audio/aac", "aac") ]%string.

Definition get_file_extension (mime_type : string) : string :=
  table_get mime_type mime_to_ext "mp3".

Section MimeType.

(** [mimetypes.guess_type(file_path)[0]] and
    [Path(file_path).suffix.lower()], which the standard library
    computes. *)
Variable guess_type : string → option string.
Variable suffix_lower : string → string.

(** Lines 51-68 *)
Definition get_mime_type (file_path : string) : string :=
  let by_extension := table_get (suffix_lower file_path) mime_types "audio/mpeg" in
  match guess_type file_path with
  | Some mime_type =>
      if negb (String.eqb mime_type "") && String.prefix "audio/" mime_type
      then mime_type else by_extension
  | None => by_extension
  end.

End MimeType.

(** [a == b] on two numbers: by what they are worth; a NaN equals
    nothing. *)
Definition num_eq (a b : number) : bool :=
  match exact a, exact b with
  | Finite p, Finite q => Qeq_bool p q
  | Infinite s, Infinite s' => Bool.eqb s s'
  | _, _ => false
  end.

(** [i] in decimal, as an f-string writes it. *)
Definition decimal (i : nat) : str := py (NilZero.string_of_uint (Nat.to_uint i)).

(** [str(z)], as an f-string writes an [int]; [None] is the
    [ValueError] of an integer of more digits than [int] converts. *)
Definition int_str (z : Z) : option str :=
  if (10 ^ Z.of_nat int_max_str_digits <=? Z.abs z)%Z then None
  else Some (py (NilZero.string_of_int (Z.to_int z))).

(** [s.replace(".", ",")] *)
Definition dots_to_commas (s : str) : str :=
  (λ c, if (c =? chr ".")%N then chr "," else c) <$> s.

(** [seg["text"].strip()]: the characters of a string value are code
    points below 256; [None] is a raised [KeyError] or, for a value that
    is not a string, [AttributeError]. *)
Definition stripped_text (seg : dict) : option str :=
  match seg !! "text" with
  | Some (VStr s) => Some (strip (py s))
  | _ => None
  end.

Section Formats.

(** How an f-string writes a [float] and a list ([None] where the
    items of the list make it raise), and whether two lists are equal
    (Python compares their items by identity, then by [==]); these are
    not modelled. *)
Variable float_str : float → str.
Variable list_str : list value → option str.
Variable list_eq : list value → list value → bool.

(** [format_timestamp] (lines 237-244) goes through [timedelta] and
    binary floating point; [None] is an exception of it. *)
Variable format_timestamp : value → option str.

(** [f"{v}"]; [None] is an exception of the conversion. *)
Definition py_str (v : value) : option str :=
  match v with
  | VNone => Some (py "None")
  | VBool b => Some (if b then py "True" else py "False")
  | VInt z => int_str z
  | VFloat f => Some (float_str f)
  | VStr s => Some (py s)
  | VList l => list_str l
  end.

(** [a == b] on the values of a segment; [True] and [False] are the
    numbers one and zero. *)
Definition py_eq (a b : value) : bool :=
  match a, b with
  | VNone, VNone => true
  | VStr x, VStr y => String.eqb x y
  | VList x, VList y => list_eq x y
  | _, _ =>
      match as_num a, as_num b with
      | Some p, Some q => num_eq p q
      | _, _ => false
      end
  end.

(** Lines 251-260: the loop of [format_as_text], from the state
    [current_speaker] on. *)
Fixpoint text_lines (current_speaker : value) (aligned_segments : list dict)
  : option (list str) :=
  match aligned_segments with
  | [] => Some []
  | seg :: rest =>
      speaker ← seg !! "speaker";
      text ← stripped_text seg;
      if negb (py_eq speaker current_speaker) then
        label ← py_str speaker;
        lines ← text_lines speaker rest;
        Some ((10%N :: chr "[" :: label ++ py "]:") :: text :: lines)
      else
        lines ← text_lines current_speaker rest;
        Some (text :: lines)
  end.

(** Lines 247-262 *)
Definition format_as_text (aligned_segments : list dict) : option str :=
  lines ← text_lines VNone aligned_segments;
  Some (strip (join [10%N] lines)).

(** Lines 268-278: the loop of [format_as_srt], [i] being the number of
    the next segment. *)
Fixpoint srt_lines (i : nat) (aligned_segments : list dict)
  : option (list str) :=
  match aligned_segments with
  | [] => Some []
  | seg :: rest =>
      start ← seg !! "start";
      start_time ← dots_to_commas <$> format_timestamp start;
      end_ ← seg !! "end";
      end_time ← dots_to_commas <$> format_timestamp end_;
      text ← stripped_text seg;
      speaker ← seg !! "speaker";
      label ← py_str speaker;
      lines ← srt_lines (S i) rest;
      Some (decimal i
            :: (start_time ++ py " --> " ++ end_time)
            :: (chr "[" :: label ++ py "] " ++ text)
            :: [] :: lines)
  end.

(** Lines 265-280 *)
Definition format_as_srt (aligned_segments : list dict) : option str :=
  lines ← srt_lines 1 aligned_segments;
  Some (join [10%N] lines).

End Formats.

(** *** Notions the statements below use *)

(** The values of [mime_to_ext] and its default. *)
Definition extensions : list string :=
  ["webm"; "mp3"; "wav"; "ogg"; "m4a"; "flac"; "aac"]%string.

(** [mime_types] followed by [mime_to_ext]. *)
Definition suffix_to_ext : list (string * string) :=
  [ (".mp3", "mp3"); (".wav", "wav"); (".ogg", "ogg"); (".m4a", "m4a");
    (".flac", "flac"); (".webm", "webm"); (".aac", "aac"); (".mp4", "m4a") ]%string.

(** A segment whose [text] is a string. *)
Definition worded (d : dict) : Prop := ∃ s, d !! "text" = Some (VStr s).

(** The timestamp formatter returns on the two times of a segment. *)
Definition stamped (format_timestamp : value → option str) (d : dict) : Prop :=
  ∀ v, d !! "start" = Some v ∨ d !! "end" = Some v →
       is_Some (format_timestamp v).

(** The label of a segment, if it has one, can be written. *)
Definition printed (float_str : float → str)
    (list_str : list value → option str) (d : dict) : Prop :=
  ∀ label, d !! "speaker" = Some label →
           is_Some (py_str float_str list_str label).

(** An aligned segment for the examples. *)
Definition spoken (label : string) (a b : float) (text : string) : dict :=
  <["speaker" := VStr label]> (transcript a b text).

End Output.

Import Aligner Extractor.

(** * Properties of the alignment *)

Section AlignerFacts.

Implicit Types (t s : dict) (ss : list dict) (o bo : number).
Implicit Types (x y z : exact_value).

Lemma Qgtb_lt p q : Qgtb p q = true ↔ q < p.
Proof.
  unfold Qgtb. rewrite negb_true_iff, <- not_true_iff_false, Qle_bool_iff.
  split; [apply Qnot_le_lt | apply Qlt_not_le].
Qed.

Lemma Qgtb_le p q : Qgtb p q = false ↔ p <= q.
Proof.
  unfold Qgtb. rewrite negb_false_iff. apply Qle_bool_iff.
Qed.

(** The comparison of the program is a strict order on what the numbers
    are worth, in which a NaN is not comparable. *)
Ltac order :=
  repeat match goal with x : exact_value |- _ => destruct x as [?p|[]|] end;
  cbn; rewrite ?Qgtb_lt, ?Qgtb_le; intros; try done; try congruence; try lra.

Lemma exact_gt_comparable x y :
  exact_gt x y = true → x ≠ NotANumber ∧ y ≠ NotANumber.
Proof. destruct x as [p|[]|], y as [q|[]|]; cbn; by intros. Qed.

Lemma exact_gt_irrefl x : exact_gt x x = false.
Proof. order. Qed.

Lemma exact_gt_asym x y : exact_gt x y = true → exact_gt y x = false.
Proof. order. Qed.

Lemma exact_gt_trans x y z :
  exact_gt x y = true → exact_gt y z = true → exact_gt x z = true.
Proof. order. Qed.

Lemma exact_le_lt x y z :
  x ≠ NotANumber → exact_gt x y = false → exact_gt z y = true →
  exact_gt z x = true.
Proof. order. Qed.

Lemma exact_lt_le x y z :
  z ≠ NotANumber → exact_gt y x = true → exact_gt y z = false →
  exact_gt z x = true.
Proof. order. Qed.

Lemma exact_le_trans x y z :
  y ≠ NotANumber → exact_gt x y = false → exact_gt y z = false →
  exact_gt x z = false.
Proof. order. Qed.

Lemma gt_comparable a b : gt a b = true → comparable a ∧ comparable b.
Proof. apply exact_gt_comparable. Qed.

(** [max(0, d)] is 0 or a number greater than 0, never a NaN. *)
Lemma py_max_zero d :
  comparable (py_max (Int 0) d) ∧ gt (Int 0) (py_max (Int 0) d) = false.
Proof.
  unfold py_max. destruct (gt d (Int 0)) eqn:E.
  - split; [by apply gt_comparable in E as [? _]|]. by apply exact_gt_asym.
  - split; [done|]. vm_compute. reflexivity.
Qed.

Lemma overlap_num_sound a b c d o :
  overlap_num a b c d = Some o → comparable o ∧ gt (Int 0) o = false.
Proof.
  unfold overlap_num. destruct (py_sub _ _) as [difference|]; [|done].
  intros [= <-]. apply py_max_zero.
Qed.

Lemma overlap_sound v w a c o :
  overlap v w a c = Some o → comparable o ∧ gt (Int 0) o = false.
Proof.
  unfold overlap.
  destruct (as_num v); [|done]. cbn [mbind option_bind].
  destruct (as_num w); [|done]. cbn [mbind option_bind].
  destruct (as_num a); [|done]. cbn [mbind option_bind].
  destruct (as_num c); [|done]. cbn [mbind option_bind].
  apply overlap_num_sound.
Qed.

Lemma py_sub_total a b :
  is_Some (to_float a) → is_Some (to_float b) → is_Some (py_sub a b).
Proof.
  intros [x Hx] [y Hy]. unfold py_sub.
  destruct a, b; try (by eexists); rewrite ?Hx, ?Hy; by eexists.
Qed.

Lemma overlap_total v w a c :
  seconds v → seconds w → seconds a → seconds c →
  is_Some (overlap v w a c).
Proof.
  intros (nv & Ev & Hv) (nw & Ew & Hw) (na & Ea & Ha) (nc & Ec & Hc).
  unfold overlap, overlap_num. rewrite Ev, Ew, Ea, Ec. cbn [mbind option_bind].
  destruct (py_sub_total (py_min nw nc) (py_max nv na)) as [d ->].
  - unfold py_min. by destruct (gt nw nc).
  - unfold py_max. by destruct (gt na nv).
  - by eexists.
Qed.

(** The overlap with a segment, as the inner loop computes it: the
    bounds of the transcription segment are read once, before the loop. *)
Lemma seg_overlap_unfold t s v w :
  t !! "start" = Some v → t !! "end" = Some w →
  seg_overlap t s
  = (a ← s !! "start"; b ← s !! "end"; overlap v w a b).
Proof. intros Hv Hw. unfold seg_overlap. rewrite Hv, Hw. reflexivity. Qed.

(** The invariant of the inner loop: the best overlap never decreases,
    no overlap seen is greater, and the best speaker is the label of the
    first segment that reached it. *)
Lemma best_loop_inv t v w ss :
  t !! "start" = Some v → t !! "end" = Some w →
  ∀ b bo r, comparable bo → best_loop v w ss b bo = Some r →
    comparable r.2 ∧ gt bo r.2 = false ∧
    (∀ j s o, ss !! j = Some s → seg_overlap t s = Some o →
       gt o r.2 = false) ∧
    (r = (b, bo) ∨
     ∃ i s, ss !! i = Some s ∧ seg_overlap t s = Some r.2 ∧
            s !! "speaker" = Some r.1 ∧ gt r.2 bo = true ∧
            ∀ j s' o', (j < i)%nat → ss !! j = Some s' →
                       seg_overlap t s' = Some o' → gt r.2 o' = true).
Proof.
  intros Hv Hw. induction ss as [|s ss IH]; intros b bo r Hbo Hr;
    cbn [best_loop] in Hr.
  - injection Hr as <-. cbn. split; [done|].
    split; [apply exact_gt_irrefl|].
    split; [|by left]. intros j s o Hj. by rewrite lookup_nil in Hj.
  - destruct (s !! "start") as [a|] eqn:Ha; [|done].
    destruct (s !! "end") as [c|] eqn:Hc; [|done]. cbn [mbind option_bind] in Hr.
    destruct (overlap v w a c) as [ov|] eqn:Hov; [|done].
    cbn [mbind option_bind] in Hr.
    assert (Hs : seg_overlap t s = Some ov).
    { rewrite (seg_overlap_unfold _ _ _ _ Hv Hw), Ha, Hc. exact Hov. }
    destruct (overlap_sound _ _ _ _ _ Hov) as [Hcov _].
    destruct (gt ov bo) eqn:Hgt.
    + destruct (s !! "speaker") as [lbl|] eqn:Hl; [|done].
      cbn [mbind option_bind] in Hr.
      destruct (IH _ _ _ Hcov Hr) as (Hcr & Hle & Hall & Hwho).
      split; [done|]. split.
      { destruct Hwho as [->|(_ & _ & _ & _ & _ & Hlt & _)].
        - by apply exact_gt_asym.
        - apply exact_gt_asym. by eapply exact_gt_trans. }
      split.
      * intros [|j] s' o' Hj Ho'; cbn in Hj.
        -- injection Hj as <-. rewrite Hs in Ho'. injection Ho' as <-. exact Hle.
        -- eauto.
      * right. destruct Hwho as [->|(i & s' & Hi & Hos & Hls & Hlt & Hbefore)].
        -- exists 0%nat, s. cbn. repeat split; try done. intros j ?? Hj. lia.
        -- exists (S i), s'. cbn. repeat split; try done.
           { by eapply exact_gt_trans. }
           intros [|j] s'' o'' Hj Hj' Ho''; cbn in Hj'.
           ++ injection Hj' as <-. rewrite Hs in Ho''. by injection Ho'' as <-.
           ++ apply (Hbefore j s''); [lia|done..].
    + destruct (IH _ _ _ Hbo Hr) as (Hcr & Hle & Hall & Hwho).
      split; [done|]. split; [done|]. split.
      * intros [|j] s' o' Hj Ho'; cbn in Hj.
        -- injection Hj as <-. rewrite Hs in Ho'. injection Ho' as <-.
           by apply (exact_le_trans _ (exact bo)).
        -- eauto.
      * destruct Hwho as [->|(i & s' & Hi & Hos & Hls & Hlt & Hbefore)];
          [by left|right].
        exists (S i), s'. cbn. repeat split; try done.
        intros [|j] s'' o'' Hj Hj' Ho''; cbn in Hj'.
        -- injection Hj' as <-. rewrite Hs in Ho''. injection Ho'' as <-.
           by apply (exact_le_lt _ (exact bo)).
        -- apply (Hbefore j s''); [lia|done..].
Qed.

(** On typed segments the inner loop raises nothing. *)
Lemma best_loop_total v w ss :
  seconds v → seconds w → Forall speaker_segment ss →
  ∀ b bo, is_Some (best_loop v w ss b bo).
Proof.
  intros Hv Hw Hss. induction Hss as [|s ss Hs _ IH]; intros b bo; cbn [best_loop].
  - eauto.
  - destruct Hs as [(x & y & Hx & Hy & Hsx & Hsy) [lbl Hl]].
    rewrite Hx, Hy. cbn [mbind option_bind].
    destruct (overlap_total v w x y Hv Hw Hsx Hsy) as [ov ->].
    cbn [mbind option_bind].
    destruct (gt ov bo); [rewrite Hl; cbn [mbind option_bind]|]; apply IH.
Qed.

(** Either no speaker segment overlaps the transcription segment, or
    one of them is the first with the greatest overlap; the loop ends in
    the matching state. *)
Lemma best_loop_outcome t ss :
  timed t → Forall speaker_segment ss →
  ∃ v w r, t !! "start" = Some v ∧ t !! "end" = Some w ∧
    best_loop v w ss VNone (Int 0) = Some r ∧
    ((no_overlap t ss ∧ r.1 = VNone) ∨
     (∃ i s, first_greatest t ss i s r.2 ∧ s !! "speaker" = Some r.1)).
Proof.
  intros Ht Hss. pose proof Ht as (v & w & Hv & Hw & Hsv & Hsw).
  destruct (best_loop_total v w ss Hsv Hsw Hss VNone (Int 0)) as [r Hr].
  exists v, w, r. repeat split; try done.
  assert (comparable (Int 0)) as Hzero by done.
  destruct (best_loop_inv t v w ss Hv Hw VNone (Int 0) r Hzero Hr)
    as (Hcr & Hle & Hall & Hwho).
  destruct Hwho as [->|(i & s & Hi & Hos & Hls & Hlt & Hbefore)].
  - left. split; [|done]. intros j s o Hj Ho. exact (Hall j s o Hj Ho).
  - right. exists i, s. split; [|done]. repeat split; try done.
Qed.

(** The first segment with the greatest overlap is unique. *)
Lemma first_greatest_unique t ss i s o i' s' o' :
  first_greatest t ss i s o → first_greatest t ss i' s' o' →
  i = i' ∧ s = s'.
Proof.
  intros (Hi & Ho & _ & Hmax & Hfirst) (Hi' & Ho' & _ & Hmax' & Hfirst').
  assert (i = i') as <-.
  { destruct (Nat.lt_trichotomy i i') as [Hlt|[Heq|Hlt]]; [|done|].
    - pose proof (Hfirst' _ _ _ Hlt Hi Ho). pose proof (Hmax _ _ _ Hi' Ho').
      congruence.
    - pose proof (Hfirst _ _ _ Hlt Hi' Ho'). pose proof (Hmax' _ _ _ Hi Ho).
      congruence. }
  split; [done|]. congruence.
Qed.

Lemma first_greatest_overlaps t ss i s o :
  first_greatest t ss i s o → ¬ no_overlap t ss.
Proof.
  intros (Hi & Ho & Hpos & _) Hno. pose proof (Hno _ _ _ Hi Ho). congruence.
Qed.

(** The aligned segment when a speaker segment wins. *)
Lemma align_segment_winner t ss i s o lbl :
  timed t → Forall speaker_segment ss →
  first_greatest t ss i s o → s !! "speaker" = Some lbl →
  align_segment ss t = Some (<["speaker" := speaker_or_unknown lbl]> t).
Proof.
  intros Ht Hss Hfg Hl.
  destruct (best_loop_outcome t ss Ht Hss)
    as (v & w & r & Hv & Hw & Hr & [[Hno _]|(i' & s' & Hfg' & Hl')]).
  - by destruct (first_greatest_overlaps _ _ _ _ _ Hfg).
  - destruct (first_greatest_unique _ _ _ _ _ _ _ _ Hfg Hfg') as [<- <-].
    unfold align_segment. rewrite Hv, Hw. cbn [mbind option_bind].
    rewrite Hr. cbn [mbind option_bind]. congruence.
Qed.

(** The aligned segment when no speaker segment overlaps. *)
Lemma align_segment_no_overlap t ss :
  timed t → Forall speaker_segment ss → no_overlap t ss →
  align_segment ss t = Some (<["speaker" := VStr "UNKNOWN"]> t).
Proof.
  intros Ht Hss Hno.
  destruct (best_loop_outcome t ss Ht Hss)
    as (v & w & r & Hv & Hw & Hr & [[_ Hnone]|(i' & s' & Hfg' & _)]).
  - unfold align_segment. rewrite Hv, Hw. cbn [mbind option_bind].
    rewrite Hr. cbn [mbind option_bind]. by rewrite Hnone.
  - by destruct (first_greatest_overlaps _ _ _ _ _ Hfg').
Qed.

(** The outer loop: one aligned segment per transcription segment. *)
Lemma align_lookup ts ss out :
  align_transcription_with_speakers ts ss = Some out →
  length out = length ts ∧
  ∀ k t, ts !! k = Some t →
    ∃ aligned, out !! k = Some aligned ∧ align_segment ss t = Some aligned.
Proof.
  revert out. induction ts as [|t ts IH]; intros out Hout; simpl in Hout.
  - injection Hout as <-. split; [done|]. intros k t Hk.
    by rewrite lookup_nil in Hk.
  - destruct (align_segment ss t) as [aligned|] eqn:Ha; [|done]. simpl in Hout.
    destruct (align_transcription_with_speakers ts ss) as [rest|]; [|done].
    simpl in Hout. injection Hout as <-.
    destruct (IH _ eq_refl) as [Hlen Hrest]. split; [simpl; lia|].
    intros [|k] t' Hk; simpl in Hk.
    + injection Hk as <-. eauto.
    + apply Hrest, Hk.
Qed.

Lemma align_segment_total t ss :
  timed t → Forall speaker_segment ss → is_Some (align_segment ss t).
Proof.
  intros Ht Hss.
  destruct (best_loop_outcome t ss Ht Hss) as (v & w & r & Hv & Hw & Hr & _).
  unfold align_segment. rewrite Hv, Hw. cbn [mbind option_bind].
  rewrite Hr. cbn [mbind option_bind]. eauto.
Qed.

Lemma align_total ts ss :
  Forall timed ts → Forall speaker_segment ss →
  is_Some (align_transcription_with_speakers ts ss).
Proof.
  intros Hts Hss. induction Hts as [|t ts Ht _ [rest IH]]; simpl; [eauto|].
  destruct (align_segment_total t ss Ht Hss) as [aligned ->]. simpl.
  rewrite IH. simpl. eauto.
Qed.

Lemma align_segment_shape t ss aligned :
  align_segment ss t = Some aligned →
  ∃ lbl, aligned = <["speaker" := lbl]> t.
Proof.
  unfold align_segment. intros H.
  destruct (t !! "start"); [|done]. destruct (t !! "end"); [|done].
  simpl in H. destruct (best_loop _ _ _ _ _); [|done]. simpl in H.
  injection H as <-. eauto.
Qed.

(** The label of the aligned segment when a speaker segment wins. *)
Lemma align_winner_label ts ss k t i s o lbl :
  Forall timed ts → Forall speaker_segment ss →
  ts !! k = Some t → first_greatest t ss i s o →
  s !! "speaker" = Some lbl →
  ∃ out aligned,
    align_transcription_with_speakers ts ss = Some out ∧
    out !! k = Some aligned ∧
    label_of aligned = Some (speaker_or_unknown lbl).
Proof.
  intros Hts Hss Hk Hfg Hl.
  destruct (align_total ts ss Hts Hss) as [out Hout].
  destruct (align_lookup _ _ _ Hout) as [_ Hat].
  destruct (Hat _ _ Hk) as (aligned & Hal & Hseg).
  exists out, aligned. split; [done|]. split; [done|].
  rewrite (align_segment_winner t ss i s o lbl) in Hseg;
    [|by eapply Forall_lookup_1|done..].
  injection Hseg as <-. unfold label_of. by rewrite lookup_insert_eq.
Qed.

End AlignerFacts.

(** * The alignment, claim by claim *)

Ltac lookup_cases j :=
  repeat (destruct j as [|j]; simpl in *; simplify_eq);
  try match goal with H : [] !! _ = Some _ |- _ => by rewrite lookup_nil in H end.

Ltac timed_segment :=
  eexists _, _; split; [vm_compute; reflexivity|];
  split; [vm_compute; reflexivity|];
  split; (eexists; split; [reflexivity|vm_compute; by eexists]).

(** C1, amended. For transcription segment number [k] and typed speaker
    segments: when speaker segment [s] is the first one whose overlap
    with it, as the program computes it in binary64 arithmetic, is the
    greatest, that overlap being positive, the aligned segment number [k]
    carries the label of [s] if that label is true as a condition (a
    string that is not empty), and ["UNKNOWN"] in its place otherwise.
    For the segment from 0 to 5 and the speakers A from 0 to 2 and B from
    1 to 6 the label is that of B. For the segment from 0 to 12 and the
    speakers A from 0.18 to 1.18 and B from 0.12 to 1.12 the two computed
    overlaps are both 1.0, and the label is that of A, the first. The
    premise [start <= end] is not needed. *)
Theorem align_first_greatest_overlap :
  (∀ ts ss k t i s o lbl,
     Forall timed ts → Forall speaker_segment ss →
     ts !! k = Some t → first_greatest t ss i s o →
     s !! "speaker" = Some lbl →
     ∃ out aligned,
       align_transcription_with_speakers ts ss = Some out ∧
       out !! k = Some aligned ∧
       label_of aligned = Some (speaker_or_unknown lbl) ∧
       (truthy lbl = true → label_of aligned = Some lbl))
  ∧
  (∃ aligned,
     align_transcription_with_speakers
       [transcript 0 5 "hi"] [speaker "A" 0 2; speaker "B" 1 6]
     = Some [aligned] ∧
     label_of aligned = Some (VStr "B"))
  ∧
  (seg_overlap (transcript 0 12 "hi") (speaker "A" 0.18 1.18) = Some (Float 1) ∧
   seg_overlap (transcript 0 12 "hi") (speaker "B" 0.12 1.12) = Some (Float 1) ∧
   ∃ aligned,
     align_transcription_with_speakers
       [transcript 0 12 "hi"] [speaker "A" 0.18 1.18; speaker "B" 0.12 1.12]
     = Some [aligned] ∧
     label_of aligned = Some (VStr "A")).
Proof.
  split; [|split].
  - intros ts ss k t i s o lbl Hts Hss Hk Hfg Hl.
    destruct (align_winner_label ts ss k t i s o lbl Hts Hss Hk Hfg Hl)
      as (out & aligned & Hout & Hal & Hlabel).
    exists out, aligned. split; [done|]. split; [done|]. split; [done|].
    rewrite Hlabel. unfold speaker_or_unknown. by intros ->.
  - eexists. split; vm_compute; reflexivity.
  - split; [vm_compute; reflexivity|]. split; [vm_compute; reflexivity|].
    eexists. split; vm_compute; reflexivity.
Qed.

Lemma align_first_greatest_overlap_witness :
  ∃ out aligned,
    align_transcription_with_speakers
      [transcript 0 5 "hi"] [speaker "A" 0 2; speaker "B" 1 6] = Some out ∧
    out !! 0%nat = Some aligned ∧
    label_of aligned = Some (speaker_or_unknown (VStr "B")) ∧
    (truthy (VStr "B") = true → label_of aligned = Some (VStr "B")).
Proof.
  apply (proj1 align_first_greatest_overlap
           [transcript 0 5 "hi"] [speaker "A" 0 2; speaker "B" 1 6]
           0%nat (transcript 0 5 "hi") 1%nat (speaker "B" 1 6) (Float 4)
           (VStr "B")).
  - repeat constructor. timed_segment.
  - repeat constructor; try timed_segment; vm_compute; eauto.
  - reflexivity.
  - split; [reflexivity|]. split; [vm_compute; reflexivity|].
    split; [vm_compute; reflexivity|]. split.
    + intros j s' o' Hj Ho'. lookup_cases j; vm_compute in Ho';
        injection Ho' as <-; vm_compute; reflexivity.
    + intros j s' o' Hlt Hj Ho'. lookup_cases j; try lia.
      vm_compute in Ho'. injection Ho' as <-. vm_compute. reflexivity.
  - vm_compute. reflexivity.
Defined.

(** C1 as stated fails: a winning speaker segment whose label is the
    empty string does not give its label to the aligned segment. *)
Lemma align_empty_label_not_assigned :
  first_greatest (transcript 0 5 "hi") [speaker "" 0 5] 0 (speaker "" 0 5)
    (Float 5) ∧
  speaker "" 0 5 !! "speaker" = Some (VStr "") ∧
  ∃ aligned,
    align_transcription_with_speakers [transcript 0 5 "hi"] [speaker "" 0 5]
    = Some [aligned] ∧
    label_of aligned = Some (VStr "UNKNOWN") ∧
    label_of aligned ≠ speaker "" 0 5 !! "speaker".
Proof.
  split; [|split; [vm_compute; reflexivity|]].
  - split; [reflexivity|]. split; [vm_compute; reflexivity|].
    split; [vm_compute; reflexivity|]. split.
    + intros j s' o' Hj Ho'. lookup_cases j. vm_compute in Ho'.
      injection Ho' as <-. vm_compute. reflexivity.
    + intros j s' o' Hlt. lia.
  - eexists. split; [vm_compute; reflexivity|]. split; [reflexivity|].
    vm_compute. discriminate.
Qed.

(** C2. On typed segments the alignment returns a list as long as the
    list of transcription segments, and its segment number [k] is
    transcription segment number [k] with a speaker label. *)
Theorem align_same_length_and_order ts ss :
  Forall timed ts → Forall speaker_segment ss →
  ∃ out,
    align_transcription_with_speakers ts ss = Some out ∧
    length out = length ts ∧
    ∀ k t, ts !! k = Some t → ∃ lbl, out !! k = Some (<["speaker" := lbl]> t).
Proof.
  intros Hts Hss. destruct (align_total ts ss Hts Hss) as [out Hout].
  destruct (align_lookup _ _ _ Hout) as [Hlen Hat].
  exists out. split; [done|]. split; [done|]. intros k t Hk.
  destruct (Hat _ _ Hk) as (aligned & Hal & Hseg).
  destruct (align_segment_shape _ _ _ Hseg) as [lbl ->]. eauto.
Qed.

Lemma align_same_length_and_order_witness :
  ∃ out,
    align_transcription_with_speakers
      [transcript 0 5 "one"; transcript 5 7 "two"] [speaker "A" 0 2] = Some out ∧
    length out = 2%nat ∧
    ∀ k t, [transcript 0 5 "one"; transcript 5 7 "two"] !! k = Some t →
      ∃ lbl, out !! k = Some (<["speaker" := lbl]> t).
Proof.
  apply (align_same_length_and_order
           [transcript 0 5 "one"; transcript 5 7 "two"] [speaker "A" 0 2]).
  - repeat constructor; timed_segment.
  - repeat constructor; try timed_segment. vm_compute. eauto.
Defined.

(** Typed segments either have no overlapping speaker segment or have a
    first speaker segment of greatest overlap, with its label. *)
Lemma overlap_dichotomy (t : dict) (ss : list dict) :
  timed t → Forall speaker_segment ss →
  no_overlap t ss ∨
  ∃ i s o lbl, first_greatest t ss i s o ∧ s !! "speaker" = Some lbl.
Proof.
  intros Ht Hss.
  destruct (best_loop_outcome t ss Ht Hss)
    as (v & w & r & Hv & Hw & Hr & [[Hno _]|(i & s & Hfg & Hl)]); [by left|].
  right. by exists i, s, r.2, r.1.
Qed.

(** C3, amended. The aligned segment is labelled ["UNKNOWN"] exactly
    when no speaker segment has an overlap with the transcription
    segment that the program computes as greater than 0 (so also when
    there is no speaker segment at all), or the winning speaker segment,
    the first of greatest computed overlap, has a label that is false as
    a condition, the empty string for one, or has the very label
    ["UNKNOWN"]. *)
Theorem align_unknown_iff ts ss k t :
  Forall timed ts → Forall speaker_segment ss → ts !! k = Some t →
  ∃ out aligned,
    align_transcription_with_speakers ts ss = Some out ∧
    out !! k = Some aligned ∧
    (label_of aligned = Some (VStr "UNKNOWN") ↔
     no_overlap t ss ∨
     ∃ i s o lbl, first_greatest t ss i s o ∧ s !! "speaker" = Some lbl ∧
                  (truthy lbl = false ∨ lbl = VStr "UNKNOWN")).
Proof.
  intros Hts Hss Hk. destruct (align_total ts ss Hts Hss) as [out Hout].
  destruct (align_lookup _ _ _ Hout) as [_ Hat].
  destruct (Hat _ _ Hk) as (aligned & Hal & Hseg).
  exists out, aligned. split; [done|]. split; [done|].
  assert (Ht : timed t) by by eapply Forall_lookup_1.
  destruct (overlap_dichotomy t ss Ht Hss) as [Hno|(i & s & o & lbl & Hfg & Hl)].
  - rewrite (align_segment_no_overlap t ss Ht Hss Hno) in Hseg.
    injection Hseg as <-. unfold label_of. rewrite lookup_insert_eq.
    split; [by left|done].
  - rewrite (align_segment_winner t ss i s o lbl Ht Hss Hfg Hl) in Hseg.
    injection Hseg as <-. unfold label_of. rewrite lookup_insert_eq.
    unfold speaker_or_unknown. split.
    + intros Heq. right. exists i, s, o, lbl. split; [done|]. split; [done|].
      destruct (truthy lbl); [right; congruence|by left].
    + intros [Hno|(i' & s' & o' & lbl' & Hfg' & Hl' & Hor)].
      * by destruct (first_greatest_overlaps _ _ _ _ _ Hfg).
      * destruct (first_greatest_unique _ _ _ _ _ _ _ _ Hfg Hfg') as [<- <-].
        assert (lbl' = lbl) as -> by congruence.
        destruct Hor as [->| ->]; [done|]. by destruct (truthy _).
Qed.

Lemma align_unknown_iff_witness :
  ∃ out aligned,
    align_transcription_with_speakers
      [transcript 0 5 "hi"] [speaker "A" 6 8] = Some out ∧
    out !! 0%nat = Some aligned ∧
    (label_of aligned = Some (VStr "UNKNOWN") ↔
     no_overlap (transcript 0 5 "hi") [speaker "A" 6 8] ∨
     ∃ i s o lbl,
       first_greatest (transcript 0 5 "hi") [speaker "A" 6 8] i s o ∧
       s !! "speaker" = Some lbl ∧
       (truthy lbl = false ∨ lbl = VStr "UNKNOWN")).
Proof.
  apply (align_unknown_iff
           [transcript 0 5 "hi"] [speaker "A" 6 8] 0%nat (transcript 0 5 "hi")).
  - repeat constructor; timed_segment.
  - repeat constructor; try timed_segment. vm_compute. eauto.
  - reflexivity.
Defined.

(** C3 as stated fails: the speaker segment overlaps the transcription
    segment, and the aligned segment is labelled ["UNKNOWN"] all the
    same, its label being the empty string. *)
Lemma align_unknown_with_overlap :
  (∃ aligned,
     align_transcription_with_speakers [transcript 0 5 "hi"] [speaker "" 1 3]
     = Some [aligned] ∧
     label_of aligned = Some (VStr "UNKNOWN")) ∧
  seg_overlap (transcript 0 5 "hi") (speaker "" 1 3) = Some (Float 2) ∧
  ¬ no_overlap (transcript 0 5 "hi") [speaker "" 1 3].
Proof.
  split; [eexists; split; vm_compute; reflexivity|].
  split; [vm_compute; reflexivity|].
  intros Hno. specialize (Hno 0%nat (speaker "" 1 3) (Float 2) eq_refl).
  assert (gt (Float 2) (Int 0) = true) as Hgt by (vm_compute; reflexivity).
  rewrite Hno in Hgt; [done|]. vm_compute. reflexivity.
Qed.

(** C9. The aligned segment has the fields of its transcription
    segment, each with the value it had, and the field [speaker]: its
    keys are those of the transcription segment and [speaker], and the
    two dictionaries agree on every other key, [start], [end], [text] and
    [id] among them. *)
Theorem align_preserves_fields ts ss :
  Forall timed ts → Forall speaker_segment ss →
  ∃ out,
    align_transcription_with_speakers ts ss = Some out ∧
    ∀ k t aligned, ts !! k = Some t → out !! k = Some aligned →
      (∀ key, key ≠ "speaker" → aligned !! key = t !! key) ∧
      aligned !! "start" = t !! "start" ∧ aligned !! "end" = t !! "end" ∧
      aligned !! "text" = t !! "text" ∧ aligned !! "id" = t !! "id" ∧
      dom aligned = {["speaker"]} ∪ dom t ∧
      delete "speaker" aligned = delete "speaker" t.
Proof.
  intros Hts Hss. destruct (align_total ts ss Hts Hss) as [out Hout].
  destruct (align_lookup _ _ _ Hout) as [_ Hat].
  exists out. split; [done|]. intros k t aligned Hk Hal.
  destruct (Hat _ _ Hk) as (aligned' & Hal' & Hseg).
  assert (aligned' = aligned) as -> by congruence.
  destruct (align_segment_shape _ _ _ Hseg) as [lbl ->].
  split; [intros key Hkey; by rewrite lookup_insert_ne|].
  do 4 (split; [by rewrite lookup_insert_ne|]). split.
  - by rewrite dom_insert_L.
  - by rewrite delete_insert_eq.
Qed.

Lemma align_preserves_fields_witness :
  ∃ out,
    align_transcription_with_speakers
      [transcript 0 5 "one"; transcript 5 7 "two"] [speaker "A" 0 2] = Some out ∧
    ∀ k t aligned,
      [transcript 0 5 "one"; transcript 5 7 "two"] !! k = Some t →
      out !! k = Some aligned →
      (∀ key, key ≠ "speaker" → aligned !! key = t !! key) ∧
      aligned !! "start" = t !! "start" ∧ aligned !! "end" = t !! "end" ∧
      aligned !! "text" = t !! "text" ∧ aligned !! "id" = t !! "id" ∧
      dom aligned = {["speaker"]} ∪ dom t ∧
      delete "speaker" aligned = delete "speaker" t.
Proof.
  apply (align_preserves_fields
           [transcript 0 5 "one"; transcript 5 7 "two"] [speaker "A" 0 2]).
  - repeat constructor; timed_segment.
  - repeat constructor; try timed_segment. vm_compute. eauto.
Defined.

(** C10. When the speaker segment that wins, the first of greatest
    computed overlap, has the empty string for its label, the aligned
    segment is labelled ["UNKNOWN"]. With the segment from 0 to 12, X
    from 0.18 to 1.18 and the empty label from 0.12 to 1.12, the computed
    overlaps are equal, X is the first, and the label is X. *)
Theorem align_empty_label_unknown :
  (∀ ts ss k t i s o,
     Forall timed ts → Forall speaker_segment ss → ts !! k = Some t →
     first_greatest t ss i s o → s !! "speaker" = Some (VStr "") →
     ∃ out aligned,
       align_transcription_with_speakers ts ss = Some out ∧
       out !! k = Some aligned ∧
       label_of aligned = Some (VStr "UNKNOWN"))
  ∧
  (∃ aligned,
     align_transcription_with_speakers
       [transcript 0 12 "hi"] [speaker "X" 0.18 1.18; speaker "" 0.12 1.12]
     = Some [aligned] ∧
     label_of aligned = Some (VStr "X")).
Proof.
  split.
  - intros ts ss k t i s o Hts Hss Hk Hfg Hl.
    destruct (align_winner_label ts ss k t i s o _ Hts Hss Hk Hfg Hl)
      as (out & aligned & Hout & Hal & Hlabel).
    by exists out, aligned.
  - eexists. split; vm_compute; reflexivity.
Qed.

Lemma align_empty_label_unknown_witness :
  ∃ out aligned,
    align_transcription_with_speakers
      [transcript 0 5 "hi"] [speaker "A" 0 1; speaker "" 1 5] = Some out ∧
    out !! 0%nat = Some aligned ∧
    label_of aligned = Some (VStr "UNKNOWN").
Proof.
  apply (proj1 align_empty_label_unknown
           [transcript 0 5 "hi"] [speaker "A" 0 1; speaker "" 1 5]
           0%nat (transcript 0 5 "hi") 1%nat (speaker "" 1 5) (Float 4)).
  - repeat constructor. timed_segment.
  - repeat constructor; try timed_segment; vm_compute; eauto.
  - reflexivity.
  - split; [reflexivity|]. split; [vm_compute; reflexivity|].
    split; [vm_compute; reflexivity|]. split.
    + intros j s' o' Hj Ho'. lookup_cases j; vm_compute in Ho';
        injection Ho' as <-; vm_compute; reflexivity.
    + intros j s' o' Hlt Hj Ho'. lookup_cases j; try lia.
      vm_compute in Ho'. injection Ho' as <-. vm_compute. reflexivity.
  - vm_compute. reflexivity.
Defined.

Local Close Scope Q_scope.

(** * Properties of the extraction *)

Section DecoderFacts.

Implicit Types (s r t : str) (c : N) (v : json).

(** The calls an error takes. *)
Variable frames : nat.

Lemma push_Ok c (res : result (str * str)) t r :
  push c res = Ok (t, r) → ∃ t', res = Ok (t', r).
Proof.
  destruct res as [[t' r']|e|]; simpl; [|done..].
  intros [= <- <-]. eauto.
Qed.

Lemma push_decodes c (res : result (str * str)) :
  decodes res → decodes (push c res).
Proof. by destruct res as [[??]|[]|]. Qed.

(** [scanstring] consumes the closing quote at least, and its recursion
    is on the input. *)
Lemma scanstring_spec n :
  ∀ s, length s ≤ n →
    decodes (scanstring s) ∧
    ∀ t r, scanstring s = Ok (t, r) → length r < length s.
Proof.
  induction n as [|n IH]; intros s Hn.
  - destruct s; [|simpl in Hn; lia]. simpl. split; [done|]. intros; discriminate.
  - assert (Hrec : ∀ c s', length s' < length s →
      decodes (push c (scanstring s')) ∧
      ∀ t r, push c (scanstring s') = Ok (t, r) → length r < length s).
    { intros c s' Hlt. destruct (IH s') as [Hf Hs]; [lia|]. split.
      - by apply push_decodes.
      - intros t r [t' H]%push_Ok. apply Hs in H. lia. }
    assert (Hbad : decodes (@Raise (str * str) JSONDecodeError) ∧
      ∀ t r, @Raise (str * str) JSONDecodeError = Ok (t, r) →
             length r < length s)
      by (split; [done|intros; discriminate]).
    destruct s as [|c s]; [exact Hbad|]. cbn [scanstring].
    destruct (N.eqb c dquote).
    { split; [done|]. intros t r [= <- <-]. simpl. lia. }
    destruct (N.eqb c backslash).
    2:{ destruct (N.leb c 31); [exact Hbad|]. apply Hrec. simpl. lia. }
    destruct s as [|e r1]; [exact Hbad|].
    destruct (N.eqb e (chr "u")).
    2:{ destruct (simple_escape e); [|exact Hbad]. apply Hrec. simpl. lia. }
    destruct r1 as [|h1 [|h2 [|h3 [|h4 r2]]]]; try exact Hbad.
    destruct (hex4 h1 h2 h3 h4) as [u|]; [|exact Hbad].
    destruct r2 as [|b [|e2 [|k1 [|k2 [|k3 [|k4 r3]]]]]];
      try (apply Hrec; simpl; lia).
    destruct (is_high_surrogate u && N.eqb b backslash && N.eqb e2 (chr "u"));
      [|apply Hrec; simpl; lia].
    destruct (hex4 k1 k2 k3 k4) as [u2|]; [|exact Hbad].
    destruct (is_low_surrogate u2); apply Hrec; simpl; lia.
Qed.

Lemma scanstring_shorter s t r :
  scanstring s = Ok (t, r) → length r < length s.
Proof. apply (scanstring_spec (length s) s); lia. Qed.

Lemma scanstring_decodes s : decodes (scanstring s).
Proof. apply (scanstring_spec (length s) s); lia. Qed.

Lemma span_digits_length s ds r :
  span_digits s = (ds, r) → length ds + length r = length s.
Proof.
  revert ds r. induction s as [|c s IH]; intros ds r; simpl.
  - intros [= <- <-]. done.
  - destruct (is_digit c); [|intros [= <- <-]; done].
    destruct (span_digits s) as [ds' r'] eqn:E. intros [= <- <-].
    specialize (IH _ _ eq_refl). simpl. lia.
Qed.

Lemma skip_ws_length s : length (skip_ws s) ≤ length s.
Proof.
  induction s as [|c s IH]; simpl; [done|].
  destruct (is_json_ws c); simpl; lia.
Qed.

(** A number takes at least one character; it raises [ValueError] only
    on more digits than [int] converts. *)
Lemma match_number_spec s :
  match_number s ≠ OutOfFuel ∧
  (∀ e, match_number s = Raise e →
        e = JSONDecodeError ∨ e = ValueError ∧ int_max_str_digits < length s) ∧
  ∀ v r, match_number s = Ok (v, r) → length r < length s.
Proof.
  assert (Hbad : ∀ n, @Raise (json * str) JSONDecodeError ≠ OutOfFuel ∧
    (∀ e, @Raise (json * str) JSONDecodeError = Raise e →
          e = JSONDecodeError ∨ e = ValueError ∧ int_max_str_digits < n) ∧
    ∀ v r, @Raise (json * str) JSONDecodeError = Ok (v, r) → length r < n).
  { intros n. split; [done|]. split; [|intros; discriminate].
    intros e [= <-]. by left. }
  unfold match_number.
  set (sg := match s with
             | c :: r => if N.eqb c (chr "-") then (true, r) else (false, s)
             | [] => (false, s)
             end).
  assert (Hsg : length sg.2 ≤ length s).
  { subst sg. destruct s as [|c r]; [done|]. destruct (N.eqb c _); simpl; lia. }
  destruct sg as [neg s1]. simpl in Hsg.
  destruct s1 as [|d r1]; [apply Hbad|].
  destruct (is_digit d); [|apply Hbad].
  set (ig := if N.eqb d (chr "0") then ([], r1) else span_digits r1).
  assert (Hig : length ig.1 + length ig.2 ≤ length r1).
  { subst ig. destruct (N.eqb d _); [simpl; lia|].
    destruct (span_digits r1) as [ds r2] eqn:E.
    apply span_digits_length in E. simpl. lia. }
  destruct ig as [ds r2]. simpl in Hig.
  set (fr := match r2 with
             | dot :: f :: r =>
                 if N.eqb dot (chr ".") && is_digit f
                 then let '(fs, rest) := span_digits r in (dot :: f :: fs, rest)
                 else ([], r2)
             | _ => ([], r2)
             end).
  assert (Hfr : length fr.2 ≤ length r2).
  { subst fr. destruct r2 as [|dot [|f r]]; [done..|].
    destruct (_ && _); [|done].
    destruct (span_digits r) as [fs rest] eqn:E. apply span_digits_length in E.
    simpl. lia. }
  destruct fr as [frac r3]. simpl in Hfr.
  match goal with |- context [let '(exp, r4) := ?e in _] => set (ex := e) end.
  assert (Hex : length ex.2 ≤ length r3).
  { subst ex. destruct r3 as [|e r]; [done|].
    destruct (_ || _); [|done].
    match goal with |- context [let '(sign, r') := ?e in _] => set (sn := e) end.
    assert (Hsn : length sn.2 ≤ length r).
    { subst sn. destruct r as [|sg r']; [done|]. destruct (_ || _); simpl; lia. }
    destruct sn as [sign r']. simpl in Hsn.
    destruct (span_digits r') as [es rest] eqn:E. apply span_digits_length in E.
    destruct es; simpl; lia. }
  destruct ex as [exp r4]. simpl in Hex. simpl in Hsg.
  assert (Hfloat : ∀ lit,
    @Ok (json * str) (JFloat lit, r4) ≠ OutOfFuel ∧
    (∀ e, @Ok (json * str) (JFloat lit, r4) = Raise e →
          e = JSONDecodeError ∨ e = ValueError ∧ int_max_str_digits < length s) ∧
    ∀ v r, @Ok (json * str) (JFloat lit, r4) = Ok (v, r) → length r < length s).
  { intros lit. split; [done|]. split; [intros; discriminate|].
    intros v r [= <- <-]. simpl in *. lia. }
  destruct frac, exp; try apply Hfloat.
  destruct (Nat.ltb_spec int_max_str_digits (length (d :: ds))) as [Hlong|_].
  - split; [done|]. split; [|intros; discriminate].
    intros e [= <-]. right. split; [done|]. simpl in *. lia.
  - split; [done|]. split; [intros; discriminate|].
    intros v r [= <- <-]. simpl in *. lia.
Qed.

Lemma errmsg_cases {A : Type} depth :
  @errmsg A frames depth = Raise RecursionError ∧ (depth < frames)%nat ∨
  @errmsg A frames depth = Raise JSONDecodeError.
Proof.
  unfold errmsg. destruct (Nat.ltb_spec depth frames); auto.
Qed.

Lemma at_depth_scanstring depth s :
  (∃ t r, at_depth frames depth (scanstring s) = Ok (t, r) ∧
          scanstring s = Ok (t, r)) ∨
  at_depth frames depth (scanstring s) = errmsg frames depth.
Proof.
  pose proof (scanstring_decodes s) as H.
  destruct (scanstring s) as [[t r]|[]|]; try done; [left|right]; eauto.
Qed.

Ltac bad :=
  cbn beta iota; unfold errmsg; repeat (destruct (_ <? _)%nat);
  first [done | intros; discriminate].

(** A value takes at least one character of the input. *)
Lemma scan_shorter fuel :
  (∀ depth s v r, scan_once frames fuel depth s = Ok (v, r) → length r < length s) ∧
  (∀ depth ms s v r,
     parse_members frames fuel depth ms s = Ok (v, r) → length r < length s) ∧
  (∀ depth items s v r,
     parse_elements frames fuel depth items s = Ok (v, r) → length r < length s).
Proof.
  induction fuel as [|fuel (IHv & IHm & IHe)]; [repeat split; bad|].
  split; [|split].
  - intros depth [|c s] v r; cbn [scan_once]; [bad|].
    destruct (N.eqb c dquote).
    { destruct (at_depth_scanstring depth s) as [(t & rest & -> & E)| ->];
        [|bad].
      simpl. intros [= <- <-]. apply scanstring_shorter in E. simpl. lia. }
    destruct (N.eqb c (chr "{")).
    { destruct depth as [|depth]; [bad|].
      pose proof (skip_ws_length s) as Hws.
      destruct (skip_ws s) as [|c' r'] eqn:E; [bad|].
      destruct (N.eqb c' (chr "}")).
      - intros [= <- <-]. simpl in *. lia.
      - intros H%IHm. simpl in *. lia. }
    destruct (N.eqb c (chr "[")).
    { destruct depth as [|depth]; [bad|].
      pose proof (skip_ws_length s) as Hws.
      destruct (skip_ws s) as [|c' r'] eqn:E; [bad|].
      destruct (N.eqb c' (chr "]")).
      - intros [= <- <-]. simpl in *. lia.
      - intros H%IHe. simpl in *. lia. }
    repeat (destruct (startswith (c :: s) _);
            [intros [= <- <-]; rewrite length_drop; simpl; lia|]).
    apply match_number_spec.
  - intros depth ms [|q s] v r; cbn [parse_members]; [bad|].
    destruct (N.eqb q dquote); [|bad].
    destruct (at_depth_scanstring depth s) as [(key & r1 & -> & Ek)| ->];
      [|bad].
    cbn [mbind result_bind]. cbn beta iota.
    apply scanstring_shorter in Ek.
    pose proof (skip_ws_length r1) as Hw1.
    destruct (skip_ws r1) as [|colon r2]; [bad|].
    destruct (N.eqb colon (chr ":")); [|bad].
    pose proof (skip_ws_length r2) as Hw2.
    destruct (scan_once frames fuel depth (skip_ws r2)) as [[val r3]| |] eqn:Ev;
      simpl; [|bad..].
    apply IHv in Ev.
    pose proof (skip_ws_length r3) as Hw3.
    destruct (skip_ws r3) as [|d r4]; [bad|].
    destruct (N.eqb d (chr "}")).
    { intros [= <- <-]. simpl in *. lia. }
    destruct (N.eqb d (chr ",")); [|bad].
    intros H%IHm. pose proof (skip_ws_length r4). simpl in *. lia.
  - intros depth items s v r; cbn [parse_elements].
    destruct (scan_once frames fuel depth s) as [[val r1]| |] eqn:Ev; simpl; [|bad..].
    apply IHv in Ev.
    pose proof (skip_ws_length r1) as Hw1.
    destruct (skip_ws r1) as [|d r2]; [bad|].
    destruct (N.eqb d (chr "]")).
    { intros [= <- <-]. simpl in *. lia. }
    destruct (N.eqb d (chr ",")); [|bad].
    intros H%IHe. pose proof (skip_ws_length r2). simpl in *. lia.
Qed.

(** With more fuel than twice the characters the recursion is never cut
    short. *)
Lemma scan_fuel fuel :
  (∀ depth s, 2 * length s < fuel → scan_once frames fuel depth s ≠ OutOfFuel) ∧
  (∀ depth ms s, 2 * length s + 1 < fuel →
     parse_members frames fuel depth ms s ≠ OutOfFuel) ∧
  (∀ depth items s, 2 * length s + 1 < fuel →
     parse_elements frames fuel depth items s ≠ OutOfFuel).
Proof.
  induction fuel as [|fuel (IHv & IHm & IHe)]; [repeat split; intros; lia|].
  destruct (scan_shorter fuel) as (Sv & Sm & Se).
  split; [|split].
  - intros depth [|c s] Hlen; cbn [scan_once]; [bad|]. simpl in Hlen.
    destruct (N.eqb c dquote).
    { destruct (at_depth_scanstring depth s) as [(t & rest & -> & E)| ->]; bad. }
    destruct (N.eqb c (chr "{")).
    { destruct depth as [|depth]; [bad|].
      pose proof (skip_ws_length s) as Hws.
      destruct (skip_ws s) as [|c' r'] eqn:E; [bad|].
      destruct (N.eqb c' (chr "}")); [bad|]. apply IHm. simpl in *. lia. }
    destruct (N.eqb c (chr "[")).
    { destruct depth as [|depth]; [bad|].
      pose proof (skip_ws_length s) as Hws.
      destruct (skip_ws s) as [|c' r'] eqn:E; [bad|].
      destruct (N.eqb c' (chr "]")); [bad|]. apply IHe. simpl in *. lia. }
    repeat (destruct (startswith (c :: s) _); [bad|]).
    apply match_number_spec.
  - intros depth ms [|q s] Hlen; cbn [parse_members]; [bad|]. simpl in Hlen.
    destruct (N.eqb q dquote); [|bad].
    destruct (at_depth_scanstring depth s) as [(key & r1 & -> & Ek)| ->];
      [|bad].
    cbn [mbind result_bind]. cbn beta iota.
    apply scanstring_shorter in Ek.
    pose proof (skip_ws_length r1) as Hw1.
    destruct (skip_ws r1) as [|colon r2]; [bad|].
    destruct (N.eqb colon (chr ":")); [|bad].
    pose proof (skip_ws_length r2) as Hw2.
    assert (Hv : scan_once frames fuel depth (skip_ws r2) ≠ OutOfFuel)
      by (apply IHv; simpl in *; lia).
    destruct (scan_once frames fuel depth (skip_ws r2)) as [[val r3]| |] eqn:Ev;
      simpl; [|bad..].
    apply Sv in Ev.
    pose proof (skip_ws_length r3) as Hw3.
    destruct (skip_ws r3) as [|d r4]; [bad|].
    destruct (N.eqb d (chr "}")); [bad|].
    destruct (N.eqb d (chr ",")); [|bad].
    apply IHm. pose proof (skip_ws_length r4). simpl in *. lia.
  - intros depth items s Hlen; cbn [parse_elements].
    assert (Hv : scan_once frames fuel depth s ≠ OutOfFuel) by (apply IHv; lia).
    destruct (scan_once frames fuel depth s) as [[val r1]| |] eqn:Ev; simpl; [|bad..].
    apply Sv in Ev.
    pose proof (skip_ws_length r1) as Hw1.
    destruct (skip_ws r1) as [|d r2]; [bad|].
    destruct (N.eqb d (chr "]")); [bad|].
    destruct (N.eqb d (chr ",")); [|bad].
    apply IHe. pose proof (skip_ws_length r2). simpl in *. lia.
Qed.

(** An exception other than [JSONDecodeError] needs a long input: more
    characters than [int] converts digits, or nesting up to where the
    limit is felt. *)
Lemma scan_raises fuel :
  (∀ depth s e, scan_once frames fuel depth s = Raise e →
     explained frames depth (length s) e) ∧
  (∀ depth ms s e, parse_members frames fuel depth ms s = Raise e →
     explained frames depth (length s) e) ∧
  (∀ depth items s e, parse_elements frames fuel depth items s = Raise e →
     explained frames depth (length s) e).
Proof.
  induction fuel as [|fuel (IHv & IHm & IHe)]; [repeat split; bad|].
  destruct (scan_shorter fuel) as (Sv & Sm & Se).
  assert (Hraise : ∀ depth n e,
    @Raise (json * str) JSONDecodeError = Raise e → explained frames depth n e)
    by (by intros depth n e [= <-]).
  assert (Herr : ∀ depth n e,
    @errmsg (json * str) frames depth = Raise e → explained frames depth n e).
  { intros depth n e. destruct (@errmsg_cases (json * str) depth) as [[-> Hd]| ->];
      intros [= <-]; simpl; [lia|done]. }
  split; [|split].
  - intros depth [|c s] e; cbn [scan_once]; [apply Hraise|].
    destruct (N.eqb c dquote).
    { destruct (at_depth_scanstring depth s) as [(t & rest & -> & E)| ->];
        [bad|].
      destruct (@errmsg_cases (str * str) depth) as [[-> Hd]| ->];
        intros [= <-]; simpl; [lia|done]. }
    destruct (N.eqb c (chr "{")).
    { destruct depth as [|depth]; [intros [= <-]; simpl; lia|].
      pose proof (skip_ws_length s) as Hws.
      destruct (skip_ws s) as [|c' r'] eqn:E.
      { intros H%(Herr _ (length s)). destruct e; simpl in *; lia. }
      destruct (N.eqb c' (chr "}")); [bad|]. intros H%IHm.
      destruct e; simpl in *; lia. }
    destruct (N.eqb c (chr "[")).
    { destruct depth as [|depth]; [intros [= <-]; simpl; lia|].
      pose proof (skip_ws_length s) as Hws.
      destruct (skip_ws s) as [|c' r'] eqn:E; [apply Hraise|].
      destruct (N.eqb c' (chr "]")); [bad|]. intros H%IHe.
      destruct e; simpl in *; lia. }
    repeat (destruct (startswith (c :: s) _); [bad|]).
    intros H. destruct (match_number_spec (c :: s)) as (_ & Hn & _).
    destruct (Hn e H) as [->|[-> Hlen]]; [done|exact Hlen].
  - intros depth ms [|q s] e; cbn [parse_members]; [apply Herr|].
    destruct (N.eqb q dquote); [|apply Herr].
    destruct (at_depth_scanstring depth s) as [(key & r1 & -> & Ek)| ->].
    2:{ destruct (@errmsg_cases (str * str) depth) as [[-> Hd]| ->];
          intros [= <-]; simpl; [lia|done]. }
    cbn [mbind result_bind]. cbn beta iota.
    apply scanstring_shorter in Ek.
    pose proof (skip_ws_length r1) as Hw1.
    destruct (skip_ws r1) as [|colon r2]; [apply Herr|].
    destruct (N.eqb colon (chr ":")); [|apply Herr].
    pose proof (skip_ws_length r2) as Hw2.
    destruct (scan_once frames fuel depth (skip_ws r2)) as [[val r3]|e'|] eqn:Ev;
      simpl; [| |bad].
    2:{ intros [= <-]. apply IHv in Ev. destruct e'; simpl in *; lia. }
    apply Sv in Ev.
    pose proof (skip_ws_length r3) as Hw3.
    destruct (skip_ws r3) as [|d r4]; [apply Herr|].
    destruct (N.eqb d (chr "}")); [bad|].
    destruct (N.eqb d (chr ",")); [|apply Herr].
    intros H%IHm. pose proof (skip_ws_length r4).
    destruct e; simpl in *; lia.
  - intros depth items s e; cbn [parse_elements].
    destruct (scan_once frames fuel depth s) as [[val r1]|e'|] eqn:Ev; simpl; [| |bad].
    2:{ intros [= <-]. by apply IHv in Ev. }
    apply Sv in Ev.
    pose proof (skip_ws_length r1) as Hw1.
    destruct (skip_ws r1) as [|d r2]; [apply Herr|].
    destruct (N.eqb d (chr "]")); [bad|].
    destruct (N.eqb d (chr ",")); [|apply Herr].
    intros H%IHe. pose proof (skip_ws_length r2).
    destruct e; simpl in *; lia.
Qed.

End DecoderFacts.

Section LoadsFacts.

Implicit Types (s r t : str) (c : N) (v : json) (limit : limits).

(** [json.loads] returns a document or raises. *)
Lemma json_loads_fuel limit s : json_loads limit s ≠ OutOfFuel.
Proof.
  unfold json_loads. destruct (startswith s [65279%N]); [done|].
  pose proof (skip_ws_length s) as Hws.
  destruct (scan_fuel (error_frames limit) (S (2 * length s))) as (Hv & _).
  specialize (Hv (nesting limit) (skip_ws s) ltac:(lia)).
  destruct (scan_once _ _ _ _) as [[obj rest]| |]; simpl; [|done..].
  by destruct (skip_ws rest).
Qed.

Lemma json_loads_raises limit s e :
  json_loads limit s = Raise e →
  explained (error_frames limit) (nesting limit) (length s) e.
Proof.
  unfold json_loads. destruct (startswith s [65279%N]); [by intros [= <-]|].
  pose proof (skip_ws_length s) as Hws.
  destruct (scan_raises (error_frames limit) (S (2 * length s))) as (Hv & _).
  specialize (Hv (nesting limit) (skip_ws s)).
  destruct (scan_once _ _ _ _) as [[obj rest]|e'|]; simpl; [| |done].
  - destruct (skip_ws rest); [done|]. by intros [= <-].
  - intros [= <-]. specialize (Hv e' eq_refl). destruct e'; simpl in *; lia.
Qed.

(** On a text that is short enough [json.loads] raises nothing but
    [JSONDecodeError]. *)
Lemma short_decodes limit s :
  length s ≤ int_max_str_digits →
  length s + error_frames limit ≤ nesting limit →
  decodes (json_loads limit s).
Proof.
  intros H1 H2. pose proof (json_loads_fuel limit s) as Hf.
  pose proof (json_loads_raises limit s) as Hr.
  destruct (json_loads limit s) as [obj|e|]; [done| |done].
  specialize (Hr e eq_refl). destruct e; simpl in *; [done|lia..].
Qed.

End LoadsFacts.

Section PatternFacts.

Implicit Types (s r t p : str) (c : N) (v : json).

Lemma startswith_app s p : startswith s p = true → ∃ r, s = p ++ r.
Proof.
  revert s. induction p as [|c p IH]; intros s; simpl; [by exists s|].
  destruct s as [|d s]; [done|].
  intros [Hc Hp]%andb_true_iff. apply N.eqb_eq in Hc as ->.
  destruct (IH _ Hp) as [r ->]. by exists r.
Qed.

Lemma lstrip_split s :
  ∃ ws, s = ws ++ lstrip s ∧ all_space ws ∧
        length s - length (lstrip s) = length ws.
Proof.
  induction s as [|c s (ws & Hs & Hws & Hlen)]; simpl.
  - exists []. repeat split. constructor.
  - destruct (is_space c) eqn:Ec.
    + exists (c :: ws). split; [by rewrite Hs at 1|].
      split; [by constructor|]. simpl.
      assert (length (lstrip s) ≤ length s)
        by (rewrite Hs at 2; rewrite length_app; lia).
      lia.
    + exists []. repeat split; [constructor|simpl; lia].
Qed.

Lemma find_close_spec cl s k0 k ws2 :
  find_close cl s k0 = Some (k, ws2) →
  ∃ body ws r, s = body ++ cl :: ws ++ fence ++ r ∧
               k = k0 + length body ∧ all_space ws ∧ ws2 = length ws.
Proof.
  revert k0. induction s as [|c s IH]; intros k0; simpl; [done|].
  destruct (N.eqb c cl && startswith (lstrip s) fence) eqn:E.
  - intros [= <- <-]. apply andb_true_iff in E as [Hc Hf].
    apply N.eqb_eq in Hc as ->. apply startswith_app in Hf as [r Hr].
    destruct (lstrip_split s) as (ws & Hs & Hws & Hlen).
    exists [], ws, r. rewrite Hr in Hs. simpl.
    split; [by rewrite Hs at 1|]. split; [lia|]. by split.
  - intros (body & ws & r & -> & -> & Hws & ->)%IH.
    exists (c :: body), ws, r. simpl. split; [done|]. split; [lia|done].
Qed.

(** What the pattern matches at the start of a text: a fenced block
    around the group. *)
Lemma match_here_spec s g_start g_end len :
  match_here s = Some (g_start, g_end, len) →
  ∃ tag ws1 inner ws2 rest,
    s = fence ++ tag ++ ws1 ++ inner ++ ws2 ++ fence ++ rest ∧
    (tag = [] ∨ tag = py "json") ∧ all_space ws1 ∧ all_space ws2 ∧
    g_start = length (fence ++ tag ++ ws1) ∧
    g_end = g_start + length inner ∧
    len = length (fence ++ tag ++ ws1 ++ inner ++ ws2 ++ fence).
Proof.
  unfold match_here.
  destruct (startswith s fence) eqn:Ef; [|done].
  apply startswith_app in Ef as [s1 ->].
  change (drop 3 (fence ++ s1)) with s1.
  set (tg := if startswith s1 (py "json") then 4 else 0).
  assert (Htag : ∃ tag, s1 = tag ++ drop tg s1 ∧ (tag = [] ∨ tag = py "json") ∧
                        tg = length tag).
  { subst tg. destruct (startswith s1 (py "json")) eqn:Et.
    - apply startswith_app in Et as [s2 ->]. exists (py "json").
      split; [done|]. split; [by right|done].
    - exists []. split; [by rewrite drop_0|]. split; [by left|done]. }
  destruct Htag as (tag & Hs1 & Htag & Htg).
  destruct (lstrip_split (drop tg s1)) as (ws1 & Hs2 & Hws1 & Hlen1).
  cbn zeta. rewrite Hlen1.
  destruct (lstrip (drop tg s1)) as [|open s4] eqn:Es3; [done|].
  set (close := if N.eqb open (chr "{") then Some (chr "}")
                else if N.eqb open (chr "[") then Some (chr "]") else None).
  destruct close as [cl|]; [|done].
  destruct (find_close cl s4 0) as [[k ws2]|] eqn:Ec; [|done].
  intros [= <- <- <-].
  apply find_close_spec in Ec as (body & ws & r & -> & -> & Hws & ->).
  exists tag, ws1, (open :: body ++ [cl]), ws, r.
  split.
  { rewrite Hs1 at 1. rewrite Hs2 at 1. simpl.
    by rewrite <- !app_assoc. }
  repeat split; try done;
    repeat (simpl; rewrite ?length_app); simpl; lia.
Qed.

Lemma match_here_fenced s g_start g_end len :
  match_here s = Some (g_start, g_end, len) →
  fenced (take len s) (slice s g_start g_end) ∧ len ≤ length s ∧ 0 < len.
Proof.
  intros (tag & ws1 & inner & ws2 & rest & -> & Htag & Hws1 & Hws2 &
          -> & -> & ->)%match_here_spec.
  split; [|split].
  - exists tag, ws1, ws2.
    replace (fence ++ tag ++ ws1 ++ inner ++ ws2 ++ fence ++ rest)
      with ((fence ++ tag ++ ws1 ++ inner ++ ws2 ++ fence) ++ rest)
      by (by rewrite <- !app_assoc).
    rewrite take_app_length. split; [|done]. unfold slice.
    replace ((fence ++ tag ++ ws1 ++ inner ++ ws2 ++ fence) ++ rest)
      with ((fence ++ tag ++ ws1) ++ inner ++ ws2 ++ fence ++ rest)
      by (by rewrite <- !app_assoc).
    rewrite drop_app_length.
    replace (length (fence ++ tag ++ ws1) + length inner
             - length (fence ++ tag ++ ws1)) with (length inner) by lia.
    by rewrite take_app_length.
  - rewrite !length_app. lia.
  - rewrite !length_app. simpl. lia.
Qed.

End PatternFacts.

Section PartsFacts.

Implicit Types (s r t p text : str) (c : N) (v : json).

Lemma slice_same text a : slice text a a = [].
Proof. unfold slice. by rewrite Nat.sub_diag. Qed.

Lemma slice_drop text a b : a ≤ b → slice text a b ++ drop b text = drop a text.
Proof.
  intros Hab. unfold slice.
  replace (drop b text) with (drop (b - a) (drop a text))
    by (rewrite drop_drop; f_equal; lia).
  apply take_drop.
Qed.

Lemma drop_cons_tail text pos c r :
  drop pos text = c :: r → drop (S pos) text = r ∧ pos < length text.
Proof.
  intros H. split.
  - replace (S pos) with (pos + 1) by lia. by rewrite <- drop_drop, H.
  - destruct (decide (pos < length text)) as [|Hge]; [done|].
    rewrite drop_ge in H by lia. done.
Qed.

Lemma filter_text_part t : List.filter kept [Text t] = text_part t.
Proof. unfold text_part. simpl. by destruct (nonempty t). Qed.

Lemma fenced_nonempty src inner : fenced src inner → nonempty src = true.
Proof. intros (tag & ws1 & ws2 & -> & _). reflexivity. Qed.

(** The text after the last match, or after the last object. *)
Lemma tail_piece text last_end :
  (if last_end <? length text then text_part (strip (drop last_end text)) else [])
  = piece_parts (Plain (drop last_end text)).
Proof.
  simpl. destruct (Nat.ltb_spec last_end (length text)) as [|Hge]; [done|].
  by rewrite drop_ge.
Qed.

Lemma gap_piece text last_end start :
  last_end ≤ start →
  (if last_end <? start then text_part (strip (slice text last_end start)) else [])
  = piece_parts (Plain (slice text last_end start)).
Proof.
  intros Hle. simpl. destruct (Nat.ltb_spec last_end start) as [|Hge]; [done|].
  replace start with last_end by lia. by rewrite slice_same.
Qed.

Lemma occurs_in_refl text : occurs_in text text.
Proof. exists [], []. by rewrite app_nil_r. Qed.

Lemma occurs_in_slice text a b : occurs_in (slice text a b) text.
Proof.
  exists (take a text), (drop (b - a) (drop a text)). unfold slice.
  by rewrite take_drop, take_drop.
Qed.

Lemma occurs_in_trans x y z : occurs_in x y → occurs_in y z → occurs_in x z.
Proof.
  intros (u & w & ->) (u' & w' & ->). exists (u' ++ u), (w ++ w').
  by rewrite <- !app_assoc.
Qed.

Lemma tame_decodes limit text s :
  tame limit text → occurs_in s text →
  json_loads limit s = Raise JSONDecodeError ∨ ∃ parsed, json_loads limit s = Ok parsed.
Proof.
  intros Ht Hs. specialize (Ht s Hs).
  destruct (json_loads limit s) as [parsed|[]|]; try done; eauto.
Qed.

(** The two loops raise nothing when [json.loads] raises nothing but
    [JSONDecodeError]: a candidate that does not parse is handled where
    it stands. *)
Lemma markdown_parts_total limit text last_end ms :
  Forall (λ m, decodes (json_loads limit (group1 m))) ms →
  ∃ parts, markdown_parts limit text last_end ms = Ok parts.
Proof.
  intros Hms. revert last_end.
  induction Hms as [|m ms Hm _ IH]; intros last_end; simpl; [eauto|].
  destruct (IH (m_end m)) as [parts ->].
  destruct (json_loads limit (group1 m)) as [parsed|[]|]; simpl; try done; eauto.
Qed.

Lemma brace_scan_total limit text rest i brace_count start_idx :
  tame limit text →
  ∃ json_objects,
    brace_scan limit text rest i brace_count start_idx = Ok json_objects.
Proof.
  intros Ht. revert i brace_count start_idx.
  induction rest as [|char rest IH]; intros i bc st; cbn [brace_scan]; [eauto|].
  destruct (N.eqb char (chr "{")); [apply IH|].
  destruct (N.eqb char (chr "}")); [|apply IH].
  destruct st as [start|]; [|apply IH].
  destruct (Z.eqb (bc - 1) 0); [|apply IH].
  destruct (tame_decodes limit text (slice text start (i + 1)) Ht
              (occurs_in_slice _ _ _)) as [->|[parsed ->]]; [apply IH|].
  destruct (IH (S i) (bc - 1)%Z None) as [objs ->]. simpl. eauto.
Qed.

(** The pieces of the text behind the parts of the markdown loop. *)
Lemma markdown_cover limit text s : ∀ pos skip last_end parts,
  drop pos text = s →
  (skip = 0 ∧ last_end ≤ pos) ∨ (last_end = pos + skip ∧ skip ≤ length s) →
  markdown_parts limit text last_end (finditer_from s pos skip) = Ok parts →
  ∃ pieces,
    concat (piece_source <$> pieces) = drop last_end text ∧
    Forall (piece_ok limit) pieces ∧
    List.filter kept parts = concat (piece_parts <$> pieces).
Proof.
  induction s as [|c r IH]; intros pos skip last_end parts Hs Hst Hparts.
  - simpl in Hparts. injection Hparts as <-.
    exists [Plain (drop last_end text)]. simpl.
    split; [by rewrite app_nil_r|]. split; [by repeat constructor|].
    rewrite app_nil_r.
    destruct (last_end <? length text) eqn:E.
    + apply filter_text_part.
    + apply Nat.ltb_ge in E. by rewrite drop_ge.
  - destruct (drop_cons_tail _ _ _ _ Hs) as [Hr Hpos].
    cbn [finditer_from] in Hparts. destruct skip as [|skip].
    + assert (Hle : last_end ≤ pos) by (destruct Hst as [[_ ?]|[-> _]]; lia).
      destruct (match_here (c :: r)) as [[[g_start g_end] len]|] eqn:Em.
      * destruct (match_here_fenced _ _ _ _ Em) as (Hf & Hlen & Hpos').
        simpl in Hlen.
        cbn [markdown_parts m_start m_end group0 group1] in Hparts.
        destruct (markdown_parts limit text (pos + len) _) as [parts'|e|] eqn:Ep;
          [|by destruct (json_loads _ _) as [?|[]|]..].
        destruct (IH (S pos) (len - 1) (pos + len) parts' Hr) as
          (pieces & Hsrc & Hok & Hfil); [right; lia|done|].
        rewrite <- Hs in Hf, Hparts.
        set (src := take len (drop pos text)) in *.
        set (inner := slice (drop pos text) g_start g_end) in *.
        assert (Hcat : slice text last_end pos ++ src ++ drop (pos + len) text
                       = drop last_end text).
        { subst src. rewrite <- (drop_drop text len pos), take_drop.
          by apply slice_drop. }
        destruct (json_loads limit inner) as [parsed|[]|] eqn:Ej;
          simpl in Hparts; try done; injection Hparts as <-.
        -- exists (Plain (slice text last_end pos) :: Parsed src inner parsed
                   :: pieces).
           split; [cbn [fmap list_fmap concat piece_source]; by rewrite Hsrc|].
           split; [constructor; [done|]; constructor; [|done]; simpl; auto|].
           rewrite List.filter_app. cbn [fmap list_fmap concat].
           rewrite <- Hfil, <- gap_piece by done. f_equal.
           destruct (last_end <? pos); [apply filter_text_part|done].
        -- exists (Plain (slice text last_end pos) :: Raw src :: pieces).
           split; [cbn [fmap list_fmap concat piece_source]; by rewrite Hsrc|].
           split; [by repeat constructor|].
           rewrite List.filter_app. cbn [fmap list_fmap concat].
           rewrite <- Hfil, <- gap_piece by done. f_equal.
           ++ destruct (last_end <? pos); [apply filter_text_part|done].
           ++ simpl. by rewrite (fenced_nonempty _ _ Hf).
      * apply (IH (S pos) 0 last_end parts Hr); [left; lia|done].
    + destruct Hst as [[? _]|[-> Hlen]]; [done|]. simpl in Hlen.
      apply (IH (S pos) skip (pos + S skip) parts Hr); [right; lia|done].
Qed.

(** The pieces of the text behind the parts around the standalone
    objects. *)
Lemma object_cover limit text rest :
  ∀ i brace_count start_idx last_end json_objects,
  drop i text = rest →
  last_end ≤ i →
  (∀ a, start_idx = Some a → last_end ≤ a ∧ a ≤ i) →
  brace_scan limit text rest i brace_count start_idx = Ok json_objects →
  ∃ pieces,
    concat (piece_source <$> pieces) = drop last_end text ∧
    Forall (piece_ok limit) pieces ∧
    object_parts text last_end json_objects = concat (piece_parts <$> pieces).
Proof.
  induction rest as [|char rest IH]; intros i bc st last_end objs Hs Hle Hst Hobjs;
    cbn [brace_scan] in Hobjs.
  - injection Hobjs as <-. exists [Plain (drop last_end text)].
    cbn [fmap list_fmap concat object_parts]. rewrite !app_nil_r.
    split; [done|]. split; [by repeat constructor|]. apply tail_piece.
  - destruct (drop_cons_tail _ _ _ _ Hs) as [Hr Hi].
    assert (Hstep : ∀ bc' st',
      (∀ a, st' = Some a → last_end ≤ a ∧ a ≤ S i) →
      brace_scan limit text rest (S i) bc' st' = Ok objs →
      ∃ pieces,
        concat (piece_source <$> pieces) = drop last_end text ∧
        Forall (piece_ok limit) pieces ∧
        object_parts text last_end objs = concat (piece_parts <$> pieces)).
    { intros bc' st' Hst' H. apply (IH (S i) bc' st' last_end objs Hr); [lia|done..]. }
    assert (Hkeep : ∀ a, st = Some a → last_end ≤ a ∧ a ≤ S i).
    { intros a Ha. destruct (Hst a Ha). lia. }
    destruct (N.eqb char (chr "{")).
    { apply Hstep in Hobjs; [done|]. intros a Ha.
      destruct (Z.eqb bc 0); [injection Ha as <-; lia|by apply Hkeep]. }
    destruct (N.eqb char (chr "}")); [|by apply Hstep in Hobjs].
    destruct st as [start|]; [|by apply Hstep in Hobjs].
    destruct (Z.eqb (bc - 1) 0); [|by apply Hstep in Hobjs].
    destruct (Hst start eq_refl) as [Hls Hsi].
    destruct (json_loads limit (slice text start (i + 1))) as [parsed|[]|] eqn:Ej;
      [|by apply Hstep in Hobjs|done..].
    destruct (brace_scan limit text rest (S i) (bc - 1) None) as [objs'|e|] eqn:Eo;
      [|done..].
    simpl in Hobjs. injection Hobjs as <-.
    destruct (IH (S i) (bc - 1)%Z None (i + 1) objs' Hr) as
      (pieces & Hsrc & Hok & Hparts); [lia|done|done|].
    exists (Plain (slice text last_end start)
            :: Parsed (slice text start (i + 1)) (slice text start (i + 1)) parsed
            :: pieces).
    split; [|split].
    + cbn [fmap list_fmap concat piece_source]. rewrite Hsrc.
      rewrite (slice_drop text start (i + 1)) by lia. by apply slice_drop.
    + constructor; [done|]. constructor; [|done]. simpl. auto.
    + cbn [fmap list_fmap concat object_parts]. rewrite Hparts.
      by rewrite gap_piece.
Qed.

End PartsFacts.

Section CandidateFacts.

Implicit Types (s r t p text : str) (c : N) (v : json).

(** *** Markdown blocks that do not parse *)

Lemma markdown_failed_kept limit text last_end ms parts m0 :
  markdown_parts limit text last_end ms = Ok parts →
  m0 ∈ ms → json_loads limit (group1 m0) = Raise JSONDecodeError →
  Text (group0 m0) ∈ parts.
Proof.
  revert last_end parts. induction ms as [|m ms IH]; intros last_end parts Hp Hin Hj.
  - by apply elem_of_nil in Hin.
  - cbn [markdown_parts] in Hp.
    destruct (markdown_parts limit text (m_end m) ms) as [parts'|e|] eqn:Ep;
      [|by destruct (json_loads limit (group1 m)) as [?|[]|]..].
    apply elem_of_cons in Hin as [->|Hin].
    + rewrite Hj in Hp. simpl in Hp. injection Hp as <-.
      apply elem_of_app. right. apply elem_of_cons. by left.
    + specialize (IH _ _ Ep Hin Hj).
      destruct (json_loads limit (group1 m)) as [?|[]|]; simpl in Hp; try done;
        injection Hp as <-; apply elem_of_app; right; apply elem_of_cons; by right.
Qed.

(** Every match is a fenced block of the text. *)
Lemma finditer_from_fenced text s : ∀ pos skip m,
  drop pos text = s → m ∈ finditer_from s pos skip →
  fenced (group0 m) (group1 m) ∧
  group0 m = slice text (m_start m) (m_end m).
Proof.
  induction s as [|c r IH]; intros pos skip m Hs Hin; cbn [finditer_from] in Hin.
  - by apply elem_of_nil in Hin.
  - destruct (drop_cons_tail _ _ _ _ Hs) as [Hr _].
    destruct skip as [|skip]; [|by apply (IH (S pos) skip)].
    destruct (match_here (c :: r)) as [[[g_start g_end] len]|] eqn:Em;
      [|by apply (IH (S pos) 0)].
    apply elem_of_cons in Hin as [->|Hin]; [|by apply (IH (S pos) (len - 1))].
    cbn [group0 group1 m_start m_end].
    split; [by apply (match_here_fenced _ _ _ _ Em)|].
    rewrite <- Hs. unfold slice. f_equal. lia.
Qed.

(** *** Standalone objects *)

(** The objects are the captured spans that parse. *)
Lemma brace_scan_spans limit text rest : ∀ i brace_count start_idx json_objects,
  brace_scan limit text rest i brace_count start_idx = Ok json_objects →
  json_objects
  = omap (parsed_span limit text) (brace_spans rest i brace_count start_idx).
Proof.
  induction rest as [|char rest IH]; intros i bc st objs;
    cbn [brace_scan brace_spans]; [by intros [= <-]|].
  destruct (N.eqb char (chr "{")); [apply IH|].
  destruct (N.eqb char (chr "}")); [|apply IH].
  destruct st as [start|]; [|apply IH].
  destruct (Z.eqb (bc - 1) 0); [|apply IH].
  cbn [omap list_omap]. unfold parsed_span at 1. cbn [fst snd].
  destruct (json_loads limit (slice text start (i + 1))) as [parsed|[]|];
    try done; [|apply IH].
  destruct (brace_scan limit text rest (S i) (bc - 1) None) as [objs'|e|] eqn:Eo;
    [|done..].
  simpl. intros [= <-]. by rewrite (IH _ _ _ _ Eo).
Qed.

Lemma json_values_app parts1 parts2 :
  json_values (parts1 ++ parts2) = json_values parts1 ++ json_values parts2.
Proof. apply omap_app. Qed.

Lemma json_values_text_part t : json_values (text_part t) = [].
Proof. unfold text_part. by destruct (nonempty t). Qed.

(** The documents among the parts are those of the objects, in order. *)
Lemma json_values_object_parts text last_end json_objects :
  json_values (object_parts text last_end json_objects) = json_objects.*2.
Proof.
  revert last_end.
  induction json_objects as [|[[start end_] parsed] objs IH]; intros last_end;
    cbn [object_parts].
  - destruct (last_end <? length text); [apply json_values_text_part|done].
  - rewrite json_values_app. cbn [fmap list_fmap]. simpl. rewrite IH.
    destruct (last_end <? start); [by rewrite json_values_text_part|done].
Qed.

(** An object starts at or after the pending opening brace, or the
    current index when no brace is pending. *)
Lemma brace_scan_lower limit text rest :
  ∀ i brace_count start_idx json_objects,
  (∀ a, start_idx = Some a → a ≤ i) →
  brace_scan limit text rest i brace_count start_idx = Ok json_objects →
  Forall (λ o, default i start_idx ≤ o.1.1) json_objects.
Proof.
  induction rest as [|char rest IH]; intros i bc st objs Hst Hobjs;
    cbn [brace_scan] in Hobjs.
  - injection Hobjs as <-. constructor.
  - assert (Hstep : ∀ bc' st', (∀ a, st' = Some a → a ≤ S i) →
      default i st ≤ default (S i) st' →
      brace_scan limit text rest (S i) bc' st' = Ok objs →
      Forall (λ o, default i st ≤ o.1.1) objs).
    { intros bc' st' Hst' Hle H%IH; [|done]. eapply Forall_impl; [exact H|].
      intros o Ho. simpl in *. lia. }
    assert (Hkeep : ∀ a, st = Some a → a ≤ S i).
    { intros a Ha. specialize (Hst a Ha). lia. }
    destruct (N.eqb char (chr "{")).
    { apply Hstep in Hobjs; [done| |].
      - intros a Ha. destruct (Z.eqb bc 0); [injection Ha as <-; lia|auto].
      - destruct (Z.eqb bc 0), st as [a|]; simpl; try lia.
        specialize (Hst a eq_refl). lia. }
    destruct (N.eqb char (chr "}"));
      [|apply Hstep in Hobjs; [done..|destruct st; simpl; lia]].
    destruct st as [start|]; [|apply Hstep in Hobjs; [done..|simpl; lia]].
    destruct (Z.eqb (bc - 1) 0); [|apply Hstep in Hobjs; [done..|simpl; lia]].
    specialize (Hst start eq_refl).
    assert (Hnext : ∀ objs',
      brace_scan limit text rest (S i) (bc - 1) None = Ok objs' →
      Forall (λ o, start ≤ o.1.1) objs').
    { intros objs' H%IH; [|done]. eapply Forall_impl; [exact H|].
      intros o Ho. simpl in *. lia. }
    destruct (json_loads limit (slice text start (i + 1))) as [parsed|[]|];
      try done.
    + destruct (brace_scan limit text rest (S i) (bc - 1) None)
        as [objs'|e|] eqn:Eo; [|done..].
      simpl in Hobjs. injection Hobjs as <-. constructor; [done|]. by apply Hnext.
    + by apply Hnext.
Qed.

Lemma lstrip_keeps u x c :
  head x = Some c → is_space c = false → ∃ u', lstrip (u ++ x) = u' ++ x.
Proof.
  intros Hx Hc. induction u as [|d u [u' IH]]; simpl.
  - exists []. destruct x as [|c' x]; [done|]. injection Hx as ->.
    simpl. by rewrite Hc.
  - destruct (is_space d); [by exists u'|]. by exists (d :: u).
Qed.

(** Stripping a text keeps what lies between two characters of it that
    are not white space. *)
Lemma strip_keeps u x w c1 c2 :
  head x = Some c1 → is_space c1 = false →
  last x = Some c2 → is_space c2 = false →
  occurs_in x (strip (u ++ x ++ w)).
Proof.
  intros H1 Hc1 H2 Hc2. unfold strip, rstrip.
  destruct (lstrip_keeps u (x ++ w) c1) as [u' ->];
    [by destruct x|done|].
  rewrite !reverse_app.
  destruct (lstrip_keeps (reverse w) (reverse x ++ reverse u') c2) as [w' Hw'];
    [|done|].
  { rewrite <- head_reverse in H2. by destruct (reverse x). }
  rewrite <- app_assoc, Hw'.
  rewrite !reverse_app, !reverse_involutive. exists u', (reverse w').
  by rewrite <- !app_assoc.
Qed.

Lemma slice_parts text a b e :
  a ≤ b → b ≤ e →
  slice text a e = slice text a b ++ slice text b e.
Proof.
  intros Hab Hbe. unfold slice.
  replace (drop b text) with (drop (b - a) (drop a text))
    by (rewrite drop_drop; f_equal; lia).
  replace (e - a) with ((b - a) + (e - b)) by lia.
  by rewrite take_take_drop.
Qed.

Lemma slice_ends text a b c1 c2 :
  a < b → b ≤ length text →
  text !! a = Some c1 → text !! (b - 1) = Some c2 →
  head (slice text a b) = Some c1 ∧ last (slice text a b) = Some c2.
Proof.
  intros Hab Hb H1 H2. unfold slice. split.
  - rewrite head_lookup, lookup_take_lt, lookup_drop by lia.
    by rewrite Nat.add_0_r.
  - rewrite last_lookup, length_take_le by (rewrite length_drop; lia).
    rewrite lookup_take_lt, lookup_drop by lia.
    by replace (a + pred (b - a)) with (b - 1) by lia.
Qed.

(** A span of the text between the end of the last object and the start
    of the next one is in the text part between them. *)
Lemma gap_holds_span text last_end json_objects a b c1 c2 bound :
  last_end ≤ a → a < b → b ≤ bound → bound ≤ length text →
  text !! a = Some c1 → is_space c1 = false →
  text !! (b - 1) = Some c2 → is_space c2 = false →
  Forall (λ o, bound ≤ o.1.1) json_objects →
  ∃ t, Text t ∈ object_parts text last_end json_objects ∧
       occurs_in (slice text a b) t.
Proof.
  intros Hla Hab Hbb Hbl H1 Hc1 H2 Hc2 Hlow.
  destruct (slice_ends text a b c1 c2) as [Hh Hl]; [lia..|done|done|].
  assert (Hpart : ∀ g, occurs_in (slice text a b) (strip g) →
    ∃ t, Text t ∈ text_part (strip g) ∧ occurs_in (slice text a b) t).
  { intros g Hocc. exists (strip g). split; [|done]. unfold text_part.
    destruct Hocc as (u & w & ->). destruct (slice text a b); [done|].
    destruct u; simpl; apply list_elem_of_singleton; done. }
  destruct json_objects as [|[[start end_] parsed] objs]; cbn [object_parts].
  - destruct (Nat.ltb_spec last_end (length text)) as [_|]; [|lia].
    apply Hpart. rewrite <- (slice_drop text last_end a) by lia.
    rewrite <- (slice_drop text a b) by lia.
    by eapply strip_keeps.
  - apply Forall_cons in Hlow as [Hs _]. simpl in Hs.
    destruct (Nat.ltb_spec last_end start) as [_|]; [|lia].
    destruct (Hpart (slice text last_end start)) as (t & Ht & Hocc).
    + rewrite (slice_parts text last_end a start) by lia.
      rewrite (slice_parts text a b start) by lia.
      by eapply strip_keeps.
    + exists t. split; [|done]. apply elem_of_app. by left.
Qed.

Lemma drop_head text i c r : drop i text = c :: r → text !! i = Some c.
Proof.
  intros H. rewrite <- (Nat.add_0_r i), <- lookup_drop, H. done.
Qed.

(** A captured span that does not parse stays in the text between the
    objects. *)
Lemma failed_span_surfaces limit text rest :
  ∀ i brace_count start_idx last_end json_objects a b,
  drop i text = rest → last_end ≤ i →
  (∀ a0, start_idx = Some a0 →
     last_end ≤ a0 ∧ a0 < i ∧ text !! a0 = Some (chr "{")) →
  brace_scan limit text rest i brace_count start_idx = Ok json_objects →
  (a, b) ∈ brace_spans rest i brace_count start_idx →
  json_loads limit (slice text a b) = Raise JSONDecodeError →
  ∃ t, Text t ∈ object_parts text last_end json_objects ∧
       occurs_in (slice text a b) t.
Proof.
  induction rest as [|char rest IH];
    intros i bc st last_end objs a b Hs Hle Hst Hobjs Hin Hfail;
    cbn [brace_scan brace_spans] in Hobjs, Hin.
  - by apply elem_of_nil in Hin.
  - destruct (drop_cons_tail _ _ _ _ Hs) as [Hr Hi].
    pose proof (drop_head _ _ _ _ Hs) as Hchar.
    assert (Hkeep : ∀ a0, st = Some a0 →
      last_end ≤ a0 ∧ a0 < S i ∧ text !! a0 = Some (chr "{")).
    { intros a0 Ha. destruct (Hst a0 Ha) as (? & ? & ?). repeat split; [lia..|done]. }
    assert (Hstep : ∀ bc' st',
      (∀ a0, st' = Some a0 →
         last_end ≤ a0 ∧ a0 < S i ∧ text !! a0 = Some (chr "{")) →
      brace_scan limit text rest (S i) bc' st' = Ok objs →
      (a, b) ∈ brace_spans rest (S i) bc' st' →
      ∃ t, Text t ∈ object_parts text last_end objs ∧
           occurs_in (slice text a b) t).
    { intros bc' st' Hst' Ho Hi'.
      apply (IH (S i) bc' st' last_end objs a b Hr); [lia|done..]. }
    destruct (N.eqb_spec char (chr "{")) as [->|_].
    { refine (Hstep _ _ _ Hobjs Hin).
      intros a0 Ha. destruct (Z.eqb bc 0); [|by apply Hkeep].
      injection Ha as <-. repeat split; [lia..|done]. }
    destruct (N.eqb_spec char (chr "}")) as [->|_];
      [|by apply (Hstep _ _ Hkeep Hobjs Hin)].
    destruct st as [start|]; [|by apply (Hstep _ _ Hkeep Hobjs Hin)].
    destruct (Z.eqb (bc - 1) 0); [|by apply (Hstep _ _ Hkeep Hobjs Hin)].
    destruct (Hst start eq_refl) as (Hls & Hsi & Hopen).
    apply elem_of_cons in Hin as [[= -> ->]|Hin].
    + rewrite Hfail in Hobjs.
      apply (gap_holds_span text last_end objs start (i + 1)
               (chr "{") (chr "}") (S i)); try done; try lia.
      * by rewrite Nat.add_sub.
      * by apply (brace_scan_lower limit text rest (S i) (bc - 1)%Z None objs).
    + destruct (json_loads limit (slice text start (i + 1))) as [parsed|[]|];
        try done.
      * destruct (brace_scan limit text rest (S i) (bc - 1) None)
          as [objs'|e|] eqn:Eo; [|done..].
        simpl in Hobjs. injection Hobjs as <-.
        destruct (IH (S i) (bc - 1)%Z None (i + 1) objs' a b Hr)
          as (t & Ht & Hocc); [lia|done..|].
        exists t. split; [|done]. cbn [object_parts].
        apply elem_of_app. right. apply elem_of_cons. by right.
      * by apply (Hstep (bc - 1)%Z None).
Qed.

End CandidateFacts.

Section ResultFacts.

Implicit Types (s r t p text raw : str) (c : N) (v : json) (limit : limits).

Lemma occurs_in_length x y : occurs_in x y → length x ≤ length y.
Proof. intros (u & w & ->). rewrite !length_app. lia. Qed.

Lemma strip_occurs raw : occurs_in (strip raw) raw.
Proof.
  destruct (lstrip_split raw) as (ws & Hraw & _).
  destruct (lstrip_split (reverse (lstrip raw))) as (ws' & Hrev & _).
  apply (f_equal reverse) in Hrev.
  rewrite reverse_involutive, reverse_app in Hrev.
  exists ws, (reverse ws'). unfold strip, rstrip.
  by rewrite <- Hrev.
Qed.

(** A short text is tame. *)
Lemma short_tame limit text :
  length text ≤ int_max_str_digits →
  length text + error_frames limit ≤ nesting limit → tame limit text.
Proof.
  intros H1 H2 s Hs%occurs_in_length. apply short_decodes; lia.
Qed.

Lemma finditer_tame limit text :
  tame limit text →
  Forall (λ m, decodes (json_loads limit (group1 m))) (finditer text).
Proof.
  intros Ht. apply Forall_forall. intros m Hm.
  destruct (finditer_from_fenced text text 0 0 m eq_refl Hm)
    as [(tag & ws1 & ws2 & Hsrc & _) Hg].
  apply Ht. apply (occurs_in_trans _ (group0 m)).
  - exists (fence ++ tag ++ ws1), (ws2 ++ fence). rewrite Hsrc.
    by rewrite <- !app_assoc.
  - rewrite Hg. apply occurs_in_slice.
Qed.

(** The function returns when [json.loads] raises nothing but
    [JSONDecodeError] on the pieces of the text. *)
Lemma result_parts_total limit raw :
  tame limit (strip raw) → ∃ parts, result_parts limit raw = Ok parts.
Proof.
  intros Ht. unfold result_parts.
  destruct (tame_decodes limit _ _ Ht (occurs_in_refl _)) as [->|[parsed ->]];
    [|eauto].
  destruct (finditer (strip raw)) as [|m ms] eqn:Ef.
  - destruct (brace_scan_total limit (strip raw) (strip raw) 0 0%Z None Ht)
      as [objs ->].
    simpl. destruct objs; eauto.
  - destruct (markdown_parts_total limit (strip raw) 0 (m :: ms))
      as [parts ->]; [rewrite <- Ef; by apply finditer_tame|].
    simpl. eauto.
Qed.

(** The two loops hand on no [JSONDecodeError]. *)
Lemma markdown_parts_handles limit text last_end ms :
  markdown_parts limit text last_end ms ≠ Raise JSONDecodeError ∧
  markdown_parts limit text last_end ms ≠ OutOfFuel.
Proof.
  revert last_end. induction ms as [|m ms IH]; intros last_end; simpl; [done|].
  destruct (IH (m_end m)) as [IH1 IH2].
  pose proof (json_loads_fuel limit (group1 m)).
  destruct (json_loads limit (group1 m)) as [?|[]|]; simpl; try done;
    by destruct (markdown_parts limit text (m_end m) ms) as [?|[]|].
Qed.

Lemma brace_scan_handles limit text rest : ∀ i brace_count start_idx,
  brace_scan limit text rest i brace_count start_idx ≠ Raise JSONDecodeError ∧
  brace_scan limit text rest i brace_count start_idx ≠ OutOfFuel.
Proof.
  induction rest as [|char rest IH]; intros i bc st; cbn [brace_scan]; [done|].
  destruct (N.eqb char (chr "{")); [apply IH|].
  destruct (N.eqb char (chr "}")); [|apply IH].
  destruct st as [start|]; [|apply IH].
  destruct (Z.eqb (bc - 1) 0); [|apply IH].
  pose proof (json_loads_fuel limit (slice text start (i + 1))).
  destruct (json_loads limit _) as [?|e|];
    [|destruct e; [apply IH|by split..]|done].
  destruct (IH (S i) (bc - 1)%Z None) as [IH1 IH2].
  by destruct (brace_scan limit text rest (S i) (bc - 1) None) as [?|[]|].
Qed.

Lemma result_parts_handles limit raw :
  result_parts limit raw ≠ Raise JSONDecodeError ∧
  result_parts limit raw ≠ OutOfFuel.
Proof.
  unfold result_parts. pose proof (json_loads_fuel limit (strip raw)).
  destruct (json_loads limit (strip raw)) as [?|[]|]; try done.
  destruct (finditer (strip raw)) as [|m ms].
  - destruct (brace_scan_handles limit (strip raw) (strip raw) 0 0%Z None).
    destruct (brace_scan limit _ _ _ _ _) as [[|??]|[]|]; simpl; done.
  - destruct (markdown_parts_handles limit (strip raw) 0 (m :: ms)).
    destruct (markdown_parts limit _ _ _) as [?|[]|]; simpl; done.
Qed.

End ResultFacts.

Section RenderingFacts.

Implicit Types (s r t p text raw : str) (c : N) (v : json) (limit : limits)
  (e : exn).

Variable json_dumps : json → option str.

Lemma dumps_cases v :
  (∃ formatted, json_dumps v = Some formatted ∧ dumps json_dumps v = Ok formatted) ∨
  json_dumps v = None ∧ dumps json_dumps v = Raise RecursionError.
Proof. unfold dumps. destruct (json_dumps v); eauto. Qed.

Lemma call_returns_cases limit s :
  call_returns json_dumps limit s →
  json_loads limit s = Raise JSONDecodeError ∨
  ∃ parsed formatted, json_loads limit s = Ok parsed ∧
    json_dumps parsed = Some formatted.
Proof.
  unfold call_returns.
  destruct (json_loads limit s) as [parsed|[]|]; try done; [|by left].
  intros [formatted H]. right. eauto.
Qed.

(** A call that returns raises nothing. *)
Lemma call_raises_not_returns limit s e :
  call_raises json_dumps limit s e → e ≠ JSONDecodeError →
  ¬ call_returns json_dumps limit s.
Proof.
  unfold call_returns. intros [H|(-> & parsed & H & Hd)] He; rewrite H.
  - destruct e; cbn [mbind result_bind]; [by destruct He|tauto..].
  - rewrite Hd. by intros [? ?].
Qed.

(** *** The markdown loop *)

Lemma markdown_strings_handles limit text last_end ms :
  markdown_strings json_dumps limit text last_end ms ≠ Raise JSONDecodeError ∧
  markdown_strings json_dumps limit text last_end ms ≠ OutOfFuel.
Proof.
  revert last_end. induction ms as [|m ms IH]; intros last_end;
    cbn [markdown_strings]; [done|].
  destruct (IH (m_end m)) as [IH1 IH2].
  pose proof (json_loads_fuel limit (group1 m)).
  destruct (json_loads limit (group1 m)) as [parsed|[]|]; cbn [mbind result_bind]; try done.
  - destruct (dumps_cases parsed) as [(f & _ & ->)|[_ ->]]; cbn [mbind result_bind]; [|done].
    by destruct (markdown_strings _ _ _ _ _) as [?|[]|].
  - by destruct (markdown_strings _ _ _ _ _) as [?|[]|].
Qed.

Lemma markdown_strings_returns limit text last_end ms :
  (∃ strs, markdown_strings json_dumps limit text last_end ms = Ok strs) ↔
  Forall (call_returns json_dumps limit) (group1 <$> ms).
Proof.
  revert last_end. induction ms as [|m ms IH]; intros last_end;
    cbn [markdown_strings fmap list_fmap].
  - split; [constructor|eauto].
  - rewrite Forall_cons, <- (IH (m_end m)). unfold call_returns at 1.
    destruct (json_loads limit (group1 m)) as [parsed|[]|]; cbn [mbind result_bind].
    + destruct (dumps_cases parsed) as [(f & Hf & ->)|[Hf ->]]; cbn [mbind result_bind]; rewrite Hf.
      * destruct (markdown_strings _ _ _ _ _) as [strs|?|]; cbn [mbind result_bind].
        -- split; eauto.
        -- split; [by intros [? ?]|by intros [_ [? ?]]].
        -- split; [by intros [? ?]|by intros [_ [? ?]]].
      * split; [by intros [? ?]|by intros [[? ?] _]].
    + destruct (markdown_strings _ _ _ _ _) as [strs|?|]; cbn [mbind result_bind].
      * split; eauto.
      * split; [by intros [? ?]|by intros [_ [? ?]]].
      * split; [by intros [? ?]|by intros [_ [? ?]]].
    + split; [by intros [? ?]|by intros [[] _]].
    + split; [by intros [? ?]|by intros [[] _]].
    + split; [by intros [? ?]|by intros [[] _]].
Qed.

Lemma markdown_strings_raises limit text last_end ms e :
  markdown_strings json_dumps limit text last_end ms = Raise e →
  Exists (λ s, call_raises json_dumps limit s e) (group1 <$> ms).
Proof.
  revert last_end. induction ms as [|m ms IH]; intros last_end;
    cbn [markdown_strings fmap list_fmap]; [done|].
  destruct (json_loads limit (group1 m)) as [parsed|e'|] eqn:Ej; cbn [mbind result_bind].
  - destruct (dumps_cases parsed) as [(f & Hf & ->)|[Hf ->]]; cbn [mbind result_bind].
    + destruct (markdown_strings _ _ _ (m_end m) _) as [strs|?|] eqn:Em;
        cbn [mbind result_bind]; [done| |done].
      intros [= ->]. apply Exists_cons_tl. by eapply IH.
    + intros [= <-]. apply Exists_cons_hd. right. eauto.
  - destruct e'; cbn [mbind result_bind].
    + destruct (markdown_strings _ _ _ (m_end m) _) as [strs|?|] eqn:Em;
        cbn [mbind result_bind]; [done| |done].
      intros [= ->]. apply Exists_cons_tl. by eapply IH.
    + intros [= <-]. apply Exists_cons_hd. by left.
    + intros [= <-]. apply Exists_cons_hd. by left.
  - done.
Qed.

(** The strings of the loop are its parts, each as the result shows
    it. *)
Lemma markdown_strings_parts limit text last_end ms strs :
  markdown_strings json_dumps limit text last_end ms = Ok strs →
  ∃ parts, markdown_parts limit text last_end ms = Ok parts ∧
    Forall2 (λ part str, render json_dumps part = Ok str) parts strs.
Proof.
  revert last_end strs. induction ms as [|m ms IH]; intros last_end strs;
    cbn [markdown_strings markdown_parts].
  - intros [= <-]. eexists. split; [done|].
    destruct (last_end <? length text)%nat; by repeat constructor.
  - destruct (json_loads limit (group1 m)) as [parsed|[]|] eqn:Ej; cbn [mbind result_bind];
      try done.
    + destruct (dumps_cases parsed) as [(f & Hf & Hd)|[Hf Hd]]; rewrite Hd;
        cbn [mbind result_bind]; [|done].
      destruct (markdown_strings _ _ _ (m_end m) _) as [strs'|?|] eqn:Em;
        cbn [mbind result_bind]; [|done..].
      intros [= <-]. destruct (IH _ _ Em) as (parts & -> & Hparts). cbn [mbind result_bind].
      eexists. split; [done|]. apply Forall2_app.
      * destruct (last_end <? m_start m)%nat; by repeat constructor.
      * by constructor.
    + destruct (markdown_strings _ _ _ (m_end m) _) as [strs'|?|] eqn:Em;
        cbn [mbind result_bind]; [|done..].
      intros [= <-]. destruct (IH _ _ Em) as (parts & -> & Hparts). cbn [mbind result_bind].
      eexists. split; [done|]. apply Forall2_app.
      * destruct (last_end <? m_start m)%nat; by repeat constructor.
      * by constructor.
Qed.

(** *** The objects *)

Lemma object_strings_returns text last_end json_objects :
  (∃ strs, object_strings json_dumps text last_end json_objects = Ok strs) ↔
  Forall (λ o, is_Some (json_dumps o.2)) json_objects.
Proof.
  revert last_end.
  induction json_objects as [|[[start end_] parsed] objs IH]; intros last_end;
    cbn [object_strings].
  - split; [constructor|eauto].
  - rewrite Forall_cons, <- (IH end_). cbn [snd].
    destruct (dumps_cases parsed) as [(f & Hf & ->)|[Hf ->]]; cbn [mbind result_bind]; rewrite Hf.
    + destruct (object_strings _ _ _ _) as [strs|?|]; cbn [mbind result_bind].
      * split; eauto.
      * split; [by intros [? ?]|by intros [_ [? ?]]].
      * split; [by intros [? ?]|by intros [_ [? ?]]].
    + split; [by intros [? ?]|by intros [[? ?] _]].
Qed.

Lemma object_strings_raises text last_end json_objects e :
  object_strings json_dumps text last_end json_objects = Raise e →
  e = RecursionError ∧ Exists (λ o, json_dumps o.2 = None) json_objects.
Proof.
  revert last_end.
  induction json_objects as [|[[start end_] parsed] objs IH]; intros last_end;
    cbn [object_strings]; [done|].
  destruct (dumps_cases parsed) as [(f & Hf & ->)|[Hf ->]]; cbn [mbind result_bind].
  - destruct (object_strings _ _ end_ _) as [strs|?|] eqn:Eo; cbn [mbind result_bind]; [done| |done].
    intros [= ->]. destruct (IH _ Eo) as [-> H]. split; [done|].
    by apply Exists_cons_tl.
  - intros [= <-]. split; [done|]. by apply Exists_cons_hd.
Qed.

Lemma object_strings_fuel text last_end json_objects :
  object_strings json_dumps text last_end json_objects ≠ OutOfFuel.
Proof.
  revert last_end.
  induction json_objects as [|[[start end_] parsed] objs IH]; intros last_end;
    cbn [object_strings]; [done|].
  destruct (dumps_cases parsed) as [(f & Hf & ->)|[Hf ->]]; cbn [mbind result_bind]; [|done].
  specialize (IH end_). by destruct (object_strings _ _ end_ _) as [?|?|].
Qed.

Lemma object_strings_parts text last_end json_objects strs :
  object_strings json_dumps text last_end json_objects = Ok strs →
  Forall2 (λ part str, render json_dumps part = Ok str)
    (object_parts text last_end json_objects) strs.
Proof.
  revert last_end strs.
  induction json_objects as [|[[start end_] parsed] objs IH];
    intros last_end strs; cbn [object_strings object_parts].
  - intros [= <-]. unfold text_part.
    destruct (last_end <? length text)%nat; [|constructor].
    destruct (nonempty _); by repeat constructor.
  - destruct (dumps_cases parsed) as [(f & Hf & Hd)|[Hf Hd]]; rewrite Hd;
      cbn [mbind result_bind]; [|done].
    destruct (object_strings _ _ end_ _) as [strs'|?|] eqn:Eo; cbn [mbind result_bind]; [|done..].
    intros [= <-]. apply Forall2_app.
    + unfold text_part. destruct (last_end <? start)%nat; [|constructor].
      destruct (nonempty _); by repeat constructor.
    + constructor; [done|]. by apply IH.
Qed.

(** The scan returns when every captured span parses or fails as no
    document, and the exception it raises is that of a span. *)
Lemma brace_scan_returns limit text rest : ∀ i brace_count start_idx,
  (∃ json_objects,
     brace_scan limit text rest i brace_count start_idx = Ok json_objects) ↔
  Forall (λ span, decodes (json_loads limit (slice text span.1 span.2)))
    (brace_spans rest i brace_count start_idx).
Proof.
  induction rest as [|char rest IH]; intros i bc st;
    cbn [brace_scan brace_spans]; [split; [constructor|eauto]|].
  destruct (N.eqb char (chr "{")); [apply IH|].
  destruct (N.eqb char (chr "}")); [|apply IH].
  destruct st as [start|]; [|apply IH].
  destruct (Z.eqb (bc - 1) 0); [|apply IH].
  rewrite Forall_cons, <- (IH (S i) (bc - 1)%Z None). cbn [fst snd].
  destruct (json_loads limit (slice text start (i + 1))) as [parsed|[]|]; cbn [mbind result_bind].
  - destruct (brace_scan limit text rest (S i) (bc - 1) None) as [objs|?|]; cbn [mbind result_bind].
    + split; [intros _; split; [done|eauto]|eauto].
    + split; [by intros [? ?]|by intros [_ [? ?]]].
    + split; [by intros [? ?]|by intros [_ [? ?]]].
  - split; [intros H; split; [done|exact H]|by intros [_ ?]].
  - split; [by intros [? ?]|by intros [[] _]].
  - split; [by intros [? ?]|by intros [[] _]].
  - split; [by intros [? ?]|by intros [[] _]].
Qed.

Lemma brace_scan_raises limit text rest e : ∀ i brace_count start_idx,
  brace_scan limit text rest i brace_count start_idx = Raise e →
  Exists (λ span, json_loads limit (slice text span.1 span.2) = Raise e)
    (brace_spans rest i brace_count start_idx).
Proof.
  induction rest as [|char rest IH]; intros i bc st;
    cbn [brace_scan brace_spans]; [done|].
  destruct (N.eqb char (chr "{")); [apply IH|].
  destruct (N.eqb char (chr "}")); [|apply IH].
  destruct st as [start|]; [|apply IH].
  destruct (Z.eqb (bc - 1) 0); [|apply IH].
  destruct (json_loads limit (slice text start (i + 1))) as [parsed|e'|] eqn:Ej;
    cbn [mbind result_bind].
  - destruct (brace_scan limit text rest (S i) (bc - 1) None) as [objs|?|] eqn:Eo;
      cbn [mbind result_bind]; [done| |done].
    intros [= ->]. apply Exists_cons_tl. by apply IH.
  - destruct e'.
    + intros H. apply Exists_cons_tl. by apply IH.
    + intros [= <-]. by apply Exists_cons_hd.
    + intros [= <-]. by apply Exists_cons_hd.
  - done.
Qed.

(** An object is a captured span with its document. *)
Lemma parsed_spans_objects limit text (spans : list (nat * nat)) o :
  o ∈ omap (parsed_span limit text) spans →
  ∃ span, span ∈ spans ∧
    json_loads limit (slice text span.1 span.2) = Ok o.2.
Proof.
  intros (span & Hin & Hp)%list_elem_of_omap. exists span. split; [done|].
  unfold parsed_span in Hp.
  destruct (json_loads limit _) as [parsed|?|]; [|done..].
  by injection Hp as <-.
Qed.

(** *** The function *)

Lemma parse_mixed_whole limit raw parsed :
  json_loads limit (strip raw) = Ok parsed →
  parse_mixed_json_and_text json_dumps limit raw = dumps json_dumps parsed.
Proof. intros H. unfold parse_mixed_json_and_text. by rewrite H. Qed.

Lemma parse_mixed_handles limit raw :
  parse_mixed_json_and_text json_dumps limit raw ≠ Raise JSONDecodeError ∧
  parse_mixed_json_and_text json_dumps limit raw ≠ OutOfFuel.
Proof.
  unfold parse_mixed_json_and_text.
  pose proof (json_loads_fuel limit (strip raw)).
  destruct (json_loads limit (strip raw)) as [parsed|[]|]; try done.
  { by destruct (dumps_cases parsed) as [(f & _ & ->)|[_ ->]]. }
  destruct (finditer (strip raw)) as [|m ms].
  - destruct (brace_scan_handles limit (strip raw) (strip raw) 0 0%Z None).
    destruct (brace_scan limit _ _ _ _ _) as [[|o objs]|[]|]; cbn [mbind result_bind]; try done.
    pose proof (object_strings_fuel (strip raw) 0 (o :: objs)) as Hf.
    destruct (object_strings _ _ _ _) as [strs|e|] eqn:Eo; cbn [mbind result_bind]; try done.
    apply object_strings_raises in Eo as [-> _]. done.
  - destruct (markdown_strings_handles limit (strip raw) 0 (m :: ms)).
    by destruct (markdown_strings _ _ _ _ _) as [?|[]|].
Qed.

Lemma candidates_markdown text m ms :
  finditer text = m :: ms → candidates text = group1 <$> (m :: ms).
Proof. unfold candidates. by intros ->. Qed.

Lemma candidates_braces text :
  finditer text = [] →
  candidates text
  = (λ span, slice text span.1 span.2) <$> brace_spans text 0 0%Z None.
Proof. unfold candidates. by intros ->. Qed.

(** The function returns exactly when each of its calls does. *)
Lemma parse_mixed_returns limit raw :
  (∃ out, parse_mixed_json_and_text json_dumps limit raw = Ok out) ↔
  Forall (call_returns json_dumps limit) (calls limit (strip raw)).
Proof.
  unfold parse_mixed_json_and_text, calls. set (text := strip raw).
  rewrite Forall_cons. unfold call_returns at 1.
  destruct (json_loads limit text) as [parsed|[]|] eqn:Ej.
  - destruct (dumps_cases parsed) as [(f & Hf & ->)|[Hf ->]]; rewrite Hf.
    + split; [by intros _; split; [eauto|constructor]|eauto].
    + split; [by intros [? ?]|by intros [[? ?] _]].
  - destruct (finditer text) as [|m ms] eqn:Ef.
    + rewrite (candidates_braces _ Ef), Forall_fmap.
      destruct (brace_scan limit text text 0 0%Z None) as [objs|e|] eqn:Es.
      * pose proof (brace_scan_spans _ _ _ _ _ _ _ Es) as Hobjs.
        assert (Hdec : Forall
          (λ span, decodes (json_loads limit (slice text span.1 span.2)))
          (brace_spans text 0 0%Z None))
          by (apply brace_scan_returns; eauto).
        assert (Hiff : (∃ strs, object_strings json_dumps text 0 objs = Ok strs) ↔
          Forall (call_returns json_dumps limit ∘ (λ span, slice text span.1 span.2))
            (brace_spans text 0 0%Z None)).
        { rewrite object_strings_returns, !Forall_forall. split.
          - intros Hall span Hin. unfold compose, call_returns.
            rewrite Forall_forall in Hdec. specialize (Hdec span Hin).
            destruct (json_loads limit (slice text span.1 span.2))
              as [parsed|[]|] eqn:El; try done.
            apply (Hall (span.1, span.2, parsed)). rewrite Hobjs.
            apply list_elem_of_omap. exists span. split; [done|].
            unfold parsed_span. by rewrite El.
          - intros Hall o Ho. rewrite Hobjs in Ho.
            apply parsed_spans_objects in Ho as (span & Hin & El).
            specialize (Hall span Hin). unfold compose, call_returns in Hall.
            by rewrite El in Hall. }
        cbn [mbind result_bind]. destruct objs as [|o objs'] eqn:Eo.
        -- split; [intros _; split; [done|]|eauto].
           apply Hiff. cbn [mbind result_bind]. eauto.
        -- rewrite <- Hiff.
           destruct (object_strings _ _ _ _) as [strs|?|]; cbn [mbind result_bind].
           ++ split; eauto.
           ++ split; [by intros [? ?]|by intros [_ [? ?]]].
           ++ split; [by intros [? ?]|by intros [_ [? ?]]].
      * cbn [mbind result_bind]. split; [by intros [? ?]|]. intros [_ Hall].
        assert (∃ objs, brace_scan limit text text 0 0%Z None = Ok objs)
          as [objs Hobjs]; [|congruence].
        apply brace_scan_returns. eapply Forall_impl; [exact Hall|].
        intros span. unfold compose, call_returns, decodes.
        by destruct (json_loads limit (slice text span.1 span.2)) as [?|[]|].
      * by destruct (brace_scan_handles limit text text 0 0%Z None).
    + rewrite (candidates_markdown _ _ _ Ef),
        <- (markdown_strings_returns limit text 0 (m :: ms)).
      destruct (markdown_strings _ _ _ _ _) as [strs|?|]; cbn [mbind result_bind].
      * split; eauto.
      * split; [by intros [? ?]|by intros [_ [? ?]]].
      * split; [by intros [? ?]|by intros [_ [? ?]]].
  - split; [by intros [? ?]|by intros [[] _]].
  - split; [by intros [? ?]|by intros [[] _]].
  - split; [by intros [? ?]|by intros [[] _]].
Qed.

(** The exception it raises is that of one of its calls. *)
Lemma parse_mixed_raises limit raw e :
  parse_mixed_json_and_text json_dumps limit raw = Raise e →
  Exists (λ s, call_raises json_dumps limit s e) (calls limit (strip raw)).
Proof.
  unfold parse_mixed_json_and_text, calls. set (text := strip raw).
  destruct (json_loads limit text) as [parsed|e'|] eqn:Ej.
  - destruct (dumps_cases parsed) as [(f & Hf & ->)|[Hf ->]]; [done|].
    intros [= <-]. apply Exists_cons_hd. right. eauto.
  - destruct e'.
    2,3: by intros [= <-]; apply Exists_cons_hd; left.
    intros H. apply Exists_cons_tl.
    destruct (finditer text) as [|m ms] eqn:Ef.
    + rewrite (candidates_braces _ Ef), Exists_fmap.
      destruct (brace_scan limit text text 0 0%Z None) as [objs|e'|] eqn:Es.
      * pose proof (brace_scan_spans _ _ _ _ _ _ _ Es) as Hobjs.
        cbn [mbind result_bind] in H. destruct objs as [|o objs'] eqn:Eo;
          [done|].
        destruct (object_strings _ _ _ _) as [strs|?|] eqn:Est; cbn [mbind result_bind] in H;
          [done| |done].
        injection H as ->.
        apply object_strings_raises in Est as [-> Hex].
        apply Exists_exists in Hex as (o' & Ho' & Hnone).
        rewrite Hobjs in Ho'.
        apply parsed_spans_objects in Ho' as (span & Hin & El).
        apply Exists_exists. exists span. split; [done|]. right. eauto.
      * cbn [mbind result_bind] in H. injection H as ->.
        apply brace_scan_raises in Es. eapply Exists_impl; [exact Es|].
        intros span Hs. by left.
      * done.
    + rewrite (candidates_markdown _ _ _ Ef).
      destruct (markdown_strings _ _ _ _ _) as [strs|?|] eqn:Em; cbn [mbind result_bind] in H;
        [done| |done].
      injection H as ->. by eapply markdown_strings_raises.
  - done.
Qed.

(** What the function returns is its parts, each as the result shows
    it, joined by an empty line; [json.dumps] never returns the empty
    string. *)
Lemma filter_rendered parts strs :
  (∀ v formatted, json_dumps v = Some formatted → formatted ≠ []) →
  Forall2 (λ part str, render json_dumps part = Ok str) parts strs →
  Forall2 (λ part str, render json_dumps part = Ok str)
    (List.filter kept parts) (List.filter nonempty strs).
Proof.
  intros Hne. induction 1 as [|part str parts strs Hr _ IH]; [constructor|].
  cbn [List.filter].
  assert (kept part = nonempty str) as ->.
  { destruct part as [t|v]; cbn in *; [by injection Hr as ->|].
    destruct (dumps_cases v) as [(f & Hf & Hd)|[Hf Hd]]; rewrite Hd in Hr;
      [|done].
    injection Hr as <-. specialize (Hne _ _ Hf). by destruct f. }
  destruct (nonempty str); [by constructor|done].
Qed.

Lemma parse_mixed_parts limit raw out :
  (∀ v formatted, json_dumps v = Some formatted → formatted ≠ []) →
  parse_mixed_json_and_text json_dumps limit raw = Ok out →
  ∃ parts strs,
    result_parts limit raw = Ok parts ∧
    Forall2 (λ part str, render json_dumps part = Ok str) parts strs ∧
    out = join [10%N; 10%N] strs.
Proof.
  intros Hne. unfold parse_mixed_json_and_text, result_parts.
  set (text := strip raw).
  destruct (json_loads limit text) as [parsed|[]|]; try done.
  { intros H. exists [Json parsed], [out]. by repeat constructor. }
  destruct (finditer text) as [|m ms].
  - destruct (brace_scan limit text text 0 0%Z None) as [objs|?|]; [|done..].
    cbn [mbind result_bind]. destruct objs as [|o objs'] eqn:Eo.
    + intros [= <-]. exists [Text text], [text]. by repeat constructor.
    + destruct (object_strings _ _ _ _) as [strs|?|] eqn:Est; cbn [mbind result_bind]; [|done..].
      intros [= <-]. eexists _, strs. split; [done|]. split; [|done].
      by apply object_strings_parts.
  - destruct (markdown_strings _ _ _ _ _) as [strs|?|] eqn:Em; cbn [mbind result_bind]; [|done..].
    intros [= <-].
    destruct (markdown_strings_parts _ _ _ _ _ Em) as (parts & -> & Hparts).
    cbn [mbind result_bind]. eexists _, _. split; [done|]. split; [|done].
    by apply filter_rendered.
Qed.

End RenderingFacts.

(** The calls of a given text return, one by one. *)
Ltac calls_return :=
  match goal with
  | |- Forall _ ?l => let l' := eval vm_compute in l in change l with l'
  end;
  repeat (constructor; [vm_compute; first [exact I|by eexists]|]);
  constructor.

(** * The extraction, claim by claim *)

(** C4, amended. When the whole text is not a document and the function
    returns (it does when [json.loads] raises nothing but
    [JSONDecodeError]): a markdown block whose content does not parse is
    a part of the result as it stands in the text, fences included; and
    when there is no markdown block, a captured span of braces that does
    not parse is no object, so that no document among the parts comes
    from it, but its characters are not lost: they stand in a text part
    of the result. *)
Theorem failed_candidates limit raw text :
  text = strip raw → json_loads limit text = Raise JSONDecodeError →
  (tame limit text → ∃ parts, result_parts limit raw = Ok parts) ∧
  ∀ parts, result_parts limit raw = Ok parts →
    (∀ m, m ∈ finditer text →
       json_loads limit (group1 m) = Raise JSONDecodeError →
       Text (group0 m) ∈ parts ∧
       group0 m = slice text (m_start m) (m_end m) ∧
       fenced (group0 m) (group1 m)) ∧
    (finditer text = [] →
       ∃ json_objects,
         brace_scan limit text text 0 0 None = Ok json_objects ∧
         json_objects
         = omap (parsed_span limit text) (brace_spans text 0 0 None) ∧
         json_values parts = json_objects.*2 ∧
         ∀ a b, (a, b) ∈ brace_spans text 0 0 None →
           json_loads limit (slice text a b) = Raise JSONDecodeError →
           ∃ t, Text t ∈ parts ∧ occurs_in (slice text a b) t).
Proof.
  intros -> Hwhole. split; [apply result_parts_total|].
  intros parts. unfold result_parts. rewrite Hwhole.
  set (text := strip raw) in *.
  destruct (finditer text) as [|m0 ms] eqn:Ef.
  - assert (Hnone : ∀ (parts : list chunk) (m : rmatch), m ∈ [] →
      json_loads limit (group1 m) = Raise JSONDecodeError →
      Text (group0 m) ∈ parts ∧
      group0 m = slice text (m_start m) (m_end m) ∧
      fenced (group0 m) (group1 m))
      by (intros ? m Hm; by apply elem_of_nil in Hm).
    destruct (brace_scan limit text text 0 0 None) as [objs|e|] eqn:Hscan;
      [|done..].
    pose proof (brace_scan_spans limit text text _ _ _ _ Hscan) as Hspans.
    cbn [mbind result_bind]. destruct objs as [|o objs'] eqn:Eo.
    + intros [= <-]. split; [apply Hnone|]. intros _.
      exists []. split; [done|]. split; [done|]. split; [done|].
      intros a b Hin Hfail. exists text.
      split; [by apply list_elem_of_singleton|]. apply occurs_in_slice.
    + intros Heq.
      assert (parts = object_parts text 0 objs) as -> by (rewrite Eo; congruence).
      clear Heq. rewrite <- Eo in *. split; [apply Hnone|]. intros _.
      exists objs. split; [done|]. split; [done|].
      split; [apply json_values_object_parts|].
      intros a b Hin Hfail.
      by apply (failed_span_surfaces limit text text 0 0%Z None 0 objs a b).
  - rewrite <- Ef.
    destruct (markdown_parts limit text 0 (finditer text)) as [parts'|e|] eqn:Hp;
      [|done..].
    simpl. intros [= <-]. split; [|by rewrite Ef]. intros m Hm Hfail.
    destruct (finditer_from_fenced text text 0 0 m eq_refl Hm) as [Hf Hg].
    split; [|done].
    apply list_elem_of_In, filter_In. split.
    + apply list_elem_of_In. by eapply markdown_failed_kept.
    + simpl. by eapply fenced_nonempty.
Qed.

Lemma failed_candidates_witness :
  (tame cpython311 (py "{b}{}") →
   ∃ parts, result_parts cpython311 (py "{b}{}") = Ok parts) ∧
  ∀ parts, result_parts cpython311 (py "{b}{}") = Ok parts →
    (∀ m, m ∈ finditer (py "{b}{}") →
       json_loads cpython311 (group1 m) = Raise JSONDecodeError →
       Text (group0 m) ∈ parts ∧
       group0 m = slice (py "{b}{}") (m_start m) (m_end m) ∧
       fenced (group0 m) (group1 m)) ∧
    (finditer (py "{b}{}") = [] →
       ∃ json_objects,
         brace_scan cpython311 (py "{b}{}") (py "{b}{}") 0 0 None = Ok json_objects ∧
         json_objects
         = omap (parsed_span cpython311 (py "{b}{}"))
             (brace_spans (py "{b}{}") 0 0 None) ∧
         json_values parts = json_objects.*2 ∧
         ∀ a b, (a, b) ∈ brace_spans (py "{b}{}") 0 0 None →
           json_loads cpython311 (slice (py "{b}{}") a b) = Raise JSONDecodeError →
           ∃ t, Text t ∈ parts ∧ occurs_in (slice (py "{b}{}") a b) t).
Proof.
  apply (failed_candidates cpython311 (py "{b}{}") (py "{b}{}"));
    vm_compute; reflexivity.
Defined.

(** C4 as stated fails: the span of braces from 0 to 3 is captured, it
    does not parse, and it is a part of the result, as text. *)
Lemma failed_span_is_shown :
  finditer (strip (py "{b}{}")) = [] ∧
  (0, 3) ∈ brace_spans (strip (py "{b}{}")) 0 0 None ∧
  slice (strip (py "{b}{}")) 0 3 = py "{b}" ∧
  json_loads cpython311 (py "{b}") = Raise JSONDecodeError ∧
  result_parts cpython311 (py "{b}{}") = Ok [Text (py "{b}"); Json (JObj [])].
Proof.
  split; [vm_compute; reflexivity|]. split; [vm_compute; by left|].
  repeat split; vm_compute; reflexivity.
Qed.

(** C5, amended. When the whole text is not a document, has no markdown
    block and no standalone object that parses, the result is one text
    part: the text without the white space around it. *)
Theorem no_json_fallback limit raw :
  json_loads limit (strip raw) = Raise JSONDecodeError →
  finditer (strip raw) = [] →
  brace_scan limit (strip raw) (strip raw) 0 0 None = Ok [] →
  result_parts limit raw = Ok [Text (strip raw)].
Proof.
  intros H1 H2 H3. unfold result_parts. by rewrite H1, H2, H3.
Qed.

Lemma no_json_fallback_witness :
  result_parts cpython311 (py "no json here")
  = Ok [Text (strip (py "no json here"))].
Proof.
  apply (no_json_fallback cpython311 (py "no json here")); vm_compute; reflexivity.
Defined.

(** C5 as stated fails: the text part is not the input with its white
    space. *)
Lemma fallback_is_stripped :
  json_loads cpython311 (strip (py "  hi  ")) = Raise JSONDecodeError ∧
  finditer (strip (py "  hi  ")) = [] ∧
  brace_scan cpython311 (strip (py "  hi  ")) (strip (py "  hi  ")) 0 0 None = Ok [] ∧
  result_parts cpython311 (py "  hi  ") = Ok [Text (py "hi")] ∧
  result_parts cpython311 (py "  hi  ") ≠ Ok [Text (py "  hi  ")].
Proof.
  repeat split; try (vm_compute; reflexivity). vm_compute. discriminate.
Qed.

(** C6, amended. When the text, without the white space around it, is
    one JSON document, the parts are that document alone and nothing
    else is looked for; what the function returns is that document as
    [json.dumps] formats it, and when [json.dumps] raises
    [RecursionError] on it the function raises it too: line 63 is
    inside the [try], which handles [JSONDecodeError] only. *)
Theorem whole_document :
  (∀ json_dumps limit raw parsed,
     json_loads limit (strip raw) = Ok parsed →
     result_parts limit raw = Ok [Json parsed] ∧
     (∀ formatted, json_dumps parsed = Some formatted →
        parse_mixed_json_and_text json_dumps limit raw = Ok formatted) ∧
     (json_dumps parsed = None →
        parse_mixed_json_and_text json_dumps limit raw = Raise RecursionError))
  ∧ result_parts cpython311 (quoted "{'a':1}")
    = Ok [Json (JObj [(py "a", JInt 1)])].
Proof.
  split; [|vm_compute; reflexivity].
  intros json_dumps limit raw parsed H.
  split; [unfold result_parts; by rewrite H|].
  rewrite (parse_mixed_whole json_dumps limit raw parsed H). unfold dumps.
  split; [by intros formatted ->|by intros ->].
Qed.

Lemma whole_document_witness :
  result_parts cpython311 (quoted " [1, {'a': null}] ")
  = Ok [Json (JArr [JInt 1; JObj [(py "a", JNull)]])].
Proof.
  apply (proj1 whole_document (λ _, None) cpython311
           (quoted " [1, {'a': null}] ")).
  vm_compute. reflexivity.
Defined.

(** C6 as stated fails: 993 arrays one inside the other around [1.5]
    are a document that [json.loads] returns, and one part; where
    [json.dumps] raises [RecursionError] on it, as it does on a document
    that deep, the function returns nothing. *)
Lemma deep_document_not_returned :
  json_loads cpython311 (strip deep_text)
  = Ok (nested 993 (JFloat (py "1.5"))) ∧
  result_parts cpython311 deep_text
  = Ok [Json (nested 993 (JFloat (py "1.5")))] ∧
  ∀ json_dumps, json_dumps (nested 993 (JFloat (py "1.5"))) = None →
    parse_mixed_json_and_text json_dumps cpython311 deep_text
    = Raise RecursionError.
Proof.
  assert (H : json_loads cpython311 (strip deep_text)
              = Ok (nested 993 (JFloat (py "1.5"))))
    by (vm_compute; reflexivity).
  split; [exact H|]. split; [unfold result_parts; by rewrite H|].
  intros json_dumps Hnone.
  rewrite (parse_mixed_whole json_dumps _ _ _ H). unfold dumps.
  by rewrite Hnone.
Qed.

(** C7, amended. The function hands on no [JSONDecodeError]: each of
    the three places that call [json.loads] handles it, and both loops go
    on. It returns exactly when each of its calls of [json.loads] raises
    [JSONDecodeError] or returns a document that [json.dumps] formats.
    An exception it raises is that of one of these calls, in
    [json.loads] or in [json.dumps]; an exception of [json.loads] on the
    whole text is raised as it is, and when any of the calls raises
    another exception than [JSONDecodeError] the function raises and
    returns nothing. *)
Theorem returns_unless_decoder_raises json_dumps limit raw :
  (parse_mixed_json_and_text json_dumps limit raw ≠ Raise JSONDecodeError ∧
   parse_mixed_json_and_text json_dumps limit raw ≠ OutOfFuel) ∧
  ((∃ out, parse_mixed_json_and_text json_dumps limit raw = Ok out) ↔
   Forall (call_returns json_dumps limit) (calls limit (strip raw))) ∧
  (∀ e, parse_mixed_json_and_text json_dumps limit raw = Raise e →
     e ≠ JSONDecodeError ∧
     Exists (λ s, call_raises json_dumps limit s e) (calls limit (strip raw))) ∧
  (∀ e, json_loads limit (strip raw) = Raise e → e ≠ JSONDecodeError →
     parse_mixed_json_and_text json_dumps limit raw = Raise e) ∧
  (∀ s e, s ∈ calls limit (strip raw) →
     call_raises json_dumps limit s e → e ≠ JSONDecodeError →
     ∃ e', e' ≠ JSONDecodeError ∧
       parse_mixed_json_and_text json_dumps limit raw = Raise e') ∧
  (∀ text last_end matches,
     markdown_strings json_dumps limit text last_end matches
     ≠ Raise JSONDecodeError) ∧
  (∀ text rest i brace_count start_idx,
     brace_scan limit text rest i brace_count start_idx
     ≠ Raise JSONDecodeError).
Proof.
  pose proof (parse_mixed_handles json_dumps limit raw) as [Hjde Hfuel].
  pose proof (parse_mixed_returns json_dumps limit raw) as Hret.
  split; [done|]. split; [done|]. split; [|split; [|split; [|split]]].
  - intros e He. split; [by intros ->|]. by apply parse_mixed_raises.
  - intros e He Hne. unfold parse_mixed_json_and_text. rewrite He.
    by destruct e.
  - intros s e Hs Hraises Hne.
    destruct (parse_mixed_json_and_text json_dumps limit raw) as [out|e'|];
      [|exists e'; split; [by intros ->|done]|done].
    destruct Hret as [Hret _].
    rewrite Forall_forall in Hret.
    destruct (call_raises_not_returns json_dumps limit s e Hraises Hne).
    apply Hret; eauto.
  - intros. apply markdown_strings_handles.
  - intros. apply brace_scan_handles.
Qed.

Lemma returns_unless_decoder_raises_witness :
  ∃ out,
    parse_mixed_json_and_text (λ _, Some (py "{}")) cpython311
      (quoted "see {'a': [1, 2]} and {b}") = Ok out.
Proof.
  apply (proj2 (proj1 (proj2 (returns_unless_decoder_raises
           (λ _, Some (py "{}")) cpython311
           (quoted "see {'a': [1, 2]} and {b}"))))).
  calls_return.
Defined.

(** C7 as stated fails: an integer literal of 4301 digits makes
    [json.loads] raise [ValueError], and 994 opening brackets make it
    raise [RecursionError]; the function hands both on, whatever
    [json.dumps] does. *)
Lemma decoder_exception_escapes :
  (∀ json_dumps,
     parse_mixed_json_and_text json_dumps cpython311 (replicate 4301 (chr "1"))
     = Raise ValueError) ∧
  (∀ json_dumps,
     parse_mixed_json_and_text json_dumps cpython311 (replicate 994 (chr "["))
     = Raise RecursionError).
Proof.
  split; intros json_dumps.
  - assert (H : json_loads cpython311 (strip (replicate 4301 (chr "1")))
                = Raise ValueError) by (vm_compute; reflexivity).
    unfold parse_mixed_json_and_text. by rewrite H.
  - assert (H : json_loads cpython311 (strip (replicate 994 (chr "[")))
                = Raise RecursionError) by (vm_compute; reflexivity).
    unfold parse_mixed_json_and_text. by rewrite H.
Qed.

(** C8. The parts of a result are, in order, what consecutive pieces of
    the text (without the white space around it) give: a plain piece
    gives its text without the white space around it, or nothing when
    nothing else is in it; a parsed piece gives the document that
    [json.loads] makes of it, or of what its fence encloses; any other
    piece gives itself. *)
Theorem parts_cover_text limit raw :
  (tame limit (strip raw) → ∃ parts, result_parts limit raw = Ok parts) ∧
  ∀ parts, result_parts limit raw = Ok parts →
    ∃ pieces,
      concat (piece_source <$> pieces) = strip raw ∧
      Forall (piece_ok limit) pieces ∧
      parts = concat (piece_parts <$> pieces).
Proof.
  split; [apply result_parts_total|].
  intros parts. unfold result_parts. set (text := strip raw).
  destruct (json_loads limit text) as [parsed|[]|] eqn:Ej; try done.
  { intros [= <-]. exists [Parsed text text parsed]. simpl.
    split; [by rewrite app_nil_r|]. split; [|done]. repeat constructor; auto. }
  destruct (finditer text) as [|m0 ms] eqn:Ef.
  - destruct (brace_scan limit text text 0 0 None) as [objs|e|] eqn:Hobjs;
      [|done..].
    cbn [mbind result_bind]. destruct objs as [|o objs'] eqn:Eo; intros Heq.
    + injection Heq as <-. exists [Raw text]. simpl.
      split; [by rewrite app_nil_r|]. split; [by repeat constructor|done].
    + assert (parts = object_parts text 0 objs) as -> by (rewrite Eo; congruence).
      rewrite <- Eo in Hobjs.
      by destruct (object_cover limit text text 0 0%Z None 0 objs)
        as (pieces & Hsrc & Hok & Hparts); [done..|exists pieces].
  - rewrite <- Ef.
    destruct (markdown_parts limit text 0 (finditer text)) as [parts'|e|] eqn:Hp;
      [|done..].
    simpl. intros [= <-].
    by destruct (markdown_cover limit text text 0 0 0 parts')
      as (pieces & Hsrc & Hok & Hfil); [done|by left|done|exists pieces].
Qed.

Lemma parts_cover_text_witness :
  ∃ pieces,
    concat (piece_source <$> pieces) = strip (py " a {b} {} ") ∧
    Forall (piece_ok cpython311) pieces ∧
    [Text (py "a {b}"); Json (JObj [])] = concat (piece_parts <$> pieces).
Proof.
  apply (proj2 (parts_cover_text cpython311 (py " a {b} {} "))).
  vm_compute. reflexivity.
Defined.

(** * The examples of the specification *)

Example align_equal_split :
  ∃ aligned,
    align_transcription_with_speakers
      [transcript 0 5 "hi"] [speaker "A" 0 3; speaker "B" 3 5]
    = Some [aligned] ∧
    label_of aligned = Some (VStr "A").
Proof. eexists. split; vm_compute; reflexivity. Qed.

Example extract_fenced :
  result_parts cpython311
    (py "hello ```json" ++ [10%N] ++ quoted "{'a':1}" ++ [10%N] ++ py "``` world")
  = Ok [Text (py "hello"); Json (JObj [(py "a", JInt 1)]); Text (py "world")].
Proof. vm_compute. reflexivity. Qed.

Example extract_braces :
  result_parts cpython311 (quoted "prefix {'x': {'y': 1}} suffix")
  = Ok [Text (py "prefix");
        Json (JObj [(py "x", JObj [(py "y", JInt 1)])]);
        Text (py "suffix")].
Proof. vm_compute. reflexivity. Qed.

Example extract_fenced_not_json :
  result_parts cpython311 (py "see ```json {b} ``` here")
  = Ok [Text (py "see"); Text (py "```json {b} ```"); Text (py "here")].
Proof. vm_compute. reflexivity. Qed.

(** * The other functions of the two scripts *)

Import Formatter Output.

(** ** White space and occurrences *)

Local Open Scope N_scope.

Section StripFacts.

Implicit Types (s x : str).

Lemma lstrip_head s c : head (lstrip s) = Some c → is_space c = false.
Proof.
  induction s as [|a r IH]; cbn [lstrip]; [done|].
  destruct (is_space a) eqn:Ha; [done|].
  cbn. congruence.
Qed.

Lemma lstrip_fixed s :
  (∀ c, head s = Some c → is_space c = false) → lstrip s = s.
Proof.
  destruct s as [|a r]; [done|]. intros H. cbn [lstrip].
  by rewrite (H a eq_refl).
Qed.

Lemma rstrip_split s : ∃ ws, s = rstrip s ++ ws ∧ all_space ws.
Proof.
  destruct (lstrip_split (reverse s)) as (ws & E & Hws & _).
  exists (reverse ws). split.
  - unfold rstrip. rewrite <- reverse_app, <- E. by rewrite reverse_involutive.
  - unfold all_space in *. by apply Forall_reverse.
Qed.

Lemma rstrip_last s c : last (rstrip s) = Some c → is_space c = false.
Proof.
  unfold rstrip. rewrite last_reverse. apply lstrip_head.
Qed.

Lemma rstrip_fixed s :
  (∀ c, last s = Some c → is_space c = false) → rstrip s = s.
Proof.
  intros H. unfold rstrip. rewrite lstrip_fixed.
  - apply reverse_involutive.
  - intros c. rewrite head_reverse. apply H.
Qed.

Lemma strip_ends s :
  (∀ c, head (strip s) = Some c → is_space c = false) ∧
  (∀ c, last (strip s) = Some c → is_space c = false).
Proof.
  split; intros c; unfold strip.
  - destruct (rstrip_split (lstrip s)) as (ws & E & _).
    intros Hc. apply (lstrip_head s). rewrite E.
    destruct (rstrip (lstrip s)); [done|]. exact Hc.
  - apply rstrip_last.
Qed.

Lemma strip_fixed s :
  (∀ c, head s = Some c → is_space c = false) →
  (∀ c, last s = Some c → is_space c = false) →
  strip s = s.
Proof.
  intros Hh Hl. unfold strip. rewrite (lstrip_fixed s Hh). by apply rstrip_fixed.
Qed.

Lemma strip_idemp s : strip (strip s) = strip s.
Proof. destruct (strip_ends s). by apply strip_fixed. Qed.

Lemma elem_of_occurs c x y : occurs_in x y → c ∈ x → c ∈ y.
Proof.
  intros (u & w & ->) H. rewrite !elem_of_app. auto.
Qed.

Lemma occurs_in_cons m c x :
  occurs_in m (c :: x) → (∃ w, c :: x = m ++ w) ∨ occurs_in m x.
Proof.
  intros ([|a u] & w & E).
  - left. by exists w.
  - right. exists u, w. cbn in E. congruence.
Qed.

End StripFacts.

Section FormatFacts.

Lemma collapse_from_spec s : ∀ run out,
  collapse_from run s = out →
  ¬ occurs_in [10; 10; 10] out ∧
  (∀ r, out = 10 :: r → (run < 2)%nat) ∧
  (∀ r, out = 10 :: 10 :: r → run = 0%nat).
Proof.
  induction s as [|c s IH]; intros run out <-; cbn [collapse_from].
  - split; [|done]. intros ([|? ?] & w & E); discriminate.
  - destruct (N.eqb_spec c 10) as [->|Hc].
    + destruct (Nat.ltb_spec run 2) as [Hr|Hr].
      * destruct (IH (S run) _ eq_refl) as (H1 & H2 & H3).
        split; [|split].
        -- intros [(w & E)|H]%occurs_in_cons; [|done].
           cbn in E. injection E as E. specialize (H3 _ E). lia.
        -- done.
        -- intros r [= E]. specialize (H2 _ E). lia.
      * destruct (IH (S run) _ eq_refl) as (H1 & H2 & H3).
        split; [done|]. split.
        -- intros r E. specialize (H2 _ E). lia.
        -- intros r E. specialize (H3 _ E). lia.
    + destruct (IH 0%nat _ eq_refl) as (H1 & H2 & H3).
      split; [|split].
      * intros [(w & E)|H]%occurs_in_cons; [|done]. cbn in E. congruence.
      * intros r [= E]. done.
      * intros r [= E]. done.
Qed.

Lemma collapse_no_triple s : ¬ occurs_in [10; 10; 10] (collapse_newlines s).
Proof. by destruct (collapse_from_spec s 0%nat _ eq_refl). Qed.

Lemma replace_braces_step a b r :
  replace_braces (a :: b :: r)
  = if (a =? chr "{") && (b =? chr "}") then 10 :: replace_braces r
    else a :: replace_braces (b :: r).
Proof. reflexivity. Qed.

Lemma replace_braces_spec n : ∀ s, (length s ≤ n)%nat →
  ¬ occurs_in (py "{}") (replace_braces s) ∧
  (∀ r, replace_braces s = chr "}" :: r → ∃ r', s = chr "}" :: r') ∧
  (length (replace_braces s) ≤ length s)%nat.
Proof.
  induction n as [|n IH]; intros s Hn.
  - destruct s; [|cbn in Hn; lia]. cbn. split; [|done].
    intros ([|? ?] & w & E); discriminate.
  - destruct s as [|a [|b r]].
    + cbn. split; [|done]. intros ([|? ?] & w & E); discriminate.
    + cbn [replace_braces]. split; [|split]; [| |done].
      * intros ([|? [|? ?]] & w & E); discriminate.
      * intros r [= -> <-]. by exists [].
    + cbn [replace_braces]. cbn in Hn.
      destruct ((a =? chr "{") && (b =? chr "}")) eqn:Hab.
      * destruct (IH r ltac:(lia)) as (H1 & H2 & H3).
        split; [|split].
        -- intros [(w & E)|H]%occurs_in_cons; [|done]. discriminate.
        -- intros r0 E. discriminate.
        -- cbn. lia.
      * destruct (IH (b :: r) ltac:(cbn; lia)) as (H1 & H2 & H3).
        split; [|split].
        -- intros [(w & E)|H]%occurs_in_cons; [|done].
           change (py "{}") with [chr "{"; chr "}"] in E.
           injection E as -> E. destruct (H2 _ E) as (r' & [= -> _]).
           by rewrite !N.eqb_refl in Hab.
        -- intros r0 [= -> _]. eauto.
        -- cbn in *. lia.
Qed.

Lemma replace_braces_no_pair s : ¬ occurs_in (py "{}") (replace_braces s).
Proof. by destruct (replace_braces_spec _ s (le_n _)). Qed.

Lemma replace_braces_length s : (length (replace_braces s) ≤ length s)%nat.
Proof. by destruct (replace_braces_spec _ s (le_n _)) as (_ & _ & ?). Qed.

Lemma replace_braces_fixed_aux n : ∀ s, (length s ≤ n)%nat →
  ¬ occurs_in (py "{}") s → replace_braces s = s.
Proof.
  induction n as [|n IH]; intros s Hn Hs.
  - by destruct s; [|cbn in Hn; lia].
  - destruct s as [|a [|b r]]; [done..|].
    rewrite replace_braces_step. cbn in Hn.
    destruct ((a =? chr "{") && (b =? chr "}")) eqn:Hab.
    + apply andb_true_iff in Hab as [->%N.eqb_eq ->%N.eqb_eq].
      destruct Hs. by exists [], r.
    + rewrite IH; [done|cbn; lia|].
      intros (u & w & E). apply Hs. exists (a :: u), w. by rewrite E.
Qed.

Lemma replace_braces_fixed s :
  ¬ occurs_in (py "{}") s → replace_braces s = s.
Proof. apply (replace_braces_fixed_aux _ s (le_n _)). Qed.

End FormatFacts.

(** ** [format_text_with_line_breaks] *)

Section PlainFacts.

Lemma finditer_from_plain s : ∀ pos skip,
  chr "`" ∉ s → finditer_from s pos skip = [].
Proof.
  induction s as [|c r IH]; intros pos skip Hs; [done|].
  cbn [finditer_from].
  apply not_elem_of_cons in Hs as [Hc Hr].
  destruct skip as [|skip]; [|by apply IH].
  assert (match_here (c :: r) = None) as ->.
  { unfold match_here. change fence with [chr "`"; chr "`"; chr "`"].
    cbn [startswith]. destruct (N.eqb_spec (chr "`") c) as [E|_]; [|done].
    by destruct Hc. }
  by apply IH.
Qed.

Lemma brace_scan_plain limit text rest : ∀ i brace_count,
  chr "{" ∉ rest → brace_scan limit text rest i brace_count None = Ok [].
Proof.
  induction rest as [|c r IH]; intros i brace_count Hs; [done|].
  apply not_elem_of_cons in Hs as [Hc Hr].
  cbn [brace_scan].
  destruct (N.eqb_spec c (chr "{")) as [E|_]; [by destruct Hc|].
  destruct (c =? chr "}"); by apply IH.
Qed.

Lemma result_parts_plain limit text :
  chr "{" ∉ text → chr "`" ∉ text →
  json_loads limit (strip text) = Raise JSONDecodeError →
  result_parts limit text = Ok [Text (strip text)].
Proof.
  intros Hb Hq Hl. unfold result_parts. rewrite Hl.
  unfold finditer. rewrite finditer_from_plain.
  - rewrite brace_scan_plain; [done|].
    intros H. apply Hb. eapply elem_of_occurs; [apply strip_occurs|done].
  - intros H. apply Hq. eapply elem_of_occurs; [apply strip_occurs|done].
Qed.

Lemma parse_mixed_plain json_dumps limit text :
  chr "{" ∉ text → chr "`" ∉ text →
  json_loads limit (strip text) = Raise JSONDecodeError →
  parse_mixed_json_and_text json_dumps limit text = Ok (strip text).
Proof.
  intros Hb Hq Hl. unfold parse_mixed_json_and_text. rewrite Hl.
  unfold finditer. rewrite finditer_from_plain.
  - rewrite brace_scan_plain; [done|].
    intros H. apply Hb. eapply elem_of_occurs; [apply strip_occurs|done].
  - intros H. apply Hq. eapply elem_of_occurs; [apply strip_occurs|done].
Qed.

(** Every string handed to [json.loads] is a piece of the text. *)
Lemma calls_occur limit text s : s ∈ calls limit text → occurs_in s text.
Proof.
  unfold calls. intros [->|Hs]%elem_of_cons; [apply occurs_in_refl|].
  destruct (json_loads limit text) as [?|[]|]; try by apply elem_of_nil in Hs.
  unfold candidates in Hs. destruct (finditer text) as [|m ms] eqn:Ef.
  - apply list_elem_of_fmap in Hs as (span & -> & _). apply occurs_in_slice.
  - rewrite <- Ef in Hs. apply list_elem_of_fmap in Hs as (m0 & -> & Hm0).
    destruct (finditer_from_fenced text text 0 0 m0 eq_refl Hm0)
      as [(tag & ws1 & ws2 & Hsrc & _) Hg].
    apply (occurs_in_trans _ (group0 m0)).
    + exists (fence ++ tag ++ ws1), (ws2 ++ fence). rewrite Hsrc.
      by rewrite <- !app_assoc.
    + rewrite Hg. apply occurs_in_slice.
Qed.

Lemma no_brace_no_pair s : chr "{" ∉ s → ¬ occurs_in (py "{}") s.
Proof.
  intros H (u & w & ->). apply H. rewrite elem_of_app. right.
  change (py "{}") with [chr "{"; chr "}"]. cbn. left.
Qed.

End PlainFacts.

Section FormatTheorems.

Variable json_dumps : json → option str.

Lemma format_unfold limit text out :
  format_text_with_line_breaks json_dumps limit text = Ok out →
  ∃ parsed,
    parse_mixed_json_and_text json_dumps limit (replace_braces text) = Ok parsed ∧
    out = strip (collapse_newlines parsed).
Proof.
  unfold format_text_with_line_breaks.
  destruct (parse_mixed_json_and_text _ _ _) as [parsed|e|]; cbn; [|done..].
  intros [= <-]. eauto.
Qed.

(** X1. Line 147, [text.replace('{}', '\n')]: the result has no opening
    brace directly followed by a closing brace; the text comes back as
    it is exactly when it had no such pair; and the result is never
    longer than the text. *)
Theorem replace_braces_removes_pairs s :
  ¬ occurs_in (py "{}") (replace_braces s) ∧
  (replace_braces s = s ↔ ¬ occurs_in (py "{}") s) ∧
  (length (replace_braces s) ≤ length s)%nat.
Proof.
  split; [apply replace_braces_no_pair|]. split; [|apply replace_braces_length].
  split.
  - intros <-. apply replace_braces_no_pair.
  - apply replace_braces_fixed.
Qed.

(** X2. The text that [format_text_with_line_breaks] returns never has
    three line breaks in a row, whatever [json.dumps] prints. *)
Theorem format_no_blank_run limit text out :
  format_text_with_line_breaks json_dumps limit text = Ok out →
  ¬ occurs_in [10; 10; 10] out.
Proof.
  intros (parsed & _ & ->)%format_unfold H.
  apply (collapse_no_triple parsed).
  eapply occurs_in_trans; [exact H|apply strip_occurs].
Qed.

(** X3. The text that [format_text_with_line_breaks] returns neither
    begins nor ends with white space, so that stripping it again changes
    nothing. *)
Theorem format_stripped limit text out :
  format_text_with_line_breaks json_dumps limit text = Ok out →
  (∀ c, head out = Some c → is_space c = false) ∧
  (∀ c, last out = Some c → is_space c = false) ∧
  strip out = out.
Proof.
  intros (parsed & _ & ->)%format_unfold.
  destruct (strip_ends (collapse_newlines parsed)) as [H1 H2].
  split; [done|]. split; [done|]. apply strip_idemp.
Qed.

(** X4. [format_text_with_line_breaks] returns on a text of at most
    4300 characters whose length, with the calls that an error takes,
    is within the nesting that the interpreter allows, when [json.dumps]
    formats the documents found in it: [json.loads] raises nothing but
    [JSONDecodeError] on the pieces of such a text. *)
Theorem format_returns limit text :
  (length text ≤ int_max_str_digits)%nat →
  (length text + error_frames limit ≤ nesting limit)%nat →
  (∀ s parsed, occurs_in s (replace_braces text) →
     json_loads limit s = Ok parsed → is_Some (json_dumps parsed)) →
  ∃ out, format_text_with_line_breaks json_dumps limit text = Ok out.
Proof.
  intros H1 H2 Hdumps.
  destruct (proj2 (parse_mixed_returns json_dumps limit (replace_braces text)))
    as [parsed Hp].
  { apply Forall_forall. intros s Hs%calls_occur.
    assert (Hocc : occurs_in s (replace_braces text))
      by (eapply occurs_in_trans; [exact Hs|apply strip_occurs]).
    pose proof (replace_braces_length text).
    pose proof (occurs_in_length _ _ Hocc).
    assert (Hdec : decodes (json_loads limit s)) by (apply short_decodes; lia).
    unfold call_returns. specialize (Hdumps s).
    destruct (json_loads limit s) as [doc|[]|]; try done. by apply Hdumps. }
  unfold format_text_with_line_breaks. rewrite Hp. cbn. eauto.
Qed.

(** X5. A text without opening brace and without backquote that is not
    a JSON document by itself is formatted as plain text: stripped, every
    run of three line breaks or more cut down to two, and stripped
    again. *)
Theorem format_plain_text limit text :
  chr "{" ∉ text → chr "`" ∉ text →
  json_loads limit (strip text) = Raise JSONDecodeError →
  format_text_with_line_breaks json_dumps limit text
  = Ok (strip (collapse_newlines (strip text))).
Proof.
  intros Hb Hq Hl.
  unfold format_text_with_line_breaks.
  rewrite (replace_braces_fixed text (no_brace_no_pair _ Hb)).
  by rewrite (parse_mixed_plain json_dumps limit text Hb Hq Hl).
Qed.

End FormatTheorems.


Lemma format_no_blank_run_witness :
  ¬ occurs_in [10; 10; 10] (py "a" ++ [10; 10] ++ py "b").
Proof.
  apply (format_no_blank_run (λ _, None) cpython311
           (py " a" ++ [10; 10; 10; 10] ++ py "{}{}b ")).
  vm_compute. reflexivity.
Defined.

Lemma format_stripped_witness :
  (∀ c, head (py "a b") = Some c → is_space c = false) ∧
  (∀ c, last (py "a b") = Some c → is_space c = false) ∧
  strip (py "a b") = py "a b".
Proof.
  apply (format_stripped (λ _, None) cpython311 (py " a b{}") (py "a b")).
  vm_compute. reflexivity.
Defined.

Lemma format_returns_witness :
  ∃ out,
    format_text_with_line_breaks (λ _, Some (py "{}")) cpython311 (py "{}x {}")
    = Ok out.
Proof.
  apply (format_returns (λ _, Some (py "{}")) cpython311 (py "{}x {}")).
  - vm_compute. lia.
  - vm_compute. lia.
  - intros s parsed _ _. by eexists.
Defined.

Lemma format_plain_text_witness :
  format_text_with_line_breaks (λ _, None) cpython311
    (py " one" ++ [10; 10; 10; 10] ++ py "two ")
  = Ok (strip (collapse_newlines (strip (py " one" ++ [10; 10; 10; 10] ++ py "two ")))).
Proof.
  apply format_plain_text.
  - vm_compute. intros H. repeat (apply elem_of_cons in H as [H|H]; [discriminate|]).
    by apply elem_of_nil in H.
  - vm_compute. intros H. repeat (apply elem_of_cons in H as [H|H]; [discriminate|]).
    by apply elem_of_nil in H.
  - vm_compute. reflexivity.
Defined.

(** ** [extract_text_from_json] *)

Section ExtractFacts.

Variable json_dumps : json → option str.

Lemma collect_text_parts parts :
  Forall text_or_other parts →
  ∃ text_parts,
    collect_text parts = Returns text_parts ∧
    strings text_parts = Returns (omap part_text parts).
Proof.
  induction 1 as [|part parts (members & -> & Hm) _ (text_parts & E1 & E2)].
  - by exists [].
  - cbn [collect_text has_text text_of]. cbn [mbind outcome_bind].
    assert (omap part_text (JObj members :: parts)
            = match part_text (JObj members) with
              | Some s => s :: omap part_text parts
              | None => omap part_text parts
              end) as -> by done.
    cbn [part_text].
    destruct Hm as [Hm|(s & Hm)]; rewrite Hm.
    + rewrite bool_decide_false by (by intros [? ?]). eauto.
    + rewrite bool_decide_true by eauto. rewrite E1. cbn [mbind outcome_bind mret outcome_ret].
      exists (JStr s :: text_parts). split; [done|].
      cbn [strings]. by rewrite E2.
Qed.

Lemma contains_short s sub :
  (length s < length sub)%nat → contains s sub = false.
Proof.
  revert sub. induction s as [|c r IH]; intros sub Hl.
  - destruct sub; [cbn in Hl; lia|done].
  - cbn [contains]. rewrite IH by (cbn in Hl; lia).
    rewrite orb_false_r.
    assert (∀ (p x : str), (length x < length p)%nat → startswith x p = false) as Hs.
    { clear. induction p as [|a p IH]; intros x Hx; [cbn in Hx; lia|].
      destruct x as [|b x]; [done|]. cbn [startswith].
      rewrite IH by (cbn in Hx; lia). apply andb_false_r. }
    by apply Hs.
Qed.

Lemma collect_text_chars s :
  collect_text ((λ c, JStr [c]) <$> s) = Returns [].
Proof.
  induction s as [|c r IH]; [done|].
  rewrite fmap_cons. cbn [collect_text has_text]. cbn [mbind outcome_bind].
  by rewrite contains_short by (cbn; lia).
Qed.

(** X6. On a response without [text] member whose first candidate has
    an object [content] with a list [parts] that is not empty, every part
    being an object with a string under [text] or without [text],
    [extract_text_from_json] returns the texts of the parts that have
    one, in their order, joined by line breaks. The other candidates are
    not read. *)
Theorem extract_candidate_parts members candidate others content parts :
  member (py "text") members = None →
  member (py "candidates") members = Some (JArr (JObj candidate :: others)) →
  member (py "content") candidate = Some (JObj content) →
  member (py "parts") content = Some (JArr parts) →
  parts ≠ [] → Forall text_or_other parts →
  extract_text_from_json json_dumps (JObj members)
  = Returns (JStr (join [10] (omap part_text parts))).
Proof.
  intros Ht Hc Hn Hp Hne Hparts.
  unfold extract_text_from_json. rewrite Ht, Hc.
  cbn [json_truthy len item0 dict_get mbind outcome_bind length Nat.ltb Nat.leb].
  rewrite Hn. cbn [default from_option id json_truthy].
  destruct content as [|m content]; [done|].
  cbn [dict_get mbind outcome_bind]. rewrite Hp. cbn [default from_option id json_truthy].
  destruct parts as [|part parts]; [done|].
  cbn [iterate mbind outcome_bind].
  destruct (collect_text_parts _ Hparts) as (text_parts & -> & E2).
  cbn [mbind outcome_bind]. by rewrite E2.
Qed.

(** X7. Unless the document is an object without [text] whose
    [candidates] is true as a condition, [extract_text_from_json] raises
    no exception of its own: a string is returned as it is; the [text]
    member of an object is returned whatever else the object holds; and
    any other document is handed to [json.dumps], whose text is the
    result and whose [RecursionError] is raised. An empty list of
    candidates is such a case: its first item is not read. *)
Theorem extract_returns_without_candidates data :
  (∀ members c, data = JObj members →
     member (py "text") members = None →
     member (py "candidates") members = Some c → json_truthy c = false) →
  (∀ s, data = JStr s →
     extract_text_from_json json_dumps data = Returns data) ∧
  (∀ members t, data = JObj members →
     member (py "text") members = Some t →
     extract_text_from_json json_dumps data = Returns t) ∧
  ((∀ s, data ≠ JStr s) →
   (∀ members, data = JObj members → member (py "text") members = None) →
   (∀ formatted, json_dumps data = Some formatted →
      extract_text_from_json json_dumps data = Returns (JStr formatted)) ∧
   (json_dumps data = None →
      extract_text_from_json json_dumps data = Raises EncoderRecursionError)) ∧
  extract_text_from_json json_dumps data ≠ Raises IndexError ∧
  extract_text_from_json json_dumps data ≠ Raises AttributeError ∧
  extract_text_from_json json_dumps data ≠ Raises TypeError ∧
  extract_text_from_json json_dumps data ≠ Raises KeyError.
Proof.
  intros H.
  assert (Hfall : ∀ e, e ≠ EncoderRecursionError → fallback json_dumps data ≠ Raises e).
  { intros e He. unfold fallback. destruct data; try done;
      destruct (json_dumps _); congruence. }
  assert (Hout : extract_text_from_json json_dumps data = fallback json_dumps data ∨
    ∃ members t, data = JObj members ∧ member (py "text") members = Some t ∧
      extract_text_from_json json_dumps data = Returns t).
  { destruct data as [|b|z|l|s|items|members]; try (by left).
    unfold extract_text_from_json.
    destruct (member (py "text") members) as [t|] eqn:Ht; [right; eauto|].
    left. destruct (member (py "candidates") members) as [c|] eqn:Hc; [|done].
    by rewrite (H members c eq_refl Ht Hc). }
  split; [by intros s ->|]. split; [|split].
  - intros members t -> Ht. destruct Hout as [E|(m' & t' & [= <-] & Ht' & E)].
    + unfold extract_text_from_json in *. by rewrite Ht.
    + congruence.
  - intros Hs Hm.
    assert (E : extract_text_from_json json_dumps data = fallback json_dumps data).
    { destruct Hout as [E|(m' & t' & -> & Ht' & E)]; [done|].
      rewrite (Hm m' eq_refl) in Ht'. done. }
    rewrite E. unfold fallback.
    destruct data; try (split; [by intros f ->|by intros ->]).
    by destruct (Hs s).
  - destruct Hout as [->|(m' & t' & _ & _ & ->)].
    + repeat split; by apply Hfall.
    + done.
Qed.

(** X8. When the document has no [text] member and the first item of
    its [candidates] is not an object, [extract_text_from_json] raises
    [AttributeError]; it does not fall back to the formatted document. *)
Theorem extract_first_candidate_not_object members candidates first :
  member (py "text") members = None →
  member (py "candidates") members = Some candidates →
  item0 candidates = Returns first →
  (∀ m, first ≠ JObj m) →
  extract_text_from_json json_dumps (JObj members) = Raises AttributeError.
Proof.
  intros Ht Hc Hi Hf. unfold extract_text_from_json. rewrite Ht, Hc.
  destruct candidates as [| | | |[|c s]|[|x items]|]; try discriminate Hi.
  - reflexivity.
  - cbn in Hi. injection Hi as ->.
    cbn [json_truthy len mbind outcome_bind length Nat.ltb Nat.leb item0].
    destruct first as [| | | | | |m]; try done. by destruct (Hf m).
Qed.

(** X9. When the [parts] of the first candidate is a string that is not
    empty, the result is the empty string: the loop goes through the
    characters, and no single character contains [text]. *)
Theorem extract_parts_string members candidate others content s :
  member (py "text") members = None →
  member (py "candidates") members = Some (JArr (JObj candidate :: others)) →
  member (py "content") candidate = Some (JObj content) →
  member (py "parts") content = Some (JStr s) → s ≠ [] →
  extract_text_from_json json_dumps (JObj members) = Returns (JStr []).
Proof.
  intros Ht Hc Hn Hp Hne.
  unfold extract_text_from_json. rewrite Ht, Hc.
  cbn [json_truthy len item0 dict_get mbind outcome_bind length Nat.ltb Nat.leb].
  rewrite Hn. cbn [default from_option id json_truthy].
  destruct content as [|m content]; [done|].
  cbn [dict_get mbind outcome_bind]. rewrite Hp. cbn [default from_option id json_truthy].
  destruct s as [|c s]; [done|]. cbn [nonempty iterate mbind outcome_bind].
  by rewrite collect_text_chars.
Qed.

End ExtractFacts.

Lemma extract_candidate_parts_witness :
  extract_text_from_json (λ _, None) (JObj (gemini_response (JArr gemini_parts)))
  = Returns (JStr (join [10%N] (omap part_text gemini_parts))).
Proof.
  apply (extract_candidate_parts (λ _, None) (gemini_response (JArr gemini_parts))
           [(py "content", JObj [(py "parts", JArr gemini_parts)])] []
           [(py "parts", JArr gemini_parts)] gemini_parts);
    try (vm_compute; reflexivity).
  - discriminate.
  - repeat constructor; eexists; (split; [reflexivity|]);
      first [left; vm_compute; reflexivity | right; eexists; vm_compute; reflexivity].
Defined.

Lemma extract_returns_without_candidates_witness :
  (∀ formatted, Some (py "{}") = Some formatted →
     extract_text_from_json (λ _, Some (py "{}"))
       (JObj [(py "candidates", JArr [])]) = Returns (JStr formatted)) ∧
  extract_text_from_json (λ _, Some (py "{}"))
    (JObj [(py "candidates", JArr [])]) ≠ Raises IndexError.
Proof.
  destruct (extract_returns_without_candidates (λ _, Some (py "{}"))
              (JObj [(py "candidates", JArr [])])) as (_ & _ & Hdumps & Hindex & _).
  { intros members c [= <-] _ [= <-]. reflexivity. }
  split; [|exact Hindex].
  apply Hdumps; [done|]. intros members [= <-]. reflexivity.
Defined.

Lemma extract_first_candidate_not_object_witness :
  extract_text_from_json (λ _, None) (JObj [(py "candidates", JArr [JNull])])
  = Raises AttributeError.
Proof.
  apply (extract_first_candidate_not_object (λ _, None)
           [(py "candidates", JArr [JNull])] (JArr [JNull]) JNull);
    try (vm_compute; reflexivity).
  discriminate.
Defined.

Lemma extract_parts_string_witness :
  extract_text_from_json (λ _, None) (JObj (gemini_response (JStr (py "hello"))))
  = Returns (JStr []).
Proof.
  apply (extract_parts_string (λ _, None) (gemini_response (JStr (py "hello")))
           [(py "content", JObj [(py "parts", JStr (py "hello"))])] []
           [(py "parts", JStr (py "hello"))] (py "hello"));
    try (vm_compute; reflexivity).
  discriminate.
Defined.

(** ** More on the parts of [parse_mixed_json_and_text] *)

Section PartsMore.

Implicit Types (s r t text raw : str) (v : json) (limit : limits).

Lemma errmsg_not_ok {A : Type} frames depth (a : A) :
  errmsg frames depth ≠ Ok a.
Proof. unfold errmsg. by destruct (_ <? _)%nat. Qed.

Lemma parse_members_object frames fuel : ∀ depth ms s v r,
  parse_members frames fuel depth ms s = Ok (v, r) → ∃ members, v = JObj members.
Proof.
  induction fuel as [|fuel IH]; intros depth ms s v r; [done|].
  cbn [parse_members].
  destruct s as [|q s]; [by intros ?%errmsg_not_ok|].
  destruct (q =? dquote); [|by intros ?%errmsg_not_ok].
  destruct (at_depth frames depth (scanstring s)) as [[key r1]|e|]; [|done..].
  cbn [mbind result_bind].
  destruct (skip_ws r1) as [|colon r2]; [by intros ?%errmsg_not_ok|].
  destruct (colon =? chr ":"); [|by intros ?%errmsg_not_ok].
  destruct (scan_once frames fuel depth (skip_ws r2)) as [[val r3]|e|]; [|done..].
  cbn [mbind result_bind].
  destruct (skip_ws r3) as [|d r4]; [by intros ?%errmsg_not_ok|].
  destruct (d =? chr "}"); [intros [= <- _]; eauto|].
  destruct (d =? chr ","); [|by intros ?%errmsg_not_ok].
  apply IH.
Qed.

Lemma loads_brace_object limit s v :
  head s = Some (chr "{") → json_loads limit s = Ok v →
  ∃ members, v = JObj members.
Proof.
  destruct s as [|c s]; [done|]. intros [= ->]. unfold json_loads.
  change (startswith (chr "{" :: s) [65279]) with false. cbv iota.
  change (skip_ws (chr "{" :: s)) with (chr "{" :: s).
  cbn [scan_once].
  change (chr "{" =? dquote) with false. cbv iota.
  rewrite N.eqb_refl.
  destruct (nesting limit) as [|depth]; [done|].
  destruct (skip_ws s) as [|c' r'].
  { unfold errmsg. by destruct (_ <? _)%nat. }
  destruct (c' =? chr "}").
  - cbn. intros E.
    destruct (skip_ws r'); [|done]. injection E as <-. eauto.
  - destruct (parse_members _ _ _ _ _) as [[obj rest]|e|] eqn:Ep; [|done..].
    cbn [mbind result_bind]. destruct (skip_ws rest); [|done].
    intros [= <-]. by eapply parse_members_object.
Qed.

Lemma brace_scan_objects limit text rest :
  ∀ i brace_count start_idx json_objects,
  drop i text = rest →
  (∀ a, start_idx = Some a → (a < i)%nat ∧ text !! a = Some (chr "{")) →
  brace_scan limit text rest i brace_count start_idx = Ok json_objects →
  Forall (λ o, ∃ members, o.2 = JObj members) json_objects.
Proof.
  induction rest as [|char rest IH]; intros i bc st objs Hs Hst;
    cbn [brace_scan].
  - intros [= <-]. constructor.
  - destruct (drop_cons_tail _ _ _ _ Hs) as [Hr Hi].
    pose proof (drop_head _ _ _ _ Hs) as Hchar.
    assert (Hkeep : ∀ a, st = Some a → (a < S i)%nat ∧ text !! a = Some (chr "{")).
    { intros a Ha. destruct (Hst a Ha). split; [lia|done]. }
    destruct (N.eqb_spec char (chr "{")) as [->|_].
    { apply (IH (S i) _ _ objs Hr).
      intros a Ha. destruct (Z.eqb bc 0); [|by apply Hkeep].
      injection Ha as <-. split; [lia|done]. }
    destruct (N.eqb_spec char (chr "}")) as [->|_];
      [|by apply (IH (S i) _ _ objs Hr)].
    destruct st as [start|]; [|by apply (IH (S i) _ _ objs Hr)].
    destruct (Z.eqb (bc - 1) 0); [|by apply (IH (S i) _ _ objs Hr)].
    destruct (Hst start eq_refl) as [Hsi Hopen].
    destruct (json_loads limit (slice text start (i + 1))) as [parsed|[]|] eqn:El;
      try done.
    + destruct (brace_scan limit text rest (S i) (bc - 1) None)
        as [objs'|e|] eqn:Eo; [|done..].
      cbn [mbind result_bind]. intros [= <-]. constructor.
      * cbn. apply (loads_brace_object limit _ _ (proj1 (slice_ends text start (i + 1)
          (chr "{") (chr "}") ltac:(lia) ltac:(lia) Hopen
          ltac:(by rewrite Nat.add_sub))) El).
      * by apply (IH (S i) (bc - 1)%Z None objs' Hr).
    + by apply (IH (S i) _ _ objs Hr).
Qed.

Lemma elem_of_json_values v parts :
  Json v ∈ parts → v ∈ json_values parts.
Proof.
  intros H. unfold json_values. apply list_elem_of_omap.
  exists (Json v). by split.
Qed.

(** X22. When the text is not a document by itself and has no markdown
    block, every document among the parts is an object: the scan of lines
    96-114 yields no array, string or number. *)
Theorem standalone_documents_are_objects limit raw parts v :
  json_loads limit (strip raw) = Raise JSONDecodeError →
  finditer (strip raw) = [] →
  result_parts limit raw = Ok parts →
  Json v ∈ parts → ∃ members, v = JObj members.
Proof.
  intros Hl Hf. unfold result_parts. rewrite Hl, Hf.
  destruct (brace_scan limit (strip raw) (strip raw) 0 0 None)
    as [objs|e|] eqn:Eo; [|done..].
  cbn [mbind result_bind].
  pose proof (brace_scan_objects limit (strip raw) (strip raw) 0%nat 0%Z None objs
                eq_refl ltac:(done) Eo) as Hobjs.
  destruct objs as [|o objs].
  - intros [= <-] [=]%list_elem_of_singleton.
  - intros E Hv%elem_of_json_values.
    assert (parts = object_parts (strip raw) 0 (o :: objs)) as -> by congruence.
    rewrite json_values_object_parts in Hv.
    apply list_elem_of_fmap in Hv as (o' & -> & Ho').
    rewrite Forall_forall in Hobjs. by apply Hobjs.
Qed.

Lemma fenced_stripped src inner : fenced src inner → strip src = src.
Proof.
  intros (tag & ws1 & ws2 & -> & _). apply strip_fixed.
  - intros c [= <-]. done.
  - intros c. rewrite !app_assoc. change fence with ([chr "`"; chr "`"] ++ [chr "`"]).
    rewrite app_assoc, last_snoc. by intros [= <-].
Qed.

Lemma text_part_stripped g t : Text t ∈ text_part (strip g) → strip t = t ∧ t ≠ [].
Proof.
  unfold text_part. destruct (strip g) as [|c r] eqn:E; cbn [nonempty].
  - by intros ?%elem_of_nil.
  - intros [= ->]%list_elem_of_singleton. split; [|done].
    rewrite <- E. apply strip_idemp.
Qed.

Lemma markdown_parts_stripped limit text : ∀ ms last_end parts t,
  Forall (λ m, fenced (group0 m) (group1 m)) ms →
  markdown_parts limit text last_end ms = Ok parts →
  Text t ∈ parts → strip t = t.
Proof.
  induction ms as [|m ms IH]; intros last_end parts t Hms; cbn [markdown_parts].
  - intros [= <-]. destruct (last_end <? length text)%nat.
    + intros [= ->]%list_elem_of_singleton. apply strip_idemp.
    + by intros ?%elem_of_nil.
  - apply Forall_cons in Hms as [Hm Hms].
    destruct (match json_loads limit (group1 m) with
              | Ok parsed => Ok (Json parsed)
              | Raise JSONDecodeError => Ok (Text (group0 m))
              | Raise e => Raise e
              | OutOfFuel => OutOfFuel
              end) as [part|e|] eqn:Ep; [|done..].
    cbn [mbind result_bind].
    destruct (markdown_parts limit text (m_end m) ms) as [rest|e|] eqn:Er; [|done..].
    cbn [mbind result_bind]. intros [= <-].
    rewrite elem_of_app, elem_of_cons. intros [Hb|[Hp|Hr]].
    + destruct (last_end <? m_start m)%nat.
      * apply list_elem_of_singleton in Hb as [= ->]. apply strip_idemp.
      * by apply elem_of_nil in Hb.
    + subst part. destruct (json_loads limit (group1 m)) as [parsed|[]|]; try done.
      assert (t = group0 m) as -> by congruence. by eapply fenced_stripped.
    + by eapply IH.
Qed.

Lemma markdown_parts_kept limit text m ms last_end parts :
  fenced (group0 m) (group1 m) →
  markdown_parts limit text last_end (m :: ms) = Ok parts →
  List.filter kept parts ≠ [].
Proof.
  intros Hm. cbn [markdown_parts].
  destruct (match json_loads limit (group1 m) with
            | Ok parsed => Ok (Json parsed)
            | Raise JSONDecodeError => Ok (Text (group0 m))
            | Raise e => Raise e
            | OutOfFuel => OutOfFuel
            end) as [part|e|] eqn:Ep; [|done..].
  cbn [mbind result_bind].
  destruct (markdown_parts limit text (m_end m) ms) as [rest|e|]; [|done..].
  cbn [mbind result_bind]. intros [= <-].
  assert (kept part = true) as Hk.
  { destruct (json_loads limit (group1 m)) as [parsed|[]|]; try done.
    - by injection Ep as <-.
    - injection Ep as <-. cbn. by eapply fenced_nonempty. }
  intros E. assert (part ∈ List.filter kept (
    (if (last_end <? m_start m)%nat
     then [Text (strip (slice text last_end (m_start m)))] else []) ++ part :: rest)) as Hin.
  { apply list_elem_of_In, filter_In. split; [|done].
    apply list_elem_of_In, elem_of_app. right. left. }
  rewrite E in Hin. by apply elem_of_nil in Hin.
Qed.

Lemma object_parts_stripped text : ∀ objs last_end t,
  Text t ∈ object_parts text last_end objs → strip t = t ∧ t ≠ [].
Proof.
  induction objs as [|[[start end_] parsed] objs IH]; intros last_end t;
    cbn [object_parts].
  - destruct (last_end <? length text)%nat; [apply text_part_stripped|].
    by intros ?%elem_of_nil.
  - rewrite elem_of_app, elem_of_cons. intros [Hb|[?|Hr]]; [|done|by eapply IH].
    destruct (last_end <? start)%nat; [by eapply text_part_stripped|].
    by apply elem_of_nil in Hb.
Qed.

(** X23. The list of parts is never empty; every text part is
    stripped; and an empty text part occurs only as the single part of a
    text with nothing but white space in it. *)
Theorem text_parts_are_stripped limit raw parts :
  result_parts limit raw = Ok parts →
  parts ≠ [] ∧
  ∀ t, Text t ∈ parts →
    strip t = t ∧ (t = [] → parts = [Text []]).
Proof.
  unfold result_parts.
  destruct (json_loads limit (strip raw)) as [parsed|[]|] eqn:El; try done.
  { intros [= <-]. split; [done|]. by intros t [=]%list_elem_of_singleton. }
  destruct (finditer (strip raw)) as [|m ms] eqn:Ef.
  - destruct (brace_scan limit (strip raw) (strip raw) 0 0 None)
      as [objs|e|]; [|done..].
    cbn [mbind result_bind]. destruct objs as [|o objs].
    + intros [= <-]. split; [done|].
      intros t [= ->]%list_elem_of_singleton. split; [apply strip_idemp|].
      by intros ->.
    + intros E.
      assert (parts = object_parts (strip raw) 0 (o :: objs)) as -> by congruence.
      split.
      * destruct o as [[start end_] parsed]. cbn [object_parts].
        by destruct (if (0 <? start)%nat then _ else _).
      * intros t Ht. by destruct (object_parts_stripped _ _ _ _ Ht).
  - assert (Forall (λ m, fenced (group0 m) (group1 m)) (m :: ms)) as Hms.
    { rewrite <- Ef. apply Forall_forall. intros m0 Hm0.
      by destruct (finditer_from_fenced (strip raw) (strip raw) 0 0 m0 eq_refl Hm0). }
    destruct (markdown_parts limit (strip raw) 0 (m :: ms)) as [mparts|e|] eqn:Em;
      [|done..].
    cbn [mbind result_bind]. intros [= <-]. split.
    + eapply markdown_parts_kept; [|exact Em]. by apply Forall_cons in Hms as [? _].
    + intros t [Ht Hk]%list_elem_of_In%filter_In. apply list_elem_of_In in Ht. split.
      * by eapply markdown_parts_stripped.
      * intros ->. done.
Qed.

Lemma lstrip_space u x : all_space u → lstrip (u ++ x) = lstrip x.
Proof.
  induction 1 as [|c u Hc _ IH]; [done|]. cbn [app lstrip]. by rewrite Hc.
Qed.

Lemma strip_space u x w :
  all_space u → all_space w → strip (u ++ x ++ w) = strip x.
Proof.
  intros Hu Hw. unfold strip. rewrite (lstrip_space u _ Hu).
  destruct (lstrip_split x) as (ws & E & Hws & _).
  destruct (lstrip x) as [|c r] eqn:El.
  - rewrite app_nil_r in E. subst ws.
    assert (all_space (x ++ w)) as Hxw by (by apply Forall_app).
    pose proof (lstrip_space (x ++ w) [] Hxw) as E. rewrite app_nil_r in E.
    by rewrite E.
  - pose proof (lstrip_head x c) as Hc. rewrite El in Hc. specialize (Hc eq_refl).
    rewrite E at 1. rewrite <- app_assoc, (lstrip_space ws _ Hws).
    cbn [app lstrip]. rewrite Hc.
    unfold rstrip. change (c :: r ++ w) with ((c :: r) ++ w).
    rewrite reverse_app, lstrip_space; [done|].
    unfold all_space in *. by apply Forall_reverse.
Qed.

(** X24. White space before and after the text does not change the
    parts. *)
Theorem surrounding_space_ignored limit u raw w :
  all_space u → all_space w →
  result_parts limit (u ++ raw ++ w) = result_parts limit raw.
Proof.
  intros Hu Hw. unfold result_parts. by rewrite (strip_space u raw w Hu Hw).
Qed.

(** X25. What the function returns is its parts, each as the result
    shows it (a text part as it is, a document as [json.dumps] formats
    it), joined by an empty line; [json.dumps] never returns the empty
    string. *)
Theorem result_joins_parts json_dumps limit raw out :
  (∀ v formatted, json_dumps v = Some formatted → formatted ≠ []) →
  parse_mixed_json_and_text json_dumps limit raw = Ok out →
  ∃ parts strs,
    result_parts limit raw = Ok parts ∧
    Forall2 (λ part str, render json_dumps part = Ok str) parts strs ∧
    out = join [10; 10] strs.
Proof. apply parse_mixed_parts. Qed.

End PartsMore.

Lemma standalone_documents_are_objects_witness :
  ∃ members, JObj [(py "a", JInt 1)] = JObj members.
Proof.
  apply (standalone_documents_are_objects cpython311 (quoted "see {'a': 1} here")
           [Text (py "see"); Json (JObj [(py "a", JInt 1)]); Text (py "here")]).
  - vm_compute. reflexivity.
  - vm_compute. reflexivity.
  - vm_compute. reflexivity.
  - right. left.
Defined.

Lemma text_parts_are_stripped_witness :
  [Text (py "see"); Json (JObj [(py "a", JInt 1)]); Text (py "here")] ≠ [] ∧
  ∀ t, Text t ∈ [Text (py "see"); Json (JObj [(py "a", JInt 1)]); Text (py "here")] →
    strip t = t ∧
    (t = [] →
     [Text (py "see"); Json (JObj [(py "a", JInt 1)]); Text (py "here")] = [Text []]).
Proof.
  apply (text_parts_are_stripped cpython311 (quoted " see {'a': 1} here ")).
  vm_compute. reflexivity.
Defined.

Lemma result_joins_parts_witness :
  ∃ parts strs,
    result_parts cpython311 (quoted "see {'a': 1} here") = Ok parts ∧
    Forall2 (λ part str, render (λ _, Some (py "{}")) part = Ok str) parts strs ∧
    py "see" ++ [10; 10] ++ py "{}" ++ [10; 10] ++ py "here"
    = join [10; 10] strs.
Proof.
  apply (result_joins_parts (λ _, Some (py "{}")) cpython311
           (quoted "see {'a': 1} here")).
  - by intros v formatted [= <-].
  - vm_compute. reflexivity.
Defined.

Lemma surrounding_space_ignored_witness :
  result_parts cpython311 (py "  " ++ py "{}" ++ [10%N]) = result_parts cpython311 (py "{}").
Proof.
  apply (surrounding_space_ignored cpython311 (py "  ") (py "{}") [10%N]);
    repeat constructor.
Defined.

Local Close Scope N_scope.

(** ** MIME types and file extensions *)

Section MimeFacts.

Variable guess_type : string → option string.
Variable suffix_lower : string → string.

Lemma table_get_values key table default (P : string → Prop) :
  P default → Forall (λ kv, P kv.2) table → P (table_get key table default).
Proof.
  intros Hd. induction 1 as [|[k v] table Hv _ IH]; [done|].
  cbn [table_get]. by destruct (String.eqb k key).
Qed.

(** X10. [get_mime_type] always returns a type that starts with
    [audio/], whatever the standard library guesses and whatever the
    suffix of the path is. *)
Theorem get_mime_type_is_audio file_path :
  String.prefix "audio/" (get_mime_type guess_type suffix_lower file_path) = true.
Proof.
  unfold get_mime_type.
  assert (String.prefix "audio/"
            (table_get (suffix_lower file_path) mime_types "audio/mpeg") = true) as Ht.
  { apply table_get_values; [done|]. repeat constructor. }
  destruct (guess_type file_path) as [m|]; [|done].
  destruct (negb (String.eqb m "") && String.prefix "audio/" m) eqn:E; [|done].
  by apply andb_true_iff in E as [_ ?].
Qed.

(** X11. [get_file_extension] returns one of the seven extensions
    [webm], [mp3], [wav], [ogg], [m4a], [flac], [aac], for every MIME
    type. *)
Theorem get_file_extension_known mime_type :
  get_file_extension mime_type ∈ extensions.
Proof.
  unfold get_file_extension.
  apply (table_get_values _ _ _ (λ e, e ∈ extensions)).
  - unfold extensions. set_solver.
  - unfold extensions. repeat constructor; cbn; set_solver.
Qed.

(** X12. For a path for which the standard library guesses no audio
    type, the extension that [get_file_extension] gives for the type of
    [get_mime_type] is the suffix without its dot for [.mp3], [.wav],
    [.ogg], [.m4a], [.flac], [.webm] and [.aac], it is [m4a] for [.mp4],
    and [mp3] for every other suffix. *)
Theorem extension_of_local_file file_path :
  (∀ m, guess_type file_path = Some m → String.prefix "audio/" m = false) →
  get_file_extension (get_mime_type guess_type suffix_lower file_path)
  = table_get (suffix_lower file_path) suffix_to_ext "mp3".
Proof.
  intros Hg. unfold get_mime_type.
  destruct (guess_type file_path) as [m|] eqn:E.
  - rewrite (Hg m eq_refl), andb_false_r.
    generalize (suffix_lower file_path). intros ext.
    unfold mime_types, suffix_to_ext. cbn [table_get].
    repeat (match goal with |- context [String.eqb ?k ext] =>
              destruct (String.eqb k ext); [reflexivity|] end).
    reflexivity.
  - generalize (suffix_lower file_path). intros ext.
    unfold mime_types, suffix_to_ext. cbn [table_get].
    repeat (match goal with |- context [String.eqb ?k ext] =>
              destruct (String.eqb k ext); [reflexivity|] end).
    reflexivity.
Qed.

End MimeFacts.

Lemma extension_of_local_file_witness :
  get_file_extension (get_mime_type (λ _, None) (λ _, ".mp4"%string) "clip.mp4")
  = table_get ".mp4" suffix_to_ext "mp3".
Proof.
  apply (extension_of_local_file (λ _, None) (λ _, ".mp4"%string) "clip.mp4").
  intros m H. discriminate.
Defined.

(** ** More on the alignment *)

Section AlignMore.

Implicit Types (t s : dict) (ts ss : list dict).

(** X17. Aligning a concatenation of transcription segments is aligning
    the two lists one after the other; an exception in either aborts the
    call. *)
Theorem align_concatenation ts1 ts2 ss :
  align_transcription_with_speakers (ts1 ++ ts2) ss
  = (out1 ← align_transcription_with_speakers ts1 ss;
     out2 ← align_transcription_with_speakers ts2 ss;
     Some (out1 ++ out2)).
Proof.
  induction ts1 as [|t ts1 IH]; cbn [app align_transcription_with_speakers].
  - cbn. by destruct (align_transcription_with_speakers ts2 ss).
  - destruct (align_segment ss t) as [aligned|]; [|done]. cbn [mbind option_bind].
    rewrite IH.
    destruct (align_transcription_with_speakers ts1 ss) as [out1|]; [|done].
    cbn [mbind option_bind].
    by destruct (align_transcription_with_speakers ts2 ss).
Qed.

Lemma best_loop_label v w ss : ∀ b bo r,
  best_loop v w ss b bo = Some r →
  r.1 = b ∨ ∃ s, s ∈ ss ∧ s !! "speaker" = Some r.1.
Proof.
  induction ss as [|s ss IH]; intros b bo r; cbn [best_loop].
  - intros [= <-]. by left.
  - destruct (s !! "start") as [a|]; [|done].
    destruct (s !! "end") as [c|]; [|done]. cbn [mbind option_bind].
    destruct (overlap v w a c) as [ov|]; [|done]. cbn [mbind option_bind].
    destruct (gt ov bo).
    + destruct (s !! "speaker") as [lbl|] eqn:El; [|done]. cbn [mbind option_bind].
      intros [->|(s' & Hs' & Hl)]%IH.
      * right. exists s. split; [left|done].
      * right. exists s'. split; [by right|done].
    + intros [->|(s' & Hs' & Hl)]%IH; [by left|].
      right. exists s'. split; [by right|done].
Qed.

Lemma align_segment_label ss t aligned :
  align_segment ss t = Some aligned →
  label_of aligned = Some (VStr "UNKNOWN") ∨
  ∃ s, s ∈ ss ∧ s !! "speaker" = label_of aligned.
Proof.
  unfold align_segment.
  destruct (t !! "start") as [v|]; [|done].
  destruct (t !! "end") as [w|]; [|done]. cbn [mbind option_bind].
  destruct (best_loop v w ss VNone (Int 0)) as [r|] eqn:Er; [|done].
  cbn [mbind option_bind]. intros [= <-].
  unfold label_of. rewrite lookup_insert_eq.
  unfold speaker_or_unknown.
  destruct (truthy r.1) eqn:Et; [|by left].
  apply best_loop_label in Er as [E|(s & Hs & Hl)].
  - rewrite E in Et. done.
  - right. by exists s.
Qed.

(** X18. The label of an aligned segment is [UNKNOWN] or the label of
    one of the speaker segments: no other label is ever made up. *)
Theorem align_labels_come_from_speakers ts ss out aligned :
  align_transcription_with_speakers ts ss = Some out →
  aligned ∈ out →
  label_of aligned = Some (VStr "UNKNOWN") ∨
  ∃ s, s ∈ ss ∧ s !! "speaker" = label_of aligned.
Proof.
  intros Ha [k Hk]%list_elem_of_lookup.
  destruct (align_lookup ts ss out Ha) as [Hlen Hts].
  destruct (lookup_lt_is_Some_2 ts k) as [t Ht].
  { rewrite <- Hlen. by eapply lookup_lt_Some. }
  destruct (Hts k t Ht) as (aligned' & E & Hseg).
  assert (aligned' = aligned) as -> by congruence.
  by eapply align_segment_label.
Qed.

Lemma align_segment_again ss t aligned :
  align_segment ss t = Some aligned → align_segment ss aligned = Some aligned.
Proof.
  unfold align_segment.
  destruct (t !! "start") as [v|] eqn:Ev; [|done].
  destruct (t !! "end") as [w|] eqn:Ew; [|done]. cbn [mbind option_bind].
  destruct (best_loop v w ss VNone (Int 0)) as [r|] eqn:Er; [|done].
  cbn [mbind option_bind]. intros [= <-].
  rewrite !lookup_insert_ne by done. rewrite Ev, Ew. cbn [mbind option_bind].
  rewrite Er. cbn [mbind option_bind]. by rewrite insert_insert_eq.
Qed.

(** X19. Aligning the aligned segments again, with the same speaker
    segments, returns them unchanged. *)
Theorem align_idempotent ts ss out :
  align_transcription_with_speakers ts ss = Some out →
  align_transcription_with_speakers out ss = Some out.
Proof.
  revert out. induction ts as [|t ts IH]; intros out;
    cbn [align_transcription_with_speakers].
  - by intros [= <-].
  - destruct (align_segment ss t) as [aligned|] eqn:Ea; [|done].
    destruct (align_transcription_with_speakers ts ss) as [rest|]; [|done].
    cbn [mbind option_bind]. intros [= <-].
    cbn [align_transcription_with_speakers].
    rewrite (align_segment_again _ _ _ Ea), (IH rest eq_refl). done.
Qed.

(** X20. The overlap of lines 219-221, whatever the four numbers: it
    is computed unless an [int] among them is too large for a [float];
    it is the [int] 0 or a number greater than 0, never negative and
    never a NaN; and it is not the same when the two intervals are
    exchanged: for the intervals from 0 to 9007199254740993 and from 0.0
    to 1e300 it is the [int] 9007199254740993 one way and the [float]
    9007199254740992.0 the other. *)
Theorem overlap_not_negative a b c d :
  (is_Some (to_float a) ∧ is_Some (to_float b) ∧
   is_Some (to_float c) ∧ is_Some (to_float d) →
   is_Some (overlap_num a b c d)) ∧
  (∀ o, overlap_num a b c d = Some o →
     comparable o ∧ gt (Int 0) o = false ∧
     (o = Int 0 ∨ gt o (Int 0) = true)) ∧
  overlap_num (Int 0) (Int 9007199254740993) (Float 0) (Float 1e300)
  = Some (Int 9007199254740993) ∧
  overlap_num (Float 0) (Float 1e300) (Int 0) (Int 9007199254740993)
  = Some (Float 9007199254740992).
Proof.
  split; [|split; [|split; vm_compute; reflexivity]].
  - intros (Ha & Hb & Hc & Hd). unfold overlap_num.
    destruct (py_sub_total (py_min b d) (py_max a c)) as [difference ->].
    + unfold py_min. by destruct (gt b d).
    + unfold py_max. by destruct (gt c a).
    + by eexists.
  - intros o Ho. destruct (overlap_num_sound _ _ _ _ _ Ho) as [H1 H2].
    split; [done|]. split; [done|].
    unfold overlap_num in Ho. destruct (py_sub _ _) as [difference|]; [|done].
    injection Ho as <-. unfold py_max.
    destruct (gt difference (Int 0)) eqn:E; [by right|by left].
Qed.

(** X21. A transcription segment without [start] or without [end]
    makes the whole call fail ([KeyError]), wherever it is in the list
    and whatever the speaker segments are. *)
Theorem align_missing_time t ts ss :
  t ∈ ts → t !! "start" = None ∨ t !! "end" = None →
  align_transcription_with_speakers ts ss = None.
Proof.
  intros Ht Hm. induction ts as [|t0 ts IH]; [by apply elem_of_nil in Ht|].
  cbn [align_transcription_with_speakers].
  apply elem_of_cons in Ht as [<-|Ht].
  - assert (align_segment ss t = None) as ->; [|done].
    unfold align_segment. destruct Hm as [->| ->]; [done|].
    by destruct (t !! "start").
  - rewrite (IH Ht). by destruct (align_segment ss t0).
Qed.

End AlignMore.

Lemma align_labels_come_from_speakers_witness :
  label_of (<["speaker" := VStr "A"]> (transcript 0 5 "hi")) = Some (VStr "UNKNOWN") ∨
  ∃ s, s ∈ [speaker "A" 0 2] ∧
       s !! "speaker" = label_of (<["speaker" := VStr "A"]> (transcript 0 5 "hi")).
Proof.
  apply (align_labels_come_from_speakers [transcript 0 5 "hi"] [speaker "A" 0 2]
           [<["speaker" := VStr "A"]> (transcript 0 5 "hi")]).
  - vm_compute. reflexivity.
  - left.
Defined.

Lemma align_idempotent_witness :
  align_transcription_with_speakers
    [<["speaker" := VStr "A"]> (transcript 0 5 "hi")] [speaker "A" 0 2]
  = Some [<["speaker" := VStr "A"]> (transcript 0 5 "hi")].
Proof.
  apply (align_idempotent [transcript 0 5 "hi"] [speaker "A" 0 2]).
  vm_compute. reflexivity.
Defined.

Lemma align_missing_time_witness :
  align_transcription_with_speakers
    [transcript 0 5 "hi"; <["end" := VInt 1]> ∅] [speaker "A" 0 2] = None.
Proof.
  apply (align_missing_time (<["end" := VInt 1]> ∅)).
  - right. left.
  - left. vm_compute. reflexivity.
Defined.

(** ** [format_as_text] and [format_as_srt] *)

Section FormatsFacts.

Variable float_str : float → str.
Variable list_str : list value → option str.
Variable list_eq : list value → list value → bool.
Variable format_timestamp : value → option str.

Implicit Types (d seg : dict) (segs ts ss : list dict).

Lemma align_relabels ts ss out :
  align_transcription_with_speakers ts ss = Some out →
  Forall2 (λ t aligned, ∃ lbl, aligned = <["speaker" := lbl]> t) ts out.
Proof.
  revert out. induction ts as [|t ts IH]; intros out; cbn [align_transcription_with_speakers].
  - intros [= <-]. constructor.
  - destruct (align_segment ss t) as [aligned|] eqn:Ea; [|done].
    destruct (align_transcription_with_speakers ts ss) as [rest|]; [|done].
    cbn. intros [= <-]. constructor; [|by apply IH].
    by apply align_segment_shape in Ea.
Qed.

Lemma text_lines_total segs : ∀ current_speaker,
  Forall (λ seg, is_Some (seg !! "speaker") ∧ worded seg ∧
                 printed float_str list_str seg) segs →
  is_Some (text_lines float_str list_str list_eq current_speaker segs).
Proof.
  induction segs as [|seg segs IH]; intros cur Hs; [by eexists|].
  apply Forall_cons in Hs as [([lbl Hl] & [s Ht] & Hp) Hs].
  cbn [text_lines]. rewrite Hl. unfold stripped_text at 1. rewrite Ht.
  cbn [mbind option_bind].
  destruct (negb (py_eq list_eq lbl cur)).
  - destruct (Hp lbl Hl) as [label ->]. cbn [mbind option_bind].
    destruct (IH lbl Hs) as [lines ->]. by eexists.
  - destruct (IH cur Hs) as [lines ->]. by eexists.
Qed.

Lemma srt_lines_total segs : ∀ i,
  Forall (λ seg, is_Some (seg !! "speaker") ∧ worded seg ∧
                 printed float_str list_str seg ∧
                 stamped format_timestamp seg ∧
                 is_Some (seg !! "start") ∧ is_Some (seg !! "end")) segs →
  is_Some (srt_lines float_str list_str format_timestamp i segs).
Proof.
  induction segs as [|seg segs IH]; intros i Hs; [by eexists|].
  apply Forall_cons in Hs
    as [([lbl Hl] & [s Ht] & Hp & Hf & [a Ha] & [b Hb]) Hs].
  cbn [srt_lines]. rewrite Ha, Hb, Hl. unfold stripped_text at 1. rewrite Ht.
  cbn [mbind option_bind].
  destruct (Hf a (or_introl Ha)) as [ta ->].
  destruct (Hf b (or_intror Hb)) as [tb ->].
  cbn [fmap option_fmap option_map mbind option_bind].
  destruct (Hp lbl Hl) as [label ->]. cbn [mbind option_bind].
  destruct (IH (S i) Hs) as [lines ->]. by eexists.
Qed.

(** The labels of the aligned segments can be written when those of
    the speaker segments can. *)
Lemma aligned_printed ts ss out :
  Forall (printed float_str list_str) ss →
  align_transcription_with_speakers ts ss = Some out →
  Forall (printed float_str list_str) out.
Proof.
  intros Hss Ha. apply Forall_forall. intros aligned [k Hk]%list_elem_of_lookup.
  destruct (align_lookup ts ss out Ha) as [Hlen Hts].
  destruct (lookup_lt_is_Some_2 ts k) as [t Ht].
  { rewrite <- Hlen. by eapply lookup_lt_Some. }
  destruct (Hts k t Ht) as (aligned' & E & Hseg).
  assert (aligned' = aligned) as -> by congruence.
  intros label Hl.
  destruct (align_segment_label _ _ _ Hseg) as [Hu|(s & Hs & Heq)].
  - unfold label_of in Hu. rewrite Hl in Hu. injection Hu as ->. by eexists.
  - rewrite Forall_forall in Hss. apply (Hss s Hs).
    rewrite Heq. exact Hl.
Qed.

Lemma aligned_fields (P : dict → Prop) ts ss out :
  (∀ t lbl, P t → P (<["speaker" := lbl]> t)) →
  Forall P ts →
  align_transcription_with_speakers ts ss = Some out →
  Forall (λ seg, is_Some (seg !! "speaker") ∧ P seg) out.
Proof.
  intros HP Ht Ha. apply align_relabels in Ha.
  induction Ha as [|t aligned ts out (lbl & ->) _ IH]; [constructor|].
  apply Forall_cons in Ht as [Hp Ht].
  constructor; [|by apply IH].
  split; [by rewrite lookup_insert_eq|by apply HP].
Qed.

Lemma worded_relabel t lbl : worded t → worded (<["speaker" := lbl]> t).
Proof. intros [s Hs]. exists s. by rewrite lookup_insert_ne. Qed.

Lemma stamped_relabel t lbl :
  stamped format_timestamp t → stamped format_timestamp (<["speaker" := lbl]> t).
Proof. intros H v. rewrite !lookup_insert_ne by done. apply H. Qed.

(** X13. [format_as_text] returns on what the alignment returns for
    typed segments whose [text] is a string, when the labels of the
    speaker segments can be written: the [speaker] key that it reads is
    always there, and its value is [UNKNOWN] or one of these labels. *)
Theorem format_as_text_after_align ts ss :
  Forall timed ts → Forall worded ts → Forall speaker_segment ss →
  Forall (printed float_str list_str) ss →
  ∃ out txt,
    align_transcription_with_speakers ts ss = Some out ∧
    format_as_text float_str list_str list_eq out = Some txt.
Proof.
  intros Ht Hw Hs Hp. destruct (align_total ts ss Ht Hs) as [out Ho].
  exists out. unfold format_as_text.
  destruct (text_lines_total out VNone) as [lines ->]; [|by eexists].
  pose proof (aligned_printed ts ss out Hp Ho) as Hprinted.
  pose proof (aligned_fields worded ts ss out worded_relabel Hw Ho) as Hfields.
  rewrite !Forall_forall in *. intros seg Hseg.
  destruct (Hfields seg Hseg). split; [done|]. split; [done|]. by apply Hprinted.
Qed.

(** X14. [format_as_srt] returns on what the alignment returns for
    typed segments whose [text] is a string, when [format_timestamp]
    returns on their times and the labels of the speaker segments can be
    written. *)
Theorem format_as_srt_after_align ts ss :
  Forall timed ts → Forall worded ts → Forall (stamped format_timestamp) ts →
  Forall speaker_segment ss → Forall (printed float_str list_str) ss →
  ∃ out txt,
    align_transcription_with_speakers ts ss = Some out ∧
    format_as_srt float_str list_str format_timestamp out = Some txt.
Proof.
  intros Ht Hw Hf Hs Hp. destruct (align_total ts ss Ht Hs) as [out Ho].
  exists out. unfold format_as_srt.
  destruct (srt_lines_total out 1) as [lines ->]; [|by eexists].
  pose proof (aligned_printed ts ss out Hp Ho) as Hprinted.
  assert (Forall (λ t, worded t ∧ stamped format_timestamp t ∧
                       is_Some (t !! "start") ∧ is_Some (t !! "end")) ts) as Hall.
  { rewrite !Forall_forall in *. intros t Hin.
    destruct (Ht t Hin) as (a & b & Ha & Hb & _). rewrite Ha, Hb.
    split; [by apply Hw|]. split; [by apply Hf|]. by split; eexists. }
  assert (Hfields : Forall (λ seg, is_Some (seg !! "speaker") ∧
    (worded seg ∧ stamped format_timestamp seg ∧
     is_Some (seg !! "start") ∧ is_Some (seg !! "end"))) out).
  { eapply (aligned_fields _ ts ss out); [|exact Hall|exact Ho].
    intros t lbl (? & ? & ? & ?). rewrite !lookup_insert_ne by done.
    split; [by apply worded_relabel|]. split; [by apply stamped_relabel|done]. }
  rewrite !Forall_forall in *. intros seg Hseg.
  destruct (Hfields seg Hseg) as (? & ? & ? & ? & ?).
  repeat split; try done. by apply Hprinted.
Qed.

Lemma same_speaker_lines a segs :
  Forall (λ seg, seg !! "speaker" = Some (VStr a) ∧ worded seg) segs →
  ∃ texts, Forall2 (λ seg text, stripped_text seg = Some text) segs texts ∧
    text_lines float_str list_str list_eq (VStr a) segs = Some texts.
Proof.
  induction 1 as [|seg segs [Hl [s Ht]] _ (texts & E1 & E2)].
  - by exists [].
  - exists (strip (py s) :: texts). split.
    + constructor; [|done]. unfold stripped_text. by rewrite Ht.
    + cbn [text_lines]. rewrite Hl. unfold stripped_text at 1. rewrite Ht.
      cbn [mbind option_bind py_eq]. rewrite String.eqb_refl. cbn [negb].
      by rewrite E2.
Qed.

(** X15. For one segment or more that all carry the same string label,
    [format_as_text] gives one header, the label in brackets and a colon,
    then the stripped texts, one per line; the line break before the
    header is stripped away. *)
Theorem format_as_text_one_speaker a segs :
  segs ≠ [] →
  Forall (λ seg, seg !! "speaker" = Some (VStr a) ∧ worded seg) segs →
  ∃ texts,
    Forall2 (λ seg text, stripped_text seg = Some text) segs texts ∧
    format_as_text float_str list_str list_eq segs
    = Some (strip ((10%N :: chr "[" :: py a ++ py "]:") ++ [10%N] ++ join [10%N] texts)).
Proof.
  intros Hne Hs. destruct (same_speaker_lines a segs Hs) as (texts & E1 & E2).
  exists texts. split; [done|].
  destruct segs as [|seg segs]; [done|].
  apply Forall_cons in Hs as [[Hl [s Ht]] Hs].
  unfold format_as_text. cbn [text_lines] in *. rewrite Hl in *.
  unfold stripped_text at 1 in E2. unfold stripped_text at 1. rewrite Ht in *.
  cbn [mbind option_bind py_eq negb py_str] in *.
  rewrite String.eqb_refl in E2. cbn [negb] in E2.
  destruct (text_lines float_str list_str list_eq (VStr a) segs) as [lines|]; [|done].
  cbn in E2. injection E2 as <-. cbn [mbind option_bind]. done.
Qed.

Lemma srt_lines_blocks segs : ∀ i lines,
  srt_lines float_str list_str format_timestamp i segs = Some lines →
  length lines = 4 * length segs ∧
  ∀ k seg, segs !! k = Some seg →
    ∃ start end_ start_time end_time text speaker label,
      seg !! "start" = Some start ∧ format_timestamp start = Some start_time ∧
      seg !! "end" = Some end_ ∧ format_timestamp end_ = Some end_time ∧
      stripped_text seg = Some text ∧ seg !! "speaker" = Some speaker ∧
      py_str float_str list_str speaker = Some label ∧
      lines !! (4 * k) = Some (decimal (i + k)) ∧
      lines !! (4 * k + 1)
      = Some (dots_to_commas start_time ++ py " --> " ++ dots_to_commas end_time) ∧
      lines !! (4 * k + 2) = Some (chr "[" :: label ++ py "] " ++ text) ∧
      lines !! (4 * k + 3) = Some [].
Proof.
  induction segs as [|seg0 segs IH]; intros i lines; cbn [srt_lines].
  - intros [= <-]. split; [done|]. intros k seg Hk. by rewrite lookup_nil in Hk.
  - destruct (seg0 !! "start") as [start|] eqn:E1; [|done]. cbn [mbind option_bind].
    destruct (format_timestamp start) as [start_time|] eqn:E2; [|done].
    cbn [fmap option_fmap option_map mbind option_bind].
    destruct (seg0 !! "end") as [end_|] eqn:E3; [|done]. cbn [mbind option_bind].
    destruct (format_timestamp end_) as [end_time|] eqn:E4; [|done].
    cbn [fmap option_fmap option_map mbind option_bind].
    destruct (stripped_text seg0) as [text|] eqn:E5; [|done]. cbn [mbind option_bind].
    destruct (seg0 !! "speaker") as [speaker|] eqn:E6; [|done]. cbn [mbind option_bind].
    destruct (py_str float_str list_str speaker) as [label|] eqn:E8; [|done].
    cbn [mbind option_bind].
    destruct (srt_lines _ _ _ (S i) segs) as [rest|] eqn:E7; [|done].
    cbn [mbind option_bind]. intros [= <-].
    destruct (IH _ _ E7) as [Hlen Hk]. split; [cbn [length]; lia|].
    intros [|k] seg Hs.
    + injection Hs as <-.
      exists start, end_, start_time, end_time, text, speaker, label.
      rewrite Nat.add_0_r. repeat split; done.
    + cbn in Hs. destruct (Hk k seg Hs)
        as (st & en & stt & ent & tx & sp & lb & ? & ? & ? & ? & ? & ? & ? &
            L0 & L1 & L2 & L3).
      exists st, en, stt, ent, tx, sp, lb.
      replace (4 * S k) with (S (S (S (S (4 * k))))) by lia.
      replace (i + S k) with (S i + k) by lia.
      repeat split; done.
Qed.

(** X16. [format_as_srt] writes four lines for each segment: its number,
    counted from 1; the two timestamps, commas in place of dots, around
    an arrow; the label in brackets before the stripped text; an empty
    line. *)
Theorem format_as_srt_blocks segs out :
  format_as_srt float_str list_str format_timestamp segs = Some out →
  ∃ lines,
    out = join [10%N] lines ∧
    length lines = 4 * length segs ∧
    ∀ k seg, segs !! k = Some seg →
      ∃ start end_ start_time end_time text speaker label,
        seg !! "start" = Some start ∧ format_timestamp start = Some start_time ∧
        seg !! "end" = Some end_ ∧ format_timestamp end_ = Some end_time ∧
        stripped_text seg = Some text ∧ seg !! "speaker" = Some speaker ∧
        py_str float_str list_str speaker = Some label ∧
        lines !! (4 * k) = Some (decimal (S k)) ∧
        lines !! (4 * k + 1)
        = Some (dots_to_commas start_time ++ py " --> " ++ dots_to_commas end_time) ∧
        lines !! (4 * k + 2) = Some (chr "[" :: label ++ py "] " ++ text) ∧
        lines !! (4 * k + 3) = Some [].
Proof.
  unfold format_as_srt.
  destruct (srt_lines _ _ _ 1 segs) as [lines|] eqn:E; [|done].
  cbn. intros [= <-]. exists lines. split; [done|].
  destruct (srt_lines_blocks _ _ _ E) as [Hlen Hk]. split; [done|].
  exact Hk.
Qed.

End FormatsFacts.

Lemma format_as_text_after_align_witness :
  ∃ out txt,
    align_transcription_with_speakers
      [transcript 0 5 " one "; transcript 5 7 "two"] [speaker "A" 0 2] = Some out ∧
    format_as_text (λ _, []) (λ _, None) (λ _ _, false) out = Some txt.
Proof.
  apply (format_as_text_after_align (λ _, []) (λ _, None) (λ _ _, false)
           [transcript 0 5 " one "; transcript 5 7 "two"] [speaker "A" 0 2]).
  - repeat constructor; timed_segment.
  - repeat constructor; eexists; vm_compute; reflexivity.
  - repeat constructor; try timed_segment. vm_compute. eauto.
  - repeat constructor. intros label [= <-]. by eexists.
Defined.

Lemma format_as_srt_after_align_witness :
  ∃ out txt,
    align_transcription_with_speakers
      [transcript 0 5 " one "; transcript 5 7 "two"] [speaker "A" 0 2] = Some out ∧
    format_as_srt (λ _, []) (λ _, None) (λ _, Some (py "00:00:00.000")) out = Some txt.
Proof.
  apply (format_as_srt_after_align (λ _, []) (λ _, None) (λ _, Some (py "00:00:00.000"))
           [transcript 0 5 " one "; transcript 5 7 "two"] [speaker "A" 0 2]).
  - repeat constructor; timed_segment.
  - repeat constructor; eexists; vm_compute; reflexivity.
  - repeat constructor; intros v _; by eexists.
  - repeat constructor; try timed_segment. vm_compute. eauto.
  - repeat constructor. intros label [= <-]. by eexists.
Defined.

Lemma format_as_text_one_speaker_witness :
  ∃ texts,
    Forall2 (λ seg text, stripped_text seg = Some text)
      [spoken "A" 0 1 " one"; spoken "A" 1 2 "two "] texts ∧
    format_as_text (λ _, []) (λ _, None) (λ _ _, false) [spoken "A" 0 1 " one"; spoken "A" 1 2 "two "]
    = Some (strip ((10%N :: chr "[" :: py "A" ++ py "]:") ++ [10%N] ++ join [10%N] texts)).
Proof.
  apply (format_as_text_one_speaker (λ _, []) (λ _, None) (λ _ _, false) "A"
           [spoken "A" 0 1 " one"; spoken "A" 1 2 "two "]).
  - discriminate.
  - repeat constructor; try (vm_compute; reflexivity); eexists; vm_compute; reflexivity.
Defined.

Lemma format_as_srt_blocks_witness :
  ∃ out,
    format_as_srt (λ _, []) (λ _, None) (λ _, Some (py "00:00:01.500"))
      [spoken "A" 0 1 " one"] = Some out ∧
    ∃ lines,
      out = join [10%N] lines ∧
      length lines = 4 * length [spoken "A" 0 1 " one"] ∧
      ∀ k seg, [spoken "A" 0 1 " one"] !! k = Some seg →
        ∃ start end_ start_time end_time text speaker label,
          seg !! "start" = Some start ∧
          (λ _, Some (py "00:00:01.500")) start = Some start_time ∧
          seg !! "end" = Some end_ ∧
          (λ _, Some (py "00:00:01.500")) end_ = Some end_time ∧
          stripped_text seg = Some text ∧ seg !! "speaker" = Some speaker ∧
          py_str (λ _, []) (λ _, None) speaker = Some label ∧
          lines !! (4 * k) = Some (decimal (S k)) ∧
          lines !! (4 * k + 1)
          = Some (dots_to_commas start_time ++ py " --> " ++ dots_to_commas end_time) ∧
          lines !! (4 * k + 2) = Some (chr "[" :: label ++ py "] " ++ text) ∧
          lines !! (4 * k + 3) = Some [].
Proof.
  eexists. split; [vm_compute; reflexivity|].
  apply (format_as_srt_blocks (λ _, []) (λ _, None) (λ _, Some (py "00:00:01.500"))
           [spoken "A" 0 1 " one"]).
  vm_compute. reflexivity.
Defined.

(** An [int] of 4301 digits as a label: the f-string raises
    [ValueError]. *)
Example label_too_long :
  format_as_text (λ _, []) (λ _, None) (λ _ _, false)
    [<["speaker" := VInt (10 ^ 4300)]> (transcript 0 1 "hi")] = None.
Proof. vm_compute. reflexivity. Qed.

(** ** The pipeline of [main] in format_output.py, on one response *)

Example format_response :
  ∃ data,
    json_loads cpython311
      (quoted "{'candidates': [{'content': {'parts': [{'text': 'Hi{}there'}, {'text': '[1, 2]'}]}}]}")
    = Ok data ∧
    extract_text_from_json (λ _, None) data
    = Returns (JStr (py "Hi{}there" ++ [10%N] ++ py "[1, 2]")) ∧
    format_text_with_line_breaks (λ _, None) cpython311
      (py "Hi{}there" ++ [10%N] ++ py "[1, 2]")
    = Ok (py "Hi" ++ [10%N] ++ py "there" ++ [10%N] ++ py "[1, 2]").
Proof. eexists. split; [|split]; vm_compute; reflexivity. Qed.
